(** * Trimmed serendipity elements (FIAT/Sminus.py): model and properties

    A shallow embedding of [src/FIAT/Sminus.py].  Python integers are [Z];
    tuples and lists of basis terms are lists; dictionaries are [gmap]s;
    exceptions are values of [exn] carried in the left injection of a sum.
    Symbolic expressions (built through sympy in the source) are terms of the
    inductive type [expr], with an exact rational denotation [eval]. *)

From Stdlib Require Import ZArith QArith String List Lia.
From stdpp Require Import base numbers list list_numbers gmap sorting.

Close Scope Q_scope.
Local Open Scope Z_scope.

(** ** Python runtime: exceptions, results, ranges *)

Module Py.

(** The exceptions that the modelled code raises or lets escape. *)
Inductive exn : Type :=
| Exception (msg : string)
| NotImplementedError (msg : option string)
| UnboundLocalError (name : string)
| KeyError
| IndexError
| TypeError.

(** The classes of those exceptions and their place in Python's built-in
    hierarchy. *)
Inductive exn_class : Type :=
| cBaseException | cException | cRuntimeError | cNotImplementedError
| cNameError | cUnboundLocalError | cLookupError | cKeyError | cIndexError
| cTypeError.

Definition class_of (e : exn) : exn_class :=
  match e with
  | Exception _ => cException
  | NotImplementedError _ => cNotImplementedError
  | UnboundLocalError _ => cUnboundLocalError
  | KeyError => cKeyError
  | IndexError => cIndexError
  | TypeError => cTypeError
  end.

Definition superclass (c : exn_class) : option exn_class :=
  match c with
  | cBaseException => None
  | cException => Some cBaseException
  | cRuntimeError => Some cException
  | cNotImplementedError => Some cRuntimeError
  | cNameError => Some cException
  | cUnboundLocalError => Some cNameError
  | cLookupError => Some cException
  | cKeyError => Some cLookupError
  | cIndexError => Some cLookupError
  | cTypeError => Some cException
  end.

Definition exn_class_eqb (c d : exn_class) : bool :=
  match c, d with
  | cBaseException, cBaseException | cException, cException
  | cRuntimeError, cRuntimeError | cNotImplementedError, cNotImplementedError
  | cNameError, cNameError | cUnboundLocalError, cUnboundLocalError
  | cLookupError, cLookupError | cKeyError, cKeyError
  | cIndexError, cIndexError | cTypeError, cTypeError => true
  | _, _ => false
  end.

(** [issubclass c d]: walk up from [c]; the hierarchy has depth 4. *)
Fixpoint issubclass_fuel (fuel : nat) (c d : exn_class) : bool :=
  exn_class_eqb c d ||
  match fuel, superclass c with
  | S k, Some c' => issubclass_fuel k c' d
  | _, _ => false
  end.

Definition issubclass : exn_class → exn_class → bool := issubclass_fuel 4.

(** [except d:] catches [e] exactly when [isinstance e d]. *)
Definition isinstance (e : exn) (d : exn_class) : bool :=
  issubclass (class_of e) d.

(** A computation either raises or returns. *)
Definition result (A : Type) : Type := exn + A.

Definition raise {A} (e : exn) : result A := inl e.

#[global] Instance result_ret : MRet result := λ A x, inr x.
#[global] Instance result_bind : MBind result := λ A B f m,
  match m with
  | inl e => inl e
  | inr x => f x
  end.

(** A computation on a mutable store of type [S]: it may raise, and the
    store keeps the writes made before the exception. *)
Definition stateful (S A : Type) : Type := S → result A * S.

#[global] Instance stateful_ret {S} : MRet (stateful S) :=
  λ A x s, (inr x, s).
#[global] Instance stateful_bind {S} : MBind (stateful S) := λ A B f m s,
  match m s with
  | (inl e, s') => (inl e, s')
  | (inr x, s') => f x s'
  end.

(** A pure computation inside a stateful one. *)
Definition lift {S A} (r : result A) : stateful S A := λ s, (r, s).

(** A [for] loop whose body may raise (and write to the store), threading
    the loop-carried variables [acc]. *)
Fixpoint for_each `{MBind M, MRet M} {A B} (body : A → B → M B)
    (l : list A) (acc : B) : M B :=
  match l with
  | [] => mret acc
  | a :: l' => acc' ← body a acc; for_each body l' acc'
  end.

(** [enumerate(l)]. *)
Definition enumerate {A} (l : list A) : list (nat * A) := imap pair l.

(** [range(start, stop)]. *)
Definition range (start stop : Z) : list Z := seqZ start (stop - start).

(** [d[k]] on a dictionary: [KeyError] when the key is absent. *)
Definition getitem `{Countable K} {V} (d : gmap K V) (k : K) : result V :=
  match d !! k with
  | Some v => mret v
  | None => raise KeyError
  end.

(** [t[i]] on a tuple or list, [i >= 0]: [IndexError] out of range. *)
Definition index {A} (t : list A) (i : nat) : result A :=
  match t !! i with
  | Some v => mret v
  | None => raise IndexError
  end.

(** [t[-1]]. *)
Definition index_last {A} (t : list A) : result A :=
  match last t with
  | Some v => mret v
  | None => raise IndexError
  end.

(** [sorted(d)] on a dictionary with integer keys. *)
Definition sorted_keys {V} (d : gmap Z V) : list Z :=
  merge_sort Z.le (map_to_list d).*1.

End Py.
Import Py.

(** ** Symbolic expressions *)

Module Sym.

(** [x, y, z = symbols('x y z')]. *)
Inductive var : Type := x | y | z.

Definition variables : list var := [x; y; z].

Definition var_eqb (u v : var) : bool :=
  match u, v with
  | x, x | y, y | z, z => true
  | _, _ => false
  end.

(** The expressions the generators build: numbers, symbols, the field
    operations and [legendre(n, e)].  The tree records the expression as
    the source writes it; sympy's own normal form is not modelled. *)
Inductive expr : Type :=
| Num (q : Q)
| Var (v : var)
| Neg (a : expr)
| Add (a b : expr)
| Sub (a b : expr)
| Mul (a b : expr)
| Div (a b : expr)
| Leg (n : Z) (a : expr).

Definition Int (n : Z) : expr := Num (inject_Z n).

Definition leg : Z → expr → expr := Leg.

(** Legendre polynomials by Bonnet's recursion; the pair is
    [(P_n t, P_{n+1} t)]. *)
Fixpoint legendre_pair (n : nat) (t : Q) : Q * Q :=
  match n with
  | O => (1%Q, t)
  | S k =>
      let '(a, b) := legendre_pair k t in
      (b, Qred ((inject_Z (2 * Z.of_nat k + 3) * t * b
                 - inject_Z (Z.of_nat k + 1) * a)
                / inject_Z (Z.of_nat k + 2))%Q)
  end.

(** sympy maps a negative order [-n] to order [n - 1]. *)
Definition legendre_value (n : Z) (t : Q) : Q :=
  fst (legendre_pair (Z.to_nat (if n <? 0 then - n - 1 else n)) t).

(** The value of an expression when every symbol has a value. *)
Fixpoint eval (env : var → Q) (e : expr) : Q :=
  match e with
  | Num q => q
  | Var v => env v
  | Neg a => Qred (- eval env a)%Q
  | Add a b => Qred (eval env a + eval env b)%Q
  | Sub a b => Qred (eval env a - eval env b)%Q
  | Mul a b => Qred (eval env a * eval env b)%Q
  | Div a b => Qred (eval env a / eval env b)%Q
  | Leg n a => legendre_value n (eval env a)
  end.

(** The symbols an expression mentions. *)
Fixpoint mentions (v : var) (e : expr) : bool :=
  match e with
  | Num _ => false
  | Var u => var_eqb u v
  | Neg a | Leg _ a => mentions v a
  | Add a b | Sub a b | Mul a b | Div a b => mentions v a || mentions v b
  end.

End Sym.
Import Sym.

Declare Scope expr_scope.
Delimit Scope expr_scope with E.
Bind Scope expr_scope with expr.
Notation "- a" := (Neg a) : expr_scope.
Notation "a + b" := (Add a b) : expr_scope.
Notation "a - b" := (Sub a b) : expr_scope.
Notation "a * b" := (Mul a b) : expr_scope.
Notation "a / b" := (Div a b) : expr_scope.

(** A basis term is a tuple of component expressions (2 or 3 of them). *)
Abbreviation term := (list expr).

(** A pair of blending factors, [d[0]] and [d[1]]. *)
Abbreviation blend := (expr * expr)%type.
Definition at0 (d : blend) : expr := fst d.
Definition at1 (d : blend) : expr := snd d.
(** [d[k]] for a loop index [k] that runs over [range(0, 2)]. *)
Definition at_k (d : blend) (k : Z) : expr := if k =? 0 then at0 d else at1 d.

(** ** Counting helpers *)

(** [int((n+1)*n/2)].  The source divides in floating point and truncates;
    [(n+1)*n] is even, so the quotient is exact as long as it is below
    2^53, which holds for every degree whose DOF lists fit in memory. *)
Definition triangular_number (n : Z) : Z := Z.quot ((n + 1) * n) 2.

(** [(degree+2)! / (2 * degree!)], with the same remark on the division. *)
Definition choose_ijk_total (degree : Z) : Z :=
  let top := foldl (λ top i, i * top) 1 (range 1 (2 + degree + 1)) in
  let bottom := foldl (λ bottom i, i * bottom) 1 (range 1 (degree + 1)) in
  Z.quot top (2 * bottom).

(** ** Basis term generators *)

Section generators_2d.
Variables (dx dy : blend) (x_mid y_mid : expr).

Definition e_lambda_1_2d_part_one (deg : Z) : list term :=
  ((λ j, [Int 0; - leg j y_mid * at0 dx]%E) <$> range 0 deg) ++
  ((λ j, [Int 0; - leg j y_mid * at1 dx]%E) <$> range 0 deg) ++
  ((λ j, [- leg j x_mid * at0 dy; Int 0]%E) <$> range 0 deg) ++
  ((λ j, [- leg j x_mid * at1 dy; Int 0]%E) <$> range 0 deg).

Definition e_lambda_tilde_1_2d_part_two (deg : Z) : list term :=
  [[- leg deg x_mid * at0 dy;
    - leg (deg - 1) x_mid * at0 dx * at1 dx / Int (deg + 1)]%E] ++
  [[- leg deg x_mid * at1 dy;
    leg (deg - 1) x_mid * at0 dx * at1 dx / Int (deg + 1)]%E] ++
  [[- leg (deg - 1) y_mid * at0 dy * at1 dy / Int (deg + 1);
    - leg deg y_mid * at0 dx]%E] ++
  [[leg (deg - 1) y_mid * at0 dy * at1 dy / Int (deg + 1);
    - leg deg y_mid * at1 dx]%E].

Definition e_lambda_1_2d (deg : Z) : list term :=
  let EL := e_lambda_1_2d_part_one deg in
  let ELTilde := e_lambda_tilde_1_2d_part_two deg in
  EL ++ ELTilde.

Definition determine_f_lambda_portions_2d (deg : Z) : list Z :=
  if deg <? 2 then [] else range 2 deg.

Definition f_lambda_1_2d_pieces (current_deg : Z) : list term :=
  if current_deg =? 2 then
    [[leg 0 x_mid * leg 0 y_mid * at0 dy * at1 dy; Int 0]%E] ++
    [[Int 0; leg 0 x_mid * leg 0 y_mid * at0 dx * at1 dx]%E]
  else
    let target_power := current_deg - 2 in
    range 0 (target_power + 1) ≫= λ j,
      let k := target_power - j in
      [[leg j x_mid * leg k y_mid * at0 dy * at1 dy; Int 0]%E] ++
      [[Int 0; leg j x_mid * leg k y_mid * at0 dx * at1 dx]%E].

Definition f_lambda_1_2d_trim (deg : Z) : list term :=
  determine_f_lambda_portions_2d deg ≫= f_lambda_1_2d_pieces.

Definition f_lambda_1_2d_tilde (deg : Z) : list term :=
  [[leg (deg - 2) y_mid * at0 dy * at1 dy; Int 0]%E] ++
  [[Int 0; leg (deg - 2) x_mid * at0 dx * at1 dx]%E] ++
  ((λ k, [leg k x_mid * leg (deg - k - 2) y_mid * at0 dy * at1 dy;
          - leg (k - 1) x_mid * leg (deg - k - 1) y_mid * at0 dx * at1 dx]%E)
     <$> range 1 (deg - 1)).

Definition trimmed_f_lambda_2d (deg : Z) : list term :=
  let FL := f_lambda_1_2d_trim deg in
  let FLT := f_lambda_1_2d_tilde deg in
  FL ++ FLT.

End generators_2d.

Section generators_3d.
Variables (dx dy dz : blend) (x_mid y_mid z_mid : expr).

Definition e_lambda_1_3d_piece (current_deg : Z) : list term :=
  [[Int 0; Int 0; leg current_deg z_mid * at0 dx * at1 dy]%E] ++
  [[Int 0; Int 0; leg current_deg z_mid * at1 dx * at1 dy]%E] ++
  [[Int 0; Int 0; leg current_deg z_mid * at1 dx * at0 dy]%E] ++
  [[Int 0; Int 0; leg current_deg z_mid * at0 dx * at0 dy]%E] ++
  [[Int 0; leg current_deg y_mid * at0 dx * at1 dz; Int 0]%E] ++
  [[Int 0; leg current_deg y_mid * at1 dx * at1 dz; Int 0]%E] ++
  [[Int 0; leg current_deg y_mid * at1 dx * at0 dz; Int 0]%E] ++
  [[Int 0; leg current_deg y_mid * at0 dx * at0 dz; Int 0]%E] ++
  [[leg current_deg x_mid * at0 dy * at0 dz; Int 0; Int 0]%E] ++
  [[leg current_deg x_mid * at1 dy * at0 dz; Int 0; Int 0]%E] ++
  [[leg current_deg x_mid * at1 dy * at1 dz; Int 0; Int 0]%E] ++
  [[leg current_deg x_mid * at0 dy * at1 dz; Int 0; Int 0]%E].

Definition e_lambda_1_3d_trimmed (max_deg : Z) : list term :=
  range 0 max_deg ≫= e_lambda_1_3d_piece.

Definition determine_f_lambda_1_portions_3d (deg : Z) : list Z :=
  if deg <? 2 then [] else range 2 deg.

(** The twelve terms of one [(j, k)] split; both branches of
    [f_lambda_1_3d_pieces] spell out this block. *)
Definition f_lambda_1_3d_block (j k : Z) : list term :=
  [[leg j x_mid * leg k y_mid * at0 dz * at0 dy * at1 dy; Int 0; Int 0]%E] ++
  [[leg j x_mid * leg k y_mid * at1 dz * at0 dy * at1 dy; Int 0; Int 0]%E] ++
  [[leg j x_mid * leg k z_mid * at0 dy * at0 dz * at1 dz; Int 0; Int 0]%E] ++
  [[leg j x_mid * leg k z_mid * at1 dy * at0 dz * at1 dz; Int 0; Int 0]%E] ++
  [[Int 0; leg j y_mid * leg k x_mid * at0 dz * at0 dx * at1 dx; Int 0]%E] ++
  [[Int 0; leg j y_mid * leg k x_mid * at1 dz * at0 dx * at1 dx; Int 0]%E] ++
  [[Int 0; leg j y_mid * leg k z_mid * at0 dx * at0 dz * at1 dz; Int 0]%E] ++
  [[Int 0; leg j y_mid * leg k z_mid * at1 dx * at0 dz * at1 dz; Int 0]%E] ++
  [[Int 0; Int 0; leg j z_mid * leg k y_mid * at0 dy * at0 dx * at1 dx]%E] ++
  [[Int 0; Int 0; leg j z_mid * leg k y_mid * at1 dy * at0 dx * at1 dx]%E] ++
  [[Int 0; Int 0; leg j z_mid * leg k x_mid * at0 dx * at0 dy * at1 dy]%E] ++
  [[Int 0; Int 0; leg j z_mid * leg k x_mid * at1 dx * at0 dy * at1 dy]%E].

Definition f_lambda_1_3d_pieces (current_deg : Z) : list term :=
  if current_deg =? 2 then
    let j := 0 in
    let k := 0 in
    f_lambda_1_3d_block j k
  else
    let target_power := current_deg - 2 in
    range 0 (target_power + 1) ≫= λ j,
      let k := target_power - j in
      f_lambda_1_3d_block j k.

Definition f_lambda_1_3d_tilde (max_deg : Z) : list term :=
  [[leg (max_deg - 2) y_mid * at0 dz * at0 dy * at1 dy; Int 0; Int 0]%E] ++
  [[leg (max_deg - 2) y_mid * at1 dz * at0 dy * at1 dy; Int 0; Int 0]%E] ++
  [[leg (max_deg - 2) z_mid * at0 dy * at0 dz * at1 dz; Int 0; Int 0]%E] ++
  [[leg (max_deg - 2) z_mid * at1 dy * at0 dz * at1 dz; Int 0; Int 0]%E] ++
  [[Int 0; leg (max_deg - 2) x_mid * at0 dz * at0 dx * at1 dx; Int 0]%E] ++
  [[Int 0; leg (max_deg - 2) x_mid * at1 dz * at0 dx * at1 dx; Int 0]%E] ++
  [[Int 0; leg (max_deg - 2) z_mid * at0 dx * at0 dz * at1 dz; Int 0]%E] ++
  [[Int 0; leg (max_deg - 2) z_mid * at1 dx * at0 dz * at1 dz; Int 0]%E] ++
  [[Int 0; Int 0; leg (max_deg - 2) x_mid * at0 dy * at0 dx * at1 dx]%E] ++
  [[Int 0; Int 0; leg (max_deg - 2) x_mid * at1 dy * at0 dx * at1 dx]%E] ++
  [[Int 0; Int 0; leg (max_deg - 2) y_mid * at0 dx * at0 dy * at1 dy]%E] ++
  [[Int 0; Int 0; leg (max_deg - 2) y_mid * at1 dx * at0 dy * at1 dy]%E] ++
  (range 1 (max_deg - 1) ≫= λ j,
     range 0 2 ≫= λ k,
       [[leg j x_mid * leg (max_deg - j - 2) y_mid
           * at_k dz k * at0 dy * at1 dy;
         - leg (j - 1) x_mid * leg (max_deg - j - 1) y_mid
           * at_k dz k * at0 dx * at1 dx;
         Int 0]%E] ++
       [[leg j x_mid * leg (max_deg - j - 2) z_mid
           * at_k dy k * at0 dz * at1 dz;
         Int 0;
         - leg (j - 1) x_mid * leg (max_deg - j - 1) z_mid
           * at_k dy k * at0 dx * at1 dx]%E] ++
       [[Int 0;
         leg j y_mid * leg (max_deg - j - 2) z_mid
           * at_k dx k * at0 dz * at1 dz;
         - leg (j - 1) y_mid * leg (max_deg - j - 1) z_mid
           * at_k dx k * at0 dy * at1 dy]%E]).

Definition f_lambda_1_3d_trim (deg : Z) : list term :=
  determine_f_lambda_1_portions_3d deg ≫= f_lambda_1_3d_pieces.

Definition trimmed_f_lambda_3d (deg : Z) : list term :=
  let FL := f_lambda_1_3d_trim deg in
  let FLT := f_lambda_1_3d_tilde deg in
  FL ++ FLT.

Definition determine_I_lambda_1_portions_3d (deg : Z) : list (Z * Z * Z) :=
  if deg <? 4 then []
  else
    let Degs :=
      range 0 (deg - 3) ≫= λ x,
        range 0 (deg - 3 - x) ≫= λ y,
          range 0 (deg - 3 - x - y) ≫= λ z, [(x, y, z)] in
    filter (λ degs, degs.1.1 + degs.1.2 + degs.2 = deg - 4) Degs.

Definition I_lambda_1_3d (deg : Z) : list term :=
  determine_I_lambda_1_portions_3d deg ≫= λ Degs,
    [[leg Degs.1.1 x_mid * leg Degs.1.2 y_mid * leg Degs.2 z_mid
        * at0 dy * at1 dy * at0 dz * at1 dz; Int 0; Int 0]%E] ++
    [[Int 0;
      leg Degs.1.1 x_mid * leg Degs.1.2 y_mid * leg Degs.2 z_mid
        * at0 dx * at1 dx * at0 dz * at1 dz; Int 0]%E] ++
    [[Int 0; Int 0;
      leg Degs.1.1 x_mid * leg Degs.1.2 y_mid * leg Degs.2 z_mid
        * at0 dy * at1 dy * at0 dy * at1 dy]%E].

Definition I_lambda_1_tilde_3d (deg : Z) : list term :=
  [[leg (deg - 4) y_mid * at0 dy * at1 dy * at0 dz * at1 dz;
    Int 0; Int 0]%E] ++
  [[leg (deg - 4) z_mid * at0 dy * at1 dy * at0 dz * at1 dz;
    Int 0; Int 0]%E] ++
  [[Int 0; leg (deg - 4) x_mid * at0 dx * at1 dx * at0 dz * at1 dz;
    Int 0]%E] ++
  [[Int 0; leg (deg - 4) z_mid * at0 dx * at1 dx * at0 dz * at1 dz;
    Int 0]%E] ++
  [[Int 0; Int 0;
    leg (deg - 4) x_mid * at0 dx * at1 dx * at0 dy * at1 dy]%E] ++
  [[Int 0; Int 0;
    leg (deg - 4) y_mid * at0 dx * at1 dx * at0 dy * at1 dy]%E] ++
  (range 1 (deg - 3) ≫= λ j,
     [[leg j x_mid * leg (deg - j - 4) y_mid
         * at0 dy * at1 dy * at0 dz * at1 dz;
       - leg (j - 1) x_mid * leg (deg - j - 3) y_mid
         * at0 dx * at1 dx * at0 dz * at1 dz;
       Int 0]%E] ++
     [[leg j x_mid * leg (deg - j - 4) z_mid
         * at0 dy * at1 dy * at0 dz * at1 dz;
       Int 0;
       - leg (j - 1) x_mid * leg (deg - j - 3) z_mid
         * at0 dx * at1 dx * at0 dy * at1 dy]%E] ++
     (if 5 <? deg then
        [[Int 0;
          leg j y_mid * leg (deg - j - 4) z_mid
            * at0 dx * at1 dx * at0 dz * at1 dz;
          - leg (j - 1) y_mid * leg (deg - j - 3) z_mid
            * at0 dx * at1 dx * at0 dy * at1 dy]%E]
      else [])).

End generators_3d.

(** ** Reference cells and the DOF allocator *)

(** A dictionary from topological dimension to a dictionary from entity id
    to a list of integers (incident vertices, or DOF indices). *)
Abbreviation entity_map := (gmap Z (gmap Z (list Z))).

(** What this file reads from a flattened reference cell. *)
Record FlatCell : Type := {
  get_spatial_dimension : Z;
  get_vertices : list (list Q);
  get_topology : gmap Z (gmap Z (list Z)) }.

(** [ids[d][e] = v]: the inner dictionary must exist. *)
Definition setitem2 `{Countable K} (ids : gmap K (gmap Z (list Z)))
    (d : K) (e : Z) (v : list Z) : result (gmap K (gmap Z (list Z))) :=
  inner ← getitem ids d;
  mret (<[d := <[e := v]> inner]> ids).

(** One iteration of the loops that hand [n] consecutive indices to entity
    [j] of dimension [top_dim] and advance [cur]. *)
Definition assign_block (top_dim n j : Z) (st : entity_map * Z)
  : result (entity_map * Z) :=
  let '(entity_ids, cur) := st in
  entity_ids ← setitem2 entity_ids top_dim j (range cur (cur + n));
  mret (entity_ids, cur + n).

(** Lines 56-103 of [TrimmedSerendipity.__init__]. *)
Definition allocate_entity_ids (degree dim : Z) (flat_topology : entity_map)
  : result entity_map :=
  let entity_ids : entity_map :=
    (λ entities : gmap Z (list Z), (λ _, []) <$> entities) <$> flat_topology in
  let cur := 0 in
  if dim =? 2 then
    edges ← getitem flat_topology 1;
    '(entity_ids, cur) ←
      for_each (assign_block 1 degree) (sorted_keys edges) (entity_ids, cur);
    entity_ids ←
      (if 2 <=? degree then
         setitem2 entity_ids 2 0
           (range cur (cur + 2 * triangular_number (degree - 2) + degree))
       else mret entity_ids);
    let cur := cur + 2 * triangular_number (degree - 2) + degree in
    mret entity_ids
  else
    let entity_ids : entity_map := <[3 := ∅]> entity_ids in
    edges ← getitem flat_topology 1;
    '(entity_ids, cur) ←
      for_each (assign_block 1 degree) (sorted_keys edges) (entity_ids, cur);
    '(entity_ids, cur) ←
      (if 2 <=? degree then
         if degree <? 4 then
           faces ← getitem flat_topology 2;
           for_each
             (assign_block 2 (2 * triangular_number (degree - 2) + degree))
             (sorted_keys faces) (entity_ids, cur)
         else
           faces ← getitem flat_topology 2;
           for_each (assign_block 2 (3 * degree - 4))
             (sorted_keys faces) (entity_ids, cur)
       else mret (entity_ids, cur));
    if 4 <=? degree then
      if degree =? 4 then
        setitem2 entity_ids 3 0 (range cur (cur + 6))
      else if degree =? 5 then
        setitem2 entity_ids 3 0 (range cur (cur + 11))
      else
        let interior_ids :=
          foldl (λ interior_ids i, interior_ids + 3 * choose_ijk_total i)
            0 (range 0 (degree - 4)) in
        setitem2 entity_ids 3 0
          (range cur (cur + 6 + (degree - 4) * 3 + interior_ids))
    else
      setitem2 entity_ids 3 0 (range cur cur).

(** ** Blending factors and midpoint substitutes *)

(** The pair [((hi - v)/(hi - lo), (v - lo)/(hi - lo))] and the expression
    [2*v - (hi + lo)], where [hi] and [lo] are the coordinates of the last
    and of the first vertex along one axis. *)
Definition blend_of (lo hi : Q) (v : var) : blend :=
  ((Num hi - Var v) / Num (hi - lo)%Q, (Var v - Num lo) / Num (hi - lo)%Q)%E.

Definition mid_of (lo hi : Q) (v : var) : expr :=
  (Int 2 * Var v - Num (hi + lo)%Q)%E.

(** [((verts[-1][a] - v)/(verts[-1][a] - verts[0][a]),
      (v - verts[0][a])/(verts[-1][a] - verts[0][a]))]. *)
Definition blending (verts : list (list Q)) (a : nat) (v : var)
  : result blend :=
  hi_vert ← index_last verts;
  hi ← index hi_vert a;
  lo_vert ← index verts 0;
  lo ← index lo_vert a;
  mret (blend_of lo hi v).

(** [2*v - (verts[-1][a] + verts[0][a])]. *)
Definition midpoint (verts : list (list Q)) (a : nat) (v : var)
  : result expr :=
  hi_vert ← index_last verts;
  hi ← index hi_vert a;
  lo_vert ← index verts 0;
  lo ← index lo_vert a;
  mret (mid_of lo hi v).

(** [try: ... except IndexError: dz = None; z_mid = None]. *)
Definition try_z (verts : list (list Q)) : result (option (blend * expr)) :=
  match (dz ← blending verts 2 z; z_mid ← midpoint verts 2 z;
         mret (dz, z_mid)) with
  | inr p => mret (Some p)
  | inl IndexError => mret None
  | inl e => raise e
  end.

(** A 3D generator subscripts [dz]; on [None] that is a [TypeError]. *)
Definition with_dz {A} (dz_z_mid : option (blend * expr))
    (gen : blend → expr → A) : result A :=
  match dz_z_mid with
  | Some (dz, z_mid) => mret (gen dz z_mid)
  | None => raise TypeError
  end.

(** Reading a local variable that no executed branch has assigned. *)
Definition load_local {A} (name : string) (v : option A) : result A :=
  match v with
  | Some a => mret a
  | None => raise (UnboundLocalError name)
  end.

(** [len(Array(rows))] is the number of scalar entries. *)
Definition len_Array (a : list term) : Z := Z.of_nat (length (concat a)).

(** ** The element classes *)

Section element.
(** Collaborators from the rest of FIAT: the original reference cell, the
    keys of its topology, flattening, closure bookkeeping and the
    unflattening table. *)
Context {RefEl : Type} {odim : Type} `{Countable odim}.
Variable flatten_reference_cube : RefEl → FlatCell.
Variable make_entity_closure_ids : FlatCell → entity_map → entity_map.
Variable ref_get_topology : RefEl → gmap odim (gmap Z (list Z)).
Variable compute_unflattening_map :
  gmap odim (gmap Z (list Z)) → gmap (Z * Z) (odim * Z).

Record Element : Type := {
  ref_el : RefEl;
  dual : option unit;
  order : Z;
  formdegree : Z;
  mapping : string;
  entity_ids : gmap odim (gmap Z (list Z));
  entity_closure_ids : gmap odim (gmap Z (list Z));
  _degree : Z;
  flat_el : FlatCell;
  basis : gmap (Z * Z) (list term) }.

(** The body of the remapping loop (lines 125-127). *)
Definition unflatten_step (unflattening_map : gmap (Z * Z) (odim * Z))
    (entity_ids entity_closure_ids : entity_map) (dim entity : Z)
    (st : gmap odim (gmap Z (list Z)) * gmap odim (gmap Z (list Z)))
  : result (gmap odim (gmap Z (list Z)) * gmap odim (gmap Z (list Z))) :=
  let '(unflattened_entity_ids, unflattened_entity_closure_ids) := st in
  '(unflat_dim, unflat_entity) ← getitem unflattening_map (dim, entity);
  ids_dim ← getitem entity_ids dim;
  ids ← getitem ids_dim entity;
  unflattened_entity_ids ←
    setitem2 unflattened_entity_ids unflat_dim unflat_entity ids;
  closure_dim ← getitem entity_closure_ids dim;
  closure ← getitem closure_dim entity;
  unflattened_entity_closure_ids ←
    setitem2 unflattened_entity_closure_ids unflat_dim unflat_entity closure;
  mret (unflattened_entity_ids, unflattened_entity_closure_ids).

(** [TrimmedSerendipity.__init__]; [self_basis] is the attribute
    [self.basis] that the subclass has set before calling it.  Dictionary
    iteration is in ascending key order. *)
Definition TrimmedSerendipity_init (self_basis : gmap (Z * Z) (list term))
    (ref_el : RefEl) (degree : Z) (mapping : string) : result Element :=
  if degree <? 1 then
    raise (Exception "Trimmed serendipity elements only valid for k >= 1")
  else
  let flat_el := flatten_reference_cube ref_el in
  let dim := get_spatial_dimension flat_el in
  if negb (dim =? 2) && negb (dim =? 3) then
    raise (Exception
             "Trimmed serendipity elements only valid for dimensions 2 and 3")
  else
  let flat_topology := get_topology flat_el in
  entity_ids ← allocate_entity_ids degree dim flat_topology;
  let formdegree := 1 in
  let entity_closure_ids := make_entity_closure_ids flat_el entity_ids in
  let topology := ref_get_topology ref_el in
  let unflattening_map := compute_unflattening_map topology in
  let unflattened_entity_ids : gmap odim (gmap Z (list Z)) :=
    (λ _, ∅) <$> topology in
  let unflattened_entity_closure_ids : gmap odim (gmap Z (list Z)) :=
    (λ _, ∅) <$> topology in
  '(unflattened_entity_ids, unflattened_entity_closure_ids) ←
    for_each
      (λ dim st,
         entities ← getitem flat_topology dim;
         for_each
           (unflatten_step unflattening_map entity_ids entity_closure_ids dim)
           (sorted_keys entities) st)
      (sorted_keys flat_topology)
      (unflattened_entity_ids, unflattened_entity_closure_ids);
  mret {| ref_el := ref_el;
          dual := None;
          order := degree;
          formdegree := formdegree;
          mapping := mapping;
          entity_ids := unflattened_entity_ids;
          entity_closure_ids := unflattened_entity_closure_ids;
          _degree := degree;
          flat_el := flat_el;
          basis := self_basis |}.

(** Lines 463-497 and 515-545: the raw term list and the local [IL], which
    is bound only on the 3D path. *)
Definition raw_terms (dim degree : Z) (verts : list (list Q))
  : result (list term * list term * option (list term)) :=
  dx ← blending verts 0 x;
  dy ← blending verts 1 y;
  x_mid ← midpoint verts 0 x;
  y_mid ← midpoint verts 1 y;
  dz_z_mid ← try_z verts;
  EL ← (if dim =? 2 then
          mret (e_lambda_1_2d_part_one dx dy x_mid y_mid degree)
        else
          with_dz dz_z_mid (λ dz z_mid,
            e_lambda_1_3d_trimmed dx dy dz x_mid y_mid z_mid degree));
  FL ← (if 2 <=? degree then
          if dim =? 2 then
            mret (trimmed_f_lambda_2d dx dy x_mid y_mid degree)
          else
            with_dz dz_z_mid (λ dz z_mid,
              trimmed_f_lambda_3d dx dy dz x_mid y_mid z_mid degree)
        else mret []);
  IL ← (if dim =? 3 then
          if 4 <=? degree then
            il ← with_dz dz_z_mid (λ dz z_mid,
                   I_lambda_1_3d dx dy dz x_mid y_mid z_mid degree
                   ++ I_lambda_1_tilde_3d dx dy dz x_mid y_mid z_mid degree);
            mret (Some il)
          else mret (Some [])
        else mret None);
  mret (EL, FL, IL).

Definition TrimmedSerendipityEdge_init (ref_el : RefEl) (degree : Z)
  : result Element :=
  if degree <? 1 then
    raise (Exception
             "Trimmed Serendipity_k edge elements only valid for k >= 1")
  else
  let flat_el := flatten_reference_cube ref_el in
  let dim := get_spatial_dimension flat_el in
  if negb (dim =? 2) && negb (dim =? 3) then
    raise (Exception
      "Trimmed Serendipity_k edge elements only valid for dimensions 2 and 3")
  else
  let verts := get_vertices flat_el in
  '(EL, FL, IL) ← raw_terms dim degree verts;
  let Sminus_list := EL ++ FL in
  Sminus_list ←
    (if dim =? 3 then IL ← load_local "IL" IL; mret (Sminus_list ++ IL)
     else mret Sminus_list);
  let self_basis : gmap (Z * Z) (list term) := {[ (0, 0) := Sminus_list ]} in
  TrimmedSerendipity_init self_basis ref_el degree "covariant piola".

Definition TrimmedSerendipityFace_init (ref_el : RefEl) (degree : Z)
  : result Element :=
  if degree <? 1 then
    raise (Exception
             "Trimmed serendipity face elements only valid for k >= 1")
  else
  let flat_el := flatten_reference_cube ref_el in
  let dim := get_spatial_dimension flat_el in
  if negb (dim =? 2) && negb (dim =? 3) then
    raise (Exception
      "Trimmed serendipity face elements only valid for dimensions 2 and 3")
  else
  let verts := get_vertices flat_el in
  '(EL, FL, IL) ← raw_terms dim degree verts;
  IL ← load_local "IL" IL;
  let bdmcf_list := EL ++ FL ++ IL in
  bdmcf_list ←
    mapM (λ a : term, a1 ← index a 1; a0 ← index a 0; mret [- a1; a0]%E)
      bdmcf_list;
  let self_basis : gmap (Z * Z) (list term) := {[ (0, 0) := bdmcf_list ]} in
  TrimmedSerendipity_init self_basis ref_el degree "contravariant piola".

(** Rebinding the attribute [self.basis]. *)
Definition set_basis (self : Element) (b : gmap (Z * Z) (list term))
  : Element :=
  {| ref_el := ref_el self; dual := dual self; order := order self;
     formdegree := formdegree self; mapping := mapping self;
     entity_ids := entity_ids self;
     entity_closure_ids := entity_closure_ids self;
     _degree := _degree self; flat_el := flat_el self;
     basis := b |}.

(** *** Methods *)

Definition degree (self : Element) : Z := _degree self.

Definition get_nodal_basis (self : Element) : result unit :=
  raise (NotImplementedError
    (Some "get_nodal_basis not implemented for trimmed serendipity"%string)).

Definition get_dual_set (self : Element) : result unit :=
  raise (NotImplementedError
    (Some "get_dual_set is not implemented for trimmed serendipity"%string)).

Definition get_coeffs (self : Element) : result unit :=
  raise (NotImplementedError
    (Some "get_coeffs not implemented for trimmed serendipity"%string)).

Definition entity_dofs (self : Element) := entity_ids self.

Definition entity_closure_dofs (self : Element) := entity_closure_ids self.

Definition value_shape (self : Element) : list Z := [2].

Definition dmats (self : Element) : result unit :=
  raise (NotImplementedError None).

Definition get_num_members {A} (self : Element) (arg : A) : result unit :=
  raise (NotImplementedError None).

(** [int(len(self.basis[(0, 0)])/2)]. *)
Definition space_dimension (self : Element) : result Z :=
  b ← getitem (basis self) (0, 0);
  mret (Z.quot (len_Array b) 2).

End element.

(** ** Notions used in the statements *)

(** Lengths as integers. *)
Definition zlen {A} (l : list A) : Z := Z.of_nat (length l).

(** Pascal's binomial coefficient, for the statement about the interior. *)
Fixpoint binomial (n k : nat) : nat :=
  match n, k with
  | _, O => 1
  | O, S _ => 0
  | S n', S k' => binomial n' k' + binomial n' k
  end.

(** Two terms take the same values, component by component, at a point. *)
Definition same_values (env : var → Q) (t u : term) : bool :=
  (length t =? length u)%nat
  && forallb (λ p, Qeq_bool (eval env p.1) (eval env p.2)) (zip t u).

(** A sample point. *)
Definition sample_point : var → Q :=
  λ v, match v with x => 1 # 4 | y => 1 # 3 | z => 1 # 2 end%Q.

(** The blending factors and midpoint substitutes of the unit cell. *)
Definition unit_dx : blend := blend_of 0 1 x.
Definition unit_dy : blend := blend_of 0 1 y.
Definition unit_dz : blend := blend_of 0 1 z.
Definition unit_x_mid : expr := mid_of 0 1 x.
Definition unit_y_mid : expr := mid_of 0 1 y.
Definition unit_z_mid : expr := mid_of 0 1 z.

(** As the specification words it: all non-negative integer triples
    [(a, b, c)] with [a + b + c = n], in lexicographic order. *)
Definition triples_of_total (n : Z) : list (Z * Z * Z) :=
  range 0 (n + 1) ≫= λ a,
    range 0 (n - a + 1) ≫= λ b, [(a, b, n - a - b)].

(** Every term of the list has [n] components. *)
Definition width (n : nat) (terms : list term) : Prop :=
  Forall (λ t : term, length t = n) terms.

(** The first and the last vertex have the coordinates [lo] and [hi]. *)
Definition corners (verts : list (list Q)) (lo hi : list Q) : Prop :=
  verts !! 0%nat = Some lo ∧ last verts = Some hi.

(** A configuration the constructors must reject. *)
Definition invalid_configuration (degree dim : Z) : Prop :=
  degree < 1 ∨ (dim ≠ 2 ∧ dim ≠ 3).

(** All DOF indices of one dimension, and of the whole map. *)
Definition inner_dofs (inner : gmap Z (list Z)) : list Z :=
  concat (map_to_list inner).*2.

Definition all_dofs (ids : entity_map) : list Z :=
  (map_to_list ids).*2 ≫= inner_dofs.

Definition dof_count (ids : entity_map) : Z := Z.of_nat (length (all_dofs ids)).

(** The DOF list of entity [e] of dimension [d] ([None] when unassigned). *)
Definition dofs_of (ids : entity_map) (d e : Z) : option (list Z) :=
  inner ← ids !! d; inner !! e.

(** [m] has an entry for every entity of the flattened topology. *)
Definition covers (flat_topology m : entity_map) : Prop :=
  map_Forall (λ d (entities : gmap Z (list Z)),
    map_Forall (λ e (_ : list Z), is_Some (dofs_of m d e)) entities)
    flat_topology.

(** The unflattening table sends every flat entity to an entity of a
    dimension that the original topology has. *)
Definition unflattening_ready `{Countable K}
    (topology : gmap K (gmap Z (list Z))) (flat_topology : entity_map)
    (unflattening_map : gmap (Z * Z) (K * Z)) : Prop :=
  map_Forall (λ d (entities : gmap Z (list Z)),
    map_Forall (λ e (_ : list Z),
      is_Some (p ← unflattening_map !! (d, e); topology !! p.1)) entities)
    flat_topology.

(** Every entry of [ids] is still present in [ids']. *)
Definition extends (ids ids' : entity_map) : Prop :=
  ∀ d e, is_Some (dofs_of ids d e) → is_Some (dofs_of ids' d e).

(** The sum of [f i] over the indices of a list. *)
Definition zsum (f : Z → Z) (l : list Z) : Z := foldr (λ i acc, f i + acc) 0 l.

(** The interior DOF count as the specification gives it. *)
Definition interior_dof_count (degree : Z) : Z :=
  if degree <? 4 then 0
  else if degree =? 4 then 6
  else if degree =? 5 then 11
  else 6 + 3 * (degree - 4)
       + zsum (λ i, 3 * Z.of_nat (binomial (Z.to_nat i + 2) 2))
           (range 0 (degree - 5 + 1)).

(** The number of DOFs per face that the 3D branch hands out. *)
Definition face_block (degree : Z) : Z :=
  if 2 <=? degree then
    if degree <? 4 then 2 * triangular_number (degree - 2) + degree
    else 3 * degree - 4
  else 0.

(** The interior block as the code computes it. *)
Definition interior_block (degree : Z) : Z :=
  if 4 <=? degree then
    if degree =? 4 then 6
    else if degree =? 5 then 11
    else 6 + (degree - 4) * 3
         + foldl (λ interior_ids i, interior_ids + 3 * choose_ijk_total i)
             0 (range 0 (degree - 4))
  else 0.

(** ** The standard flattened cells *)

(** Modelled from the spec: the flattened quadrilateral, which Sminus.py
    obtains from FIAT's reference-cell module.  Section 4.1 fixes its shape
    (4 edges, one face); the vertex numbering and incidence lists follow the
    tensor-product construction on the given corner box. *)
Definition quad_topology : entity_map :=
  {[ 0 := {[ 0 := [0]; 1 := [1]; 2 := [2]; 3 := [3] ]};
     1 := {[ 0 := [0; 1]; 1 := [2; 3]; 2 := [0; 2]; 3 := [1; 3] ]};
     2 := {[ 0 := [0; 1; 2; 3] ]} ]}.

Definition quadrilateral (lo hi : Q) : FlatCell :=
  {| get_spatial_dimension := 2;
     get_vertices := [[lo; lo]; [lo; hi]; [hi; lo]; [hi; hi]];
     get_topology := quad_topology |}.

(** Modelled from the spec: the flattened hexahedron (12 edges, 6 faces, one
    interior, section 4.1), likewise from FIAT's reference-cell module. *)
Definition hex_topology : entity_map :=
  {[ 0 := {[ 0 := [0]; 1 := [1]; 2 := [2]; 3 := [3];
             4 := [4]; 5 := [5]; 6 := [6]; 7 := [7] ]};
     1 := {[ 0 := [0; 1]; 1 := [2; 3]; 2 := [4; 5]; 3 := [6; 7];
             4 := [0; 2]; 5 := [1; 3]; 6 := [4; 6]; 7 := [5; 7];
             8 := [0; 4]; 9 := [1; 5]; 10 := [2; 6]; 11 := [3; 7] ]};
     2 := {[ 0 := [0; 1; 2; 3]; 1 := [4; 5; 6; 7]; 2 := [0; 1; 4; 5];
             3 := [2; 3; 6; 7]; 4 := [0; 2; 4; 6]; 5 := [1; 3; 5; 7] ]};
     3 := {[ 0 := [0; 1; 2; 3; 4; 5; 6; 7] ]} ]}.

Definition hexahedron (lo hi : Q) : FlatCell :=
  {| get_spatial_dimension := 3;
     get_vertices := [[lo; lo; lo]; [lo; lo; hi]; [lo; hi; lo]; [lo; hi; hi];
                      [hi; lo; lo]; [hi; lo; hi]; [hi; hi; lo]; [hi; hi; hi]];
     get_topology := hex_topology |}.

(** A cell of dimension 1, for the rejected configurations: its vertices
    have a single coordinate. *)
Definition interval (lo hi : Q) : FlatCell :=
  {| get_spatial_dimension := 1;
     get_vertices := [[lo]; [hi]];
     get_topology := {[ 0 := {[ 0 := [0]; 1 := [1] ]};
                        1 := {[ 0 := [0; 1] ]} ]} |}.

(** Modelled from the spec: the closure helper of the finite-element base
    (section 3, Entity-Closure-DOF Map): the DOFs of an entity and of every
    entity whose vertices all belong to it. *)
Definition flat_entity_closure_ids (cell : FlatCell) (ids : entity_map)
  : entity_map :=
  (λ entities : gmap Z (list Z),
     (λ verts : list Z,
        map_to_list (get_topology cell) ≫= λ '(d, subs),
          map_to_list subs ≫= λ '(e, sub_verts),
            if forallb (λ v, bool_decide (v ∈ verts)) sub_verts
            then default [] (dofs_of ids d e) else [])
     <$> entities)
  <$> get_topology cell.

(** Modelled from the spec: the unflattening table (section 4.5) of a cell
    that is already flat sends every (dimension, entity) to itself. *)
Definition flat_unflattening_map (topology : entity_map)
  : gmap (Z * Z) (Z * Z) :=
  list_to_map
    (map_to_list topology ≫= λ '(d, entities),
       (λ e, ((d, e), (d, e))) <$> (map_to_list entities).*1).

(** The two element kinds over cells that are already flat. *)
Abbreviation FlatElement := (@Element FlatCell Z _ _).

Definition FlatEdge : FlatCell → Z → result FlatElement :=
  TrimmedSerendipityEdge_init id flat_entity_closure_ids get_topology
    flat_unflattening_map.

Definition FlatFace : FlatCell → Z → result FlatElement :=
  TrimmedSerendipityFace_init id flat_entity_closure_ids get_topology
    flat_unflattening_map.

(** ** Tabulation *)

(** The array [T]: indexed by basis function, component and point. *)
Abbreviation tensor num := (list (list (list num))).

Section tabulate.
Context {RefEl odim edim : Type} `{Countable odim}.
(** Floating-point numbers and evaluated sympy objects. *)
Context {num sval : Type}.
(** [0.0]; scalar [sympy.diff]; [f.evalf(subs=subs)]; the conversion to a
    float that storing into a numeric array performs ([TypeError] when the
    object is not a number). *)
Variable zero : num.
Variable diff : expr → list (var * Z) → expr.
Variable evalf : expr → list (var * num) → sval.
Variable to_float : sval → result num.
(** [FIAT.polynomial_set.mis] at [m = 2], and the cell geometry queries. *)
Variable mis : Z → Z → list (Z * Z).
Variable get_dimension : RefEl → edim.
Variable get_entity_transform : RefEl → edim → Z → list num → list num.

(** [diff] of an array differentiates every entry. *)
Definition diff_Array (a : list term) (spec : list (var * Z)) : list term :=
  (λ row : term, (λ f, diff f spec) <$> row) <$> a.

(** [polynomials[:, k]]. *)
Definition column (k : nat) (polynomials : list term) : result (list expr) :=
  mapM (λ row : term, index row k) polynomials.

(** [np.zeros((n, 2, m))]. *)
Definition zeros (n m : nat) : tensor num :=
  replicate n (replicate 2 (replicate m zero)).

(** [T[j, c, i] = v]. *)
Definition setitem3 (T : tensor num) (j c i : nat) (v : num) : tensor num :=
  alter (alter (<[i := v]>) c) j T.

(** [{v: point[k] for k, v in enumerate(variables[:2])}]. *)
Definition make_subs (point : list num) : result (list (var * num)) :=
  mapM (λ '(k, v), c ← index point k; mret (v, c))
    (enumerate (take 2 variables)).

(** Lines 160-163: the cached derivative, computed and stored on a miss. *)
Definition cached_derivative (alpha : Z * Z)
  : stateful (gmap (Z * Z) (list term)) (list term) :=
  λ basis,
    match getitem basis alpha with
    | inr polynomials => (inr polynomials, basis)
    | inl KeyError =>
        match getitem basis (0, 0) with
        | inr b =>
            let polynomials :=
              diff_Array b (zip variables [alpha.1; alpha.2]) in
            (inr polynomials, <[alpha := polynomials]> basis)
        | inl e => (inl e, basis)
        end
    | inl e => (inl e, basis)
    end.

(** Lines 164-170: the table of one multi-index. *)
Definition table (polynomials : list term) (points : list (list num))
  : result (tensor num) :=
  col0 ← column 0 polynomials;
  let T := zeros (length col0) (length points) in
  for_each
    (λ i T,
       point ← index points i;
       subs ← make_subs point;
       col0 ← column 0 polynomials;
       T ← for_each
             (λ '(j, f) T,
                v ← to_float (evalf f subs); mret (setitem3 T j 0 i v))
             (enumerate col0) T;
       col1 ← column 1 polynomials;
       for_each
         (λ '(j, f) T,
            v ← to_float (evalf f subs); mret (setitem3 T j 1 i v))
         (enumerate col1) T)
    (seq 0 (length points)) T.

Definition tabulate_alpha (points : list (list num)) (alpha : Z * Z)
    (phivals : gmap (Z * Z) (tensor num))
  : stateful (gmap (Z * Z) (list term)) (gmap (Z * Z) (tensor num)) :=
  polynomials ← cached_derivative alpha;
  T ← lift (table polynomials points);
  mret (<[alpha := T]> phivals).

(** The loops of [tabulate] over the attribute [self.basis]. *)
Definition tabulate_loops (order : Z) (points : list (list num))
  : stateful (gmap (Z * Z) (list term)) (gmap (Z * Z) (tensor num)) :=
  for_each
    (λ o phivals,
       let alphas := mis 2 o in
       for_each (tabulate_alpha points) alphas phivals)
    (range 0 (order + 1)) ∅.

(** Lines 147-152: the points in the frame of the requested entity. *)
Definition transformed_points (self : @Element RefEl odim _ _)
    (points : list (list num)) (entity : option (edim * Z))
  : list (list num) :=
  let entity := default (get_dimension (ref_el self), 0) entity in
  let '(entity_dim, entity_id) := entity in
  let transform := get_entity_transform (ref_el self) entity_dim entity_id in
  transform <$> points.

(** [tabulate]: the result (or exception) and the element afterwards. *)
Definition tabulate (self : @Element RefEl odim _ _) (order : Z)
    (points : list (list num)) (entity : option (edim * Z))
  : result (gmap (Z * Z) (tensor num)) * @Element RefEl odim _ _ :=
  let points := transformed_points self points entity in
  let '(phivals, basis') := tabulate_loops order points (basis self) in
  (phivals, set_basis self basis').

(** The loops of [tabulate] as one pass over the multi-indices in order. *)
Definition tabulate_pass (points : list (list num)) (alphas : list (Z * Z))
    (phivals : gmap (Z * Z) (tensor num))
  : stateful (gmap (Z * Z) (list term)) (gmap (Z * Z) (tensor num)) :=
  for_each (tabulate_alpha points) alphas phivals.

(** Every table already returned is the table of a cached derivative. *)
Definition tables_from_cache (points : list (list num))
    (phivals : gmap (Z * Z) (tensor num))
    (basis : gmap (Z * Z) (list term)) : Prop :=
  ∀ alpha T, phivals !! alpha = Some T →
    ∃ polynomials,
      basis !! alpha = Some polynomials
      ∧ table polynomials points = inr T.

(** *** Notions used in the statements about [tabulate] *)

(** The entry [T[j, c, i]], and the extents of the array. *)
Definition get3 (T : tensor num) (j c i : nat) : option num :=
  row ← T !! j; comp ← row !! c; comp !! i.

Definition shape_of (T : tensor num) : list (list nat) :=
  (λ row : list (list num), length <$> row) <$> T.

(** Components beyond the second are never read. *)
Definition two_columns (polynomials : list term) : list term :=
  take 2 <$> polynomials.

(** The statement about one point: both columns evaluated under the
    substitution of [x] and [y]. *)
Definition point_filled (polynomials : list term) (points : list (list num))
    (T : tensor num) (i : nat) : Prop :=
  ∃ p p0 p1,
    points !! i = Some p ∧ p !! 0%nat = Some p0 ∧ p !! 1%nat = Some p1
    ∧ ∀ j row, polynomials !! j = Some row →
        ∃ f0 f1 a0 a1,
          row !! 0%nat = Some f0 ∧ row !! 1%nat = Some f1
          ∧ to_float (evalf f0 [(x, p0); (y, p1)]) = inr a0
          ∧ to_float (evalf f1 [(x, p0); (y, p1)]) = inr a1
          ∧ get3 T j 0 i = Some a0 ∧ get3 T j 1 i = Some a1.

(** Two caches that agree on the first two components of every array. *)
Definition same_two_columns (basis basis' : gmap (Z * Z) (list term))
  : Prop :=
  (two_columns <$> basis : gmap (Z * Z) (list term)) = two_columns <$> basis'.

End tabulate.

(** ** A rational instance of the symbolic engine

    Used to run the model on concrete inputs: numbers are exact rationals,
    [evalf] substitutes and evaluates, and the float conversion accepts
    numbers only. *)

Module Engine.

Fixpoint subst (subs : list (var * Q)) (e : expr) : expr :=
  match e with
  | Num q => Num q
  | Var v =>
      match list_find (λ p, var_eqb p.1 v = true) subs with
      | Some (_, (_, q)) => Num q
      | None => Var v
      end
  | Neg a => Neg (subst subs a)
  | Add a b => Add (subst subs a) (subst subs b)
  | Sub a b => Sub (subst subs a) (subst subs b)
  | Mul a b => Mul (subst subs a) (subst subs b)
  | Div a b => Div (subst subs a) (subst subs b)
  | Leg n a => Leg n (subst subs a)
  end.

Definition closed (e : expr) : bool :=
  forallb (λ v, negb (mentions v e)) variables.

Definition evalf (f : expr) (subs : list (var * Q)) : expr :=
  let f' := subst subs f in
  if closed f' then Num (eval (λ _, 0%Q) f') else f'.

Definition to_float (e : expr) : result Q :=
  match e with
  | Num q => mret q
  | _ => raise TypeError
  end.

(** [P_n'(t)] as the sum of [(2k+1) P_k(t)] over [k = n-1, n-3, ...]. *)
Definition legendre_derivative (n : Z) (a : expr) : expr :=
  let n := if n <? 0 then - n - 1 else n in
  foldr (λ k acc, Int (2 * k + 1) * Leg k a + acc)%E (Int 0)
    ((λ i, n - 1 - 2 * i) <$> range 0 ((n + 1) / 2)).

Fixpoint D (v : var) (e : expr) : expr :=
  match e with
  | Num _ => Int 0
  | Var u => if var_eqb u v then Int 1 else Int 0
  | Neg a => - D v a
  | Add a b => D v a + D v b
  | Sub a b => D v a - D v b
  | Mul a b => D v a * b + a * D v b
  | Div a b => (D v a * b - a * D v b) / (b * b)
  | Leg n a => legendre_derivative n a * D v a
  end%E.

(** [diff(f, (v1, n1), (v2, n2), ...)]. *)
Definition diff (f : expr) (spec : list (var * Z)) : expr :=
  foldl (λ f '(v, n), Nat.iter (Z.to_nat n) (D v) f) f spec.

(** Modelled from the spec: [mis(2, o)], every multi-index of total order
    [o] over the two flattened variables (section 4.4). *)
Definition mis (m o : Z) : list (Z * Z) :=
  (λ i, (o - i, i)) <$> range 0 (o + 1).

(** Tabulation on a flat cell, entity coordinates taken as they are. *)
Definition tabulate :
  FlatElement → Z → list (list Q) → option (Z * Z)
  → result (gmap (Z * Z) (tensor Q)) * FlatElement :=
  tabulate (RefEl := FlatCell) (odim := Z) 0%Q diff evalf to_float mis
    get_spatial_dimension (λ _ _ _ p, p).

End Engine.


(** ** Further notions used in the statements *)

(** The lexicographic order on triples. *)
Definition lex_lt (p q : Z * Z * Z) : Prop :=
  p.1.1 < q.1.1
  ∨ (p.1.1 = q.1.1 ∧ (p.1.2 < q.1.2 ∨ (p.1.2 = q.1.2 ∧ p.2 < q.2))).

(** No component of any term mentions the symbol [v]. *)
Definition free_of (v : var) (terms : list term) : Prop :=
  Forall (λ t : term, Forall (λ f, mentions v f = false) t) terms.

(** [(d, e)] is an entity of the flattened topology. *)
Definition flat_entity (topo : entity_map) (p : Z * Z) : Prop :=
  is_Some (dofs_of topo p.1 p.2).

(** The two dictionaries of the remapping loop (lines 120-127) once the flat
    entities in [P] have been visited: they have the dimensions of the
    original topology, hold the lists of the visited entities under their
    unflattened keys, and hold nothing else. *)
Definition remapped `{Countable K} (topology : gmap K (gmap Z (list Z)))
    (unflattening_map : gmap (Z * Z) (K * Z)) (ids closure : entity_map)
    (P : Z * Z → Prop)
    (st : gmap K (gmap Z (list Z)) * gmap K (gmap Z (list Z))) : Prop :=
  (∀ ud, (is_Some (st.1 !! ud) ↔ is_Some (topology !! ud))
         ∧ (is_Some (st.2 !! ud) ↔ is_Some (topology !! ud)))
  ∧ (∀ p ud ue, P p → unflattening_map !! p = Some (ud, ue) →
       st.1 !! ud ≫= (.!! ue) = dofs_of ids p.1 p.2
       ∧ st.2 !! ud ≫= (.!! ue) = dofs_of closure p.1 p.2)
  ∧ (∀ ud ue, (∀ p, P p → unflattening_map !! p ≠ Some (ud, ue)) →
       st.1 !! ud ≫= (.!! ue) = None ∧ st.2 !! ud ≫= (.!! ue) = None).

Section cells_3d.
Context {RefEl odim : Type} `{Countable odim}.
Variable flatten_reference_cube : RefEl → FlatCell.
Variable make_entity_closure_ids : FlatCell → entity_map → entity_map.
Variable ref_get_topology : RefEl → gmap odim (gmap Z (list Z)).
Variable compute_unflattening_map :
  gmap odim (gmap Z (list Z)) → gmap (Z * Z) (odim * Z).

(** A cell on which a 3D construction goes through: flattened dimension 3,
    corner vertices [lo] and [hi] with three coordinates, edge and face
    dictionaries, no cell of dimension 3 other than number 0, and
    collaborators that are total on the cell's entities. *)
Definition cell_3d (ref_el : RefEl) (lo hi : list Q)
    (edges faces : gmap Z (list Z)) : Prop :=
  let flat_el := flatten_reference_cube ref_el in
  let topology := ref_get_topology ref_el in
  get_spatial_dimension flat_el = 3
  ∧ corners (get_vertices flat_el) lo hi
  ∧ length lo = 3%nat ∧ length hi = 3%nat
  ∧ get_topology flat_el !! 1 = Some edges
  ∧ get_topology flat_el !! 2 = Some faces
  ∧ (∀ cells e, get_topology flat_el !! 3 = Some cells →
                is_Some (cells !! e) → e = 0)
  ∧ (∀ ids, covers (get_topology flat_el) ids →
            covers (get_topology flat_el) (make_entity_closure_ids flat_el ids))
  ∧ unflattening_ready topology (get_topology flat_el)
      (compute_unflattening_map topology).

End cells_3d.

(** A malformed cell, for the error paths: it reports dimension 2 and its
    vertices have a single coordinate. *)
Definition short_vertex_cell : FlatCell :=
  {| get_spatial_dimension := 2;
     get_vertices := [[0%Q]; [1%Q]];
     get_topology := quad_topology |}.

Example triangular_number_3 : triangular_number 3 = 6.
Proof. reflexivity. Qed.

Example choose_ijk_total_2 : choose_ijk_total 2 = 6.
Proof. reflexivity. Qed.



(** * Properties *)

(** ** Basic facts about the runtime model *)

Lemma bind_inr {A B} (m : result A) (f : A → result B) (b : B) :
  m ≫= f = inr b → ∃ a, m = inr a ∧ f a = inr b.
Proof. destruct m as [e|a]; [discriminate | eauto]. Qed.

Lemma bind_inl {A B} (e : exn) (f : A → result B) : inl e ≫= f = inl e.
Proof. reflexivity. Qed.

Lemma bind_ret {A B} (a : A) (f : A → result B) : inr a ≫= f = f a.
Proof. reflexivity. Qed.

Lemma bind_mret {A B} (a : A) (f : A → result B) :
  (mret a : result A) ≫= f = f a.
Proof. reflexivity. Qed.

(** Evaluate the binds of the exception monad. *)
Ltac run_result :=
  cbv [mbind mret result_bind result_ret raise] in *; cbn beta iota in *.

Lemma isinstance_Exception_NotImplementedError (msg : string) :
  isinstance (Exception msg) cNotImplementedError = false.
Proof. reflexivity. Qed.

Lemma isinstance_NotImplementedError (msg : option string) :
  isinstance (NotImplementedError msg) cNotImplementedError = true
  ∧ isinstance (NotImplementedError msg) cException = true.
Proof. split; reflexivity. Qed.

(** ** Ranges, lengths and the counting helpers *)

Lemma zlen_nil {A} : zlen (@nil A) = 0.
Proof. reflexivity. Qed.

Lemma zlen_cons {A} (a : A) l : zlen (a :: l) = 1 + zlen l.
Proof. unfold zlen. cbn [length]. lia. Qed.

Lemma zlen_app {A} (l k : list A) : zlen (l ++ k) = zlen l + zlen k.
Proof. unfold zlen. rewrite length_app. lia. Qed.

Lemma zlen_fmap {A B} (f : A → B) l : zlen (f <$> l) = zlen l.
Proof. unfold zlen. by rewrite length_fmap. Qed.

Lemma zlen_nonneg {A} (l : list A) : 0 ≤ zlen l.
Proof. unfold zlen. lia. Qed.

Lemma range_nil a b : b ≤ a → range a b = [].
Proof. intros. apply seqZ_nil. lia. Qed.

Lemma range_cons a b : a < b → range a b = a :: range (a + 1) b.
Proof.
  intros. unfold range. rewrite seqZ_cons by lia.
  f_equal. f_equal; lia.
Qed.

Lemma range_snoc a b : a ≤ b → range a (b + 1) = range a b ++ [b].
Proof.
  intros. unfold range.
  replace (b + 1 - a) with ((b - a) + 1) by lia.
  rewrite seqZ_app by lia. f_equal.
  replace (a + (b - a)) with b by lia. reflexivity.
Qed.

Lemma range_app a b c : a ≤ b → b ≤ c → range a c = range a b ++ range b c.
Proof.
  intros. unfold range.
  replace (c - a) with ((b - a) + (c - b)) by lia.
  rewrite seqZ_app by lia. do 2 f_equal. lia.
Qed.

Lemma zlen_range a b : a ≤ b → zlen (range a b) = b - a.
Proof. intros. unfold zlen, range. rewrite length_seqZ. lia. Qed.

Lemma elem_of_range a b k : k ∈ range a b ↔ a ≤ k < b.
Proof. unfold range. rewrite elem_of_seqZ. lia. Qed.

(** A loop body that contributes [c] terms per iteration. *)
Lemma zlen_bind_const {A B} (f : A → list B) (c : Z) (l : list A) :
  (∀ a, a ∈ l → zlen (f a) = c) → zlen (l ≫= f) = c * zlen l.
Proof.
  induction l as [|a l IH]; intros Hf.
  - unfold zlen. cbn. lia.
  - rewrite bind_cons, zlen_app, zlen_cons, Hf by left.
    rewrite IH; [lia|]. intros; apply Hf; by right.
Qed.

Lemma triangular_number_double n : 0 ≤ n → 2 * triangular_number n = n * (n + 1).
Proof.
  intros Hn. unfold triangular_number.
  destruct (Z.Even_or_Odd n) as [[k ->] | [k ->]].
  - replace ((2 * k + 1) * (2 * k)) with ((k * (2 * k + 1)) * 2) by lia.
    rewrite Z.quot_mul by lia. lia.
  - replace ((2 * k + 1 + 1) * (2 * k + 1)) with (((k + 1) * (2 * k + 1)) * 2)
      by lia.
    rewrite Z.quot_mul by lia. lia.
Qed.

Lemma triangular_number_div n : 0 ≤ n → triangular_number n = n * (n + 1) / 2.
Proof.
  intros Hn. rewrite <-(triangular_number_double n Hn).
  by rewrite Z.mul_comm, Z.div_mul.
Qed.

Lemma triangular_number_succ n :
  0 ≤ n → triangular_number (n + 1) = triangular_number n + (n + 1).
Proof.
  intros Hn.
  pose proof (triangular_number_double n Hn).
  pose proof (triangular_number_double (n + 1) ltac:(lia)). lia.
Qed.

(** [triangular_number (-1)] is what the allocator computes at degree 1. *)
Lemma triangular_number_minus_one : triangular_number (-1) = 0.
Proof. reflexivity. Qed.

(** ** The 2D generators: how many terms, and how wide *)

Section generators_2d_facts.
Variables (dx dy : blend) (x_mid y_mid : expr).

Local Abbreviation part_one := (e_lambda_1_2d_part_one dx dy x_mid y_mid).
Local Abbreviation tilde_E := (e_lambda_tilde_1_2d_part_two dx dy x_mid y_mid).
Local Abbreviation pieces := (f_lambda_1_2d_pieces dx dy x_mid y_mid).
Local Abbreviation trim := (f_lambda_1_2d_trim dx dy x_mid y_mid).
Local Abbreviation tilde_F := (f_lambda_1_2d_tilde dx dy x_mid y_mid).
Local Abbreviation trimmed := (trimmed_f_lambda_2d dx dy x_mid y_mid).

Lemma zlen_e_lambda_1_2d_part_one deg : 0 ≤ deg → zlen (part_one deg) = 4 * deg.
Proof.
  intros. unfold e_lambda_1_2d_part_one.
  rewrite !zlen_app, !zlen_fmap, zlen_range by lia. lia.
Qed.

Lemma zlen_e_lambda_tilde_1_2d_part_two deg : zlen (tilde_E deg) = 4.
Proof. reflexivity. Qed.

Lemma zlen_f_lambda_1_2d_pieces i : 2 ≤ i → zlen (pieces i) = 2 * (i - 1).
Proof.
  intros Hi. unfold f_lambda_1_2d_pieces.
  destruct (i =? 2) eqn:E.
  - apply Z.eqb_eq in E as ->. reflexivity.
  - rewrite (zlen_bind_const _ 2) by reflexivity.
    rewrite zlen_range by lia. lia.
Qed.

Lemma zlen_f_lambda_1_2d_trim deg :
  2 ≤ deg → zlen (trim deg) = 2 * triangular_number (deg - 2).
Proof.
  revert deg. apply Z.right_induction.
  - solve_proper.
  - reflexivity.
  - intros deg Hdeg IH. unfold f_lambda_1_2d_trim, determine_f_lambda_portions_2d in *.
    replace (Z.succ deg <? 2) with false by (symmetry; apply Z.ltb_ge; lia).
    replace (deg <? 2) with false in IH by (symmetry; apply Z.ltb_ge; lia).
    replace (Z.succ deg) with (deg + 1) by lia.
    rewrite range_snoc, bind_app, zlen_app, IH by lia.
    cbn [mbind list_bind]. rewrite app_nil_r, zlen_f_lambda_1_2d_pieces by lia.
    replace (deg + 1 - 2) with ((deg - 2) + 1) by lia.
    rewrite triangular_number_succ by lia. lia.
Qed.

Lemma zlen_f_lambda_1_2d_tilde deg : 2 ≤ deg → zlen (tilde_F deg) = deg.
Proof.
  intros. unfold f_lambda_1_2d_tilde.
  rewrite !zlen_app, zlen_fmap, zlen_range by lia.
  rewrite !zlen_cons, zlen_nil. lia.
Qed.

Lemma zlen_trimmed_f_lambda_2d deg :
  2 ≤ deg → zlen (trimmed deg) = 2 * triangular_number (deg - 2) + deg.
Proof.
  intros. unfold trimmed_f_lambda_2d.
  by rewrite zlen_app, zlen_f_lambda_1_2d_trim, zlen_f_lambda_1_2d_tilde.
Qed.

Lemma width_app n a b : width n a → width n b → width n (a ++ b).
Proof. apply Forall_app_2. Qed.

Lemma width_fmap {A} n (f : A → term) l :
  (∀ a, length (f a) = n) → width n (f <$> l).
Proof. intros Hf. apply Forall_fmap, Forall_forall. intros; apply Hf. Qed.

Lemma width_bind {A} n (f : A → list term) l :
  (∀ a, width n (f a)) → width n (l ≫= f).
Proof.
  intros Hf. induction l as [|a l IH]; [constructor|].
  rewrite bind_cons. by apply width_app.
Qed.

Lemma width_e_lambda_1_2d_part_one deg : width 2 (part_one deg).
Proof.
  unfold e_lambda_1_2d_part_one.
  repeat apply width_app; by apply width_fmap.
Qed.

Lemma width_trimmed_f_lambda_2d deg : width 2 (trimmed deg).
Proof.
  unfold trimmed_f_lambda_2d, f_lambda_1_2d_trim, f_lambda_1_2d_tilde.
  repeat apply width_app.
  - apply width_bind. intros i. unfold f_lambda_1_2d_pieces.
    destruct (i =? 2); [by repeat constructor|].
    apply width_bind. intros j. by repeat constructor.
  - by repeat constructor.
  - by repeat constructor.
  - by apply width_fmap.
Qed.

Lemma len_Array_width n (a : list term) :
  width n a → len_Array a = Z.of_nat n * zlen a.
Proof.
  unfold len_Array, zlen. induction 1 as [|t a Ht _ IH]; [cbn; lia|].
  cbn [concat length]. rewrite length_app, Ht. lia.
Qed.

Lemma lookup_fmap_range {A} (f : Z → A) d j :
  0 ≤ j < d → (f <$> range 0 d) !! Z.to_nat j = Some (f j).
Proof.
  intros Hj. rewrite list_lookup_fmap. unfold range.
  rewrite lookup_seqZ_lt by lia. cbn. f_equal. f_equal. lia.
Qed.

Lemma length_fmap_range {A} (f : Z → A) d :
  0 ≤ d → length (f <$> range 0 d) = Z.to_nat d.
Proof. intros. unfold range. rewrite length_fmap, length_seqZ. f_equal. lia. Qed.

(** The four families of [e_lambda_1_2d_part_one], by position. *)
Lemma e_lambda_1_2d_part_one_families deg j :
  0 ≤ j < deg →
  part_one deg !! Z.to_nat j = Some [Int 0; - leg j y_mid * at0 dx]%E
  ∧ part_one deg !! Z.to_nat (deg + j) = Some [Int 0; - leg j y_mid * at1 dx]%E
  ∧ part_one deg !! Z.to_nat (2 * deg + j)
    = Some [- leg j x_mid * at0 dy; Int 0]%E
  ∧ part_one deg !! Z.to_nat (3 * deg + j)
    = Some [- leg j x_mid * at1 dy; Int 0]%E.
Proof.
  intros Hj. unfold e_lambda_1_2d_part_one.
  assert (Hd : 0 ≤ deg) by lia.
  repeat split.
  - rewrite lookup_app_l by (rewrite length_fmap_range by done; lia).
    by rewrite lookup_fmap_range.
  - rewrite lookup_app_r by (rewrite length_fmap_range by done; lia).
    rewrite length_fmap_range by done.
    replace (Z.to_nat (deg + j) - Z.to_nat deg)%nat with (Z.to_nat j) by lia.
    rewrite lookup_app_l by (rewrite length_fmap_range by done; lia).
    by rewrite lookup_fmap_range.
  - rewrite lookup_app_r by (rewrite length_fmap_range by done; lia).
    rewrite length_fmap_range by done.
    rewrite lookup_app_r by (rewrite length_fmap_range by done; lia).
    rewrite length_fmap_range by done.
    replace (Z.to_nat (2 * deg + j) - Z.to_nat deg - Z.to_nat deg)%nat
      with (Z.to_nat j) by lia.
    rewrite lookup_app_l by (rewrite length_fmap_range by done; lia).
    by rewrite lookup_fmap_range.
  - rewrite lookup_app_r by (rewrite length_fmap_range by done; lia).
    rewrite length_fmap_range by done.
    rewrite lookup_app_r by (rewrite length_fmap_range by done; lia).
    rewrite length_fmap_range by done.
    rewrite lookup_app_r by (rewrite length_fmap_range by done; lia).
    rewrite length_fmap_range by done.
    replace (Z.to_nat (3 * deg + j) - Z.to_nat deg - Z.to_nat deg
             - Z.to_nat deg)%nat with (Z.to_nat j) by lia.
    by rewrite lookup_fmap_range.
Qed.

(** No closing term of [e_lambda_tilde_1_2d_part_two] is among the terms
    that the 2D assembler concatenates. *)
Lemma tilde_terms_not_assembled deg t :
  t ∈ tilde_E deg →
  (t ∉ part_one deg ++ trimmed deg) ∧ (t ∉ part_one deg).
Proof.
  intros Ht.
  assert (Hshape : ∃ a b c, t = [a; Div b c] ∨ t = [Div b c; a]).
  { unfold e_lambda_tilde_1_2d_part_two in Ht. cbn in Ht.
    repeat (apply elem_of_cons in Ht as [->|Ht]); [..|by apply elem_of_nil in Ht];
      do 3 eexists; (by left) || (by right). }
  assert (Hone : t ∉ part_one deg).
  { intros Hin. unfold e_lambda_1_2d_part_one in Hin.
    destruct Hshape as (a & b & c & [-> | ->]);
      repeat (apply elem_of_app in Hin as [Hin|Hin]);
      apply list_elem_of_fmap in Hin as (j & Heq & _); discriminate. }
  split; [|done]. intros Hin. apply elem_of_app in Hin as [Hin|Hin]; [done|].
  unfold trimmed_f_lambda_2d, f_lambda_1_2d_trim, f_lambda_1_2d_tilde in Hin.
  destruct Hshape as (a & b & c & [-> | ->]).
  - repeat (apply elem_of_app in Hin as [Hin|Hin]).
    + apply list_elem_of_bind in Hin as (i & Hin & _).
      unfold f_lambda_1_2d_pieces in Hin. destruct (i =? 2).
      * cbn in Hin.
        repeat (apply elem_of_cons in Hin as [Heq|Hin]; [discriminate|]).
        by apply elem_of_nil in Hin.
      * apply list_elem_of_bind in Hin as (j & Hin & _). cbn in Hin.
        repeat (apply elem_of_cons in Hin as [Heq|Hin]; [discriminate|]).
        by apply elem_of_nil in Hin.
    + apply list_elem_of_singleton in Hin. discriminate.
    + apply list_elem_of_singleton in Hin. discriminate.
    + apply list_elem_of_fmap in Hin as (k & Heq & _). discriminate.
  - repeat (apply elem_of_app in Hin as [Hin|Hin]).
    + apply list_elem_of_bind in Hin as (i & Hin & _).
      unfold f_lambda_1_2d_pieces in Hin. destruct (i =? 2).
      * cbn in Hin.
        repeat (apply elem_of_cons in Hin as [Heq|Hin]; [discriminate|]).
        by apply elem_of_nil in Hin.
      * apply list_elem_of_bind in Hin as (j & Hin & _). cbn in Hin.
        repeat (apply elem_of_cons in Hin as [Heq|Hin]; [discriminate|]).
        by apply elem_of_nil in Hin.
    + apply list_elem_of_singleton in Hin. discriminate.
    + apply list_elem_of_singleton in Hin. discriminate.
    + apply list_elem_of_fmap in Hin as (k & Heq & _). discriminate.
Qed.

End generators_2d_facts.

(** ** The interior generator *)

Lemma filter_none {A} (P : A → Prop) `{∀ a, Decision (P a)} (l : list A) :
  Forall (λ a, ¬ P a) l → filter P l = [].
Proof.
  induction 1 as [|a l Ha _ IH]; [done|]. by rewrite filter_cons_False.
Qed.

Lemma filter_bind {A B} (P : B → Prop) `{∀ b, Decision (P b)}
    (f : A → list B) (l : list A) :
  filter P (l ≫= f) = l ≫= λ a, filter P (f a).
Proof.
  induction l as [|a l IH]; [done|].
  by rewrite !bind_cons, filter_app, IH.
Qed.

Lemma bind_ext_in {A B} (f g : A → list B) (l : list A) :
  (∀ a, a ∈ l → f a = g a) → l ≫= f = l ≫= g.
Proof.
  induction l as [|a l IH]; intros Hfg; [done|].
  rewrite !bind_cons, Hfg by left. f_equal. apply IH. intros; apply Hfg; by right.
Qed.

(** The innermost loop and the filter keep one [z] per [(x, y)]. *)
Lemma innermost_filter (n a b : Z) :
  0 ≤ n - a - b →
  filter (λ degs : Z * Z * Z, degs.1.1 + degs.1.2 + degs.2 = n)
    (range 0 (n + 1 - a - b) ≫= λ c, [(a, b, c)])
  = [(a, b, n - a - b)].
Proof.
  intros Hc.
  replace (n + 1 - a - b) with ((n - a - b) + 1) by lia.
  rewrite range_snoc, bind_app, filter_app by lia.
  rewrite filter_none.
  - cbn. destruct (decide (a + b + (n - a - b) = n)); [done|lia].
  - apply Forall_forall. intros [[a' b'] c'] Hin.
    apply list_elem_of_bind in Hin as (c & Hin & Hc').
    apply list_elem_of_singleton in Hin. injection Hin as -> -> ->.
    apply elem_of_range in Hc'. cbn. lia.
Qed.

(** The triple loop and filter of [determine_I_lambda_1_portions_3d]
    enumerate exactly the triples of total [deg - 4], in lexicographic
    order. *)
Lemma determine_I_lambda_1_portions_3d_triples deg :
  4 ≤ deg → determine_I_lambda_1_portions_3d deg = triples_of_total (deg - 4).
Proof.
  intros Hdeg. unfold determine_I_lambda_1_portions_3d, triples_of_total.
  replace (deg <? 4) with false by (symmetry; apply Z.ltb_ge; lia).
  rewrite filter_bind.
  replace (deg - 4 + 1) with (deg - 3) by lia.
  apply bind_ext_in. intros a Ha. apply elem_of_range in Ha.
  rewrite filter_bind.
  replace (deg - 4 - a + 1) with (deg - 3 - a) by lia.
  apply bind_ext_in. intros b Hb. apply elem_of_range in Hb.
  replace (deg - 3 - a - b) with (deg - 4 + 1 - a - b) by lia.
  apply innermost_filter. lia.
Qed.

Lemma triples_of_total_sound n a b c :
  (a, b, c) ∈ triples_of_total n ↔ 0 ≤ a ∧ 0 ≤ b ∧ 0 ≤ c ∧ a + b + c = n.
Proof.
  unfold triples_of_total. rewrite list_elem_of_bind. split.
  - intros (a' & Hin & Ha'). apply list_elem_of_bind in Hin as (b' & Hin & Hb').
    apply list_elem_of_singleton in Hin. injection Hin as -> -> ->.
    apply elem_of_range in Ha', Hb'. lia.
  - intros (Ha & Hb & Hc & Hsum). exists a. split; [|apply elem_of_range; lia].
    apply list_elem_of_bind. exists b. split; [|apply elem_of_range; lia].
    apply list_elem_of_singleton. f_equal. lia.
Qed.

(** What [I_lambda_1_3d] produces, for every degree from 4 on: three terms
    per triple, in the order of the triples.  The x- and y-axis terms carry
    the blending pairs of the two other axes; the z-axis term carries the
    pair of [dy] twice and no [dx]. *)
Lemma I_lambda_1_3d_terms (dx dy dz : blend) (x_mid y_mid z_mid : expr) deg :
  4 ≤ deg →
  I_lambda_1_3d dx dy dz x_mid y_mid z_mid deg =
    triples_of_total (deg - 4) ≫= λ '(a, b, c),
      let P := (leg a x_mid * leg b y_mid * leg c z_mid)%E in
      [[P * at0 dy * at1 dy * at0 dz * at1 dz; Int 0; Int 0];
       [Int 0; P * at0 dx * at1 dx * at0 dz * at1 dz; Int 0];
       [Int 0; Int 0; P * at0 dy * at1 dy * at0 dy * at1 dy]]%E.
Proof.
  intros Hdeg. unfold I_lambda_1_3d.
  rewrite determine_I_lambda_1_portions_3d_triples by done.
  apply bind_ext_in. by intros [[a b] c] _.
Qed.

(** C3.  At degree 4 on the unit cube the interior generator produces the
    three terms of the single triple [(0, 0, 0)].  The x- and y-axis terms
    are as the claim says.  The z-axis term is scaled by
    [dy[0]*dy[1]*dy[0]*dy[1]], not by [dx[0]*dx[1]*dy[0]*dy[1]]: at the
    sample point the generated component is worth 4/81 and the claimed one
    1/24. *)
Theorem I_lambda_1_3d_z_term_at_degree_4 :
  let P := (leg 0 unit_x_mid * leg 0 unit_y_mid * leg 0 unit_z_mid)%E in
  let generated :=
    (P * at0 unit_dy * at1 unit_dy * at0 unit_dy * at1 unit_dy)%E in
  let claimed :=
    (P * at0 unit_dx * at1 unit_dx * at0 unit_dy * at1 unit_dy)%E in
  determine_I_lambda_1_portions_3d 4 = [(0, 0, 0)]
  ∧ I_lambda_1_3d unit_dx unit_dy unit_dz unit_x_mid unit_y_mid unit_z_mid 4
    = [[P * at0 unit_dy * at1 unit_dy * at0 unit_dz * at1 unit_dz;
        Int 0; Int 0];
       [Int 0;
        P * at0 unit_dx * at1 unit_dx * at0 unit_dz * at1 unit_dz; Int 0];
       [Int 0; Int 0; generated]]%E
  ∧ eval sample_point generated = (4 # 81)%Q
  ∧ eval sample_point claimed = (1 # 24)%Q
  ∧ ¬ (eval sample_point generated == eval sample_point claimed)%Q.
Proof.
  cbn zeta. repeat split; try (vm_compute; reflexivity).
  vm_compute. discriminate.
Qed.

(** ** The allocator *)

Lemma inner_dofs_empty : inner_dofs ∅ = [].
Proof. unfold inner_dofs. by rewrite map_to_list_empty. Qed.

Lemma inner_dofs_insert (inner : gmap Z (list Z)) j v :
  inner !! j = None → inner_dofs (<[j := v]> inner) ≡ₚ v ++ inner_dofs inner.
Proof.
  intros Hj. unfold inner_dofs. by rewrite map_to_list_insert.
Qed.

Lemma inner_dofs_insert_nil (inner : gmap Z (list Z)) j v :
  inner !! j = Some [] → inner_dofs (<[j := v]> inner) ≡ₚ v ++ inner_dofs inner.
Proof.
  intros Hj.
  rewrite <-(insert_delete_eq inner j v).
  rewrite inner_dofs_insert by apply lookup_delete_eq.
  rewrite <-(insert_delete_id inner j []) at 2 by done.
  rewrite inner_dofs_insert by apply lookup_delete_eq. done.
Qed.

Lemma all_dofs_insert (ids : entity_map) k inner :
  ids !! k = None → all_dofs (<[k := inner]> ids) ≡ₚ inner_dofs inner ++ all_dofs ids.
Proof.
  intros Hk. unfold all_dofs. by rewrite map_to_list_insert.
Qed.

Lemma all_dofs_replace (ids : entity_map) k inner inner' :
  ids !! k = Some inner →
  all_dofs (<[k := inner']> ids) ++ inner_dofs inner
  ≡ₚ inner_dofs inner' ++ all_dofs ids.
Proof.
  intros Hk.
  rewrite <-(insert_delete_eq ids k inner').
  rewrite all_dofs_insert by apply lookup_delete_eq.
  rewrite <-(insert_delete_id ids k inner) at 2 by done.
  rewrite all_dofs_insert by apply lookup_delete_eq.
  rewrite <-!(assoc_L (++)). f_equiv. apply Permutation_app_comm.
Qed.

(** Assigning a list to an entity that had none (or the empty one) adds
    exactly that list. *)
Lemma all_dofs_setitem (ids : entity_map) k inner j v :
  ids !! k = Some inner →
  inner !! j = Some [] ∨ inner !! j = None →
  all_dofs (<[k := <[j := v]> inner]> ids) ≡ₚ all_dofs ids ++ v.
Proof.
  intros Hk Hj.
  apply (Permutation_app_inv_r (inner_dofs inner)).
  rewrite all_dofs_replace by done.
  destruct Hj as [Hj|Hj].
  - rewrite inner_dofs_insert_nil by done.
    rewrite (Permutation_app_comm _ (all_dofs ids)). by rewrite (assoc_L (++)).
  - rewrite inner_dofs_insert by done.
    rewrite (Permutation_app_comm _ (all_dofs ids)). by rewrite (assoc_L (++)).
Qed.

Lemma all_dofs_init (topology : entity_map) :
  all_dofs ((λ entities : gmap Z (list Z), (λ _, []) <$> entities) <$> topology)
  = [].
Proof.
  unfold all_dofs. rewrite map_to_list_fmap, <-list_fmap_compose.
  induction (map_to_list topology) as [|[d entities] l IH]; [done|].
  cbn. rewrite IH, app_nil_r.
  unfold inner_dofs. rewrite map_to_list_fmap, <-list_fmap_compose.
  induction (map_to_list entities) as [|[e vs] l' IH']; [done|]. by cbn.
Qed.

Lemma elem_of_sorted_keys {V} (d : gmap Z V) j :
  j ∈ sorted_keys d ↔ is_Some (d !! j).
Proof.
  unfold sorted_keys. rewrite merge_sort_Permutation, list_elem_of_fmap.
  split.
  - intros ([j' v] & -> & Hin). apply elem_of_map_to_list in Hin. eauto.
  - intros [v Hv]. exists (j, v). split; [done|]. by apply elem_of_map_to_list.
Qed.

Lemma NoDup_sorted_keys {V} (d : gmap Z V) : NoDup (sorted_keys d).
Proof.
  unfold sorted_keys. rewrite merge_sort_Permutation.
  apply NoDup_fst_map_to_list.
Qed.

Lemma zlen_sorted_keys {V} (d : gmap Z V) :
  zlen (sorted_keys d) = Z.of_nat (size d).
Proof.
  unfold zlen, sorted_keys.
  by rewrite merge_sort_Permutation, length_fmap, length_map_to_list.
Qed.

Lemma getitem_inr `{Countable K} {V} (d : gmap K V) k v :
  d !! k = Some v → getitem d k = inr v.
Proof. intros Hk. unfold getitem. by rewrite Hk. Qed.

Lemma getitem_inl `{Countable K} {V} (d : gmap K V) k :
  d !! k = None → getitem d k = inl KeyError.
Proof. intros Hk. unfold getitem. by rewrite Hk. Qed.

Lemma setitem2_inr (ids : entity_map) k j v inner :
  ids !! k = Some inner →
  setitem2 ids k j v = inr (<[k := <[j := v]> inner]> ids).
Proof. intros Hk. unfold setitem2, getitem. by rewrite Hk. Qed.

Lemma assign_block_inr (ids : entity_map) k n j cur inner :
  ids !! k = Some inner →
  assign_block k n j (ids, cur)
  = inr (<[k := <[j := range cur (cur + n)]> inner]> ids, cur + n).
Proof. intros Hk. unfold assign_block. by rewrite (setitem2_inr _ _ _ _ _ Hk). Qed.

(** The loops that hand out [n] consecutive indices per entity. *)
Lemma assign_loop k n js :
  0 ≤ n → NoDup js →
  ∀ (ids : entity_map) cur inner,
    ids !! k = Some inner →
    (∀ j, j ∈ js → inner !! j = Some [] ∨ inner !! j = None) →
    ∃ ids' inner',
      for_each (assign_block k n) js (ids, cur)
        = inr (ids', cur + n * zlen js)
      ∧ ids' !! k = Some inner'
      ∧ (∀ k', k' ≠ k → ids' !! k' = ids !! k')
      ∧ (∀ j, j ∉ js → inner' !! j = inner !! j)
      ∧ (∀ j, j ∈ js → ∃ c, inner' !! j = Some (range c (c + n)))
      ∧ all_dofs ids' ≡ₚ all_dofs ids ++ range cur (cur + n * zlen js).
Proof.
  intros Hn. induction 1 as [|j js Hj Hnd IH]; intros ids cur inner Hk Hfree.
  - exists ids, inner. rewrite zlen_nil, Z.mul_0_r, Z.add_0_r.
    rewrite range_nil, app_nil_r by lia. repeat split; try done.
    intros j Hj. by apply elem_of_nil in Hj.
  - cbn [for_each]. rewrite (assign_block_inr _ _ _ _ _ _ Hk), bind_ret.
    destruct (IH (<[k := <[j := range cur (cur + n)]> inner]> ids) (cur + n)
                (<[j := range cur (cur + n)]> inner))
      as (ids' & inner' & Hloop & Hk' & Hother & Hkeep & Hset & Hperm).
    { apply lookup_insert_eq. }
    { intros j' Hj'. rewrite lookup_insert_ne by (intros ->; done).
      apply Hfree. by right. }
    exists ids', inner'. split; [|split; [|split; [|split; [|split]]]].
    + rewrite Hloop, zlen_cons.
      by replace (cur + n * (1 + zlen js)) with (cur + n + n * zlen js) by lia.
    + done.
    + intros k' Hne. rewrite Hother by done. by rewrite lookup_insert_ne.
    + intros j' Hj'. rewrite Hkeep by (intros ?; apply Hj'; by right).
      apply lookup_insert_ne. intros ->. apply Hj'. by left.
    + intros j' Hj'. destruct (decide (j' ∈ js)) as [Hin|Hout]; [by apply Hset|].
      apply elem_of_cons in Hj' as [->|?]; [|done].
      rewrite Hkeep by done. rewrite lookup_insert_eq. eauto.
    + rewrite Hperm, all_dofs_setitem by (done || (apply Hfree; by left)).
      rewrite <-(assoc_L (++)). f_equiv.
      rewrite zlen_cons.
      pose proof (zlen_nonneg js).
      rewrite (range_app cur (cur + n) (cur + n * (1 + zlen js))) by nia.
      by replace (cur + n * (1 + zlen js)) with (cur + n + n * zlen js) by lia.
Qed.

Lemma extends_trans ids1 ids2 ids3 :
  extends ids1 ids2 → extends ids2 ids3 → extends ids1 ids3.
Proof. unfold extends. eauto. Qed.

Lemma extends_setitem (ids : entity_map) k j v inner :
  ids !! k = Some inner → extends ids (<[k := <[j := v]> inner]> ids).
Proof.
  intros Hk d e. unfold dofs_of.
  destruct (decide (d = k)) as [->|Hd].
  - rewrite Hk, lookup_insert_eq. cbn.
    destruct (decide (e = j)) as [->|He].
    + rewrite lookup_insert_eq. eauto.
    + by rewrite lookup_insert_ne.
  - by rewrite lookup_insert_ne.
Qed.

Lemma covers_extends topo ids ids' :
  covers topo ids → extends ids ids' → covers topo ids'.
Proof.
  intros Hc He d entities Hd e vs Hevs. apply He. by eapply Hc.
Qed.

Lemma covers_init (topo : entity_map) :
  covers topo
    ((λ entities : gmap Z (list Z), (λ _, []) <$> entities) <$> topo).
Proof.
  intros d entities Hd e vs He. unfold dofs_of.
  rewrite lookup_fmap, Hd. cbn. rewrite lookup_fmap, He. cbn. eauto.
Qed.

Lemma assign_loop_extends k n js (ids ids' : entity_map) cur cur' :
  for_each (assign_block k n) js (ids, cur) = inr (ids', cur') →
  extends ids ids'.
Proof.
  revert ids cur. induction js as [|j js IH]; intros ids cur Hrun.
  - cbn in Hrun. injection Hrun as <- _. by intros d e.
  - cbn [for_each] in Hrun. apply bind_inr in Hrun as ([ids1 cur1] & Hstep & Hrun).
    unfold assign_block, setitem2, getitem in Hstep.
    destruct (ids !! k) as [inner|] eqn:Hk; [|discriminate].
    run_result. injection Hstep as <- <-.
    eapply extends_trans; [by apply extends_setitem|by eapply IH].
Qed.

Lemma triangular_number_nonneg n : 0 ≤ n → 0 ≤ triangular_number n.
Proof. intros Hn. pose proof (triangular_number_double n Hn). nia. Qed.

(** The allocation on a 2D cell: it succeeds, keeps an entry for every
    entity, and hands out every index below the total exactly once. *)
Lemma allocate_2d degree (topo : entity_map) edges :
  0 ≤ degree → topo !! 1 = Some edges → (2 ≤ degree → is_Some (topo !! 2)) →
  ∃ ids,
    allocate_entity_ids degree 2 topo = inr ids
    ∧ covers topo ids
    ∧ all_dofs ids ≡ₚ
        range 0 (degree * Z.of_nat (size edges)
                 + (if 2 <=? degree
                    then 2 * triangular_number (degree - 2) + degree else 0))
    ∧ (∀ e, is_Some (edges !! e) →
         ∃ c, dofs_of ids 1 e = Some (range c (c + degree)))
    ∧ (∀ l, dofs_of ids 2 0 = Some l →
         zlen l = if 2 <=? degree
                  then 2 * triangular_number (degree - 2) + degree else 0).
Proof.
  intros Hdeg Hedges Hfaces. unfold allocate_entity_ids. cbn [Z.eqb Pos.eqb].
  rewrite (getitem_inr _ _ _ Hedges), bind_ret.
  set (ids0 := (λ entities : gmap Z (list Z), (λ _, []) <$> entities) <$> topo).
  destruct (assign_loop 1 degree (sorted_keys edges) Hdeg
              (NoDup_sorted_keys edges) ids0 0 ((λ _, []) <$> edges))
    as (ids1 & inner1 & Hloop & Hk1 & Hother & Hkeep & Hset & Hperm).
  { subst ids0. by rewrite lookup_fmap, Hedges. }
  { intros j Hj. apply elem_of_sorted_keys in Hj as [v Hv].
    left. by rewrite lookup_fmap, Hv. }
  rewrite Hloop, bind_ret. cbn beta iota.
  pose proof (assign_loop_extends _ _ _ _ _ _ _ Hloop) as Hext.
  rewrite zlen_sorted_keys, Z.add_0_l in *.
  unfold ids0 in Hperm at 1. rewrite all_dofs_init, app_nil_l in Hperm.
  destruct (2 <=? degree) eqn:H2.
  - apply Z.leb_le in H2. destruct (Hfaces H2) as [faces Hf].
    assert (Hk2 : ids1 !! 2 = Some ((λ _, []) <$> faces)).
    { rewrite Hother by done. subst ids0. by rewrite lookup_fmap, Hf. }
    rewrite (setitem2_inr _ _ _ _ _ Hk2), bind_ret. cbn zeta.
    pose proof (triangular_number_nonneg (degree - 2) ltac:(lia)) as HT.
    eexists. split; [reflexivity|]. split; [|split; [|split]].
    + eapply covers_extends; [apply covers_init|].
      eapply extends_trans; [exact Hext|by apply extends_setitem].
    + rewrite all_dofs_setitem; [|done|].
      * rewrite Hperm.
        rewrite (range_app 0 (degree * Z.of_nat (size edges))
                   (degree * Z.of_nat (size edges)
                    + (2 * triangular_number (degree - 2) + degree))) by nia.
        do 2 f_equiv. lia.
      * rewrite lookup_fmap. destruct (faces !! 0); cbn; eauto.
    + intros e He. apply elem_of_sorted_keys in He.
      destruct (Hset e He) as [c Hc]. exists c.
      unfold dofs_of. rewrite lookup_insert_ne by done. by rewrite Hk1.
    + intros l. unfold dofs_of. rewrite lookup_insert_eq. cbn.
      rewrite lookup_insert_eq. intros [= <-]. rewrite zlen_range; lia.
  - rewrite bind_mret. cbn zeta.
    eexists. split; [reflexivity|]. split; [|split; [|split]].
    + eapply covers_extends; [apply covers_init|exact Hext].
    + by rewrite Hperm, Z.add_0_r.
    + intros e He. apply elem_of_sorted_keys in He.
      destruct (Hset e He) as [c Hc]. exists c. unfold dofs_of. by rewrite Hk1.
    + intros l. unfold dofs_of. rewrite Hother by done. subst ids0.
      rewrite lookup_fmap. destruct (topo !! 2) as [faces|]; [|done]. cbn.
      rewrite lookup_fmap. destruct (faces !! 0); [|done]. by intros [= <-].
Qed.

(** *** The 3D allocation and the interior count *)

Lemma foldl_zsum (f : Z → Z) l a :
  foldl (λ acc i, acc + f i) a l = a + zsum f l.
Proof.
  revert a. induction l as [|i l IH]; intros a; [cbn; lia|].
  cbn [foldl]. rewrite IH. unfold zsum. cbn [foldr]. lia.
Qed.

Lemma zsum_ext_in (f g : Z → Z) l :
  (∀ i, i ∈ l → f i = g i) → zsum f l = zsum g l.
Proof.
  induction l as [|i l IH]; intros Hfg; [done|]. unfold zsum in *.
  cbn [foldr]. rewrite Hfg by left. rewrite IH; [done|].
  intros; apply Hfg; by right.
Qed.

Lemma binomial_1 n : binomial n 1 = n.
Proof. induction n as [|n IH]; [done|]. cbn. destruct n; cbn in *; lia. Qed.

Lemma binomial_2 n :
  Z.of_nat (binomial (n + 2) 2) = triangular_number (Z.of_nat n + 1).
Proof.
  induction n as [|n IH]; [done|].
  replace (S n + 2)%nat with (S (n + 2)) by lia.
  cbn [binomial]. rewrite Nat2Z.inj_add, IH, binomial_1.
  replace (Z.of_nat (S n) + 1) with ((Z.of_nat n + 1) + 1) by lia.
  rewrite (triangular_number_succ (Z.of_nat n + 1)) by lia. lia.
Qed.

Lemma product_positive l a :
  0 < a → Forall (λ i, 0 < i) l → 0 < foldl (λ top i, i * top) a l.
Proof.
  intros Ha Hl. revert a Ha. induction Hl as [|i l Hi _ IH]; intros a Ha; [done|].
  cbn. apply IH. nia.
Qed.

(** [choose_ijk_total i] is the number of monomials of total degree [i] in
    three variables. *)
Lemma choose_ijk_total_binomial i :
  0 ≤ i → choose_ijk_total i = Z.of_nat (binomial (Z.to_nat i + 2) 2).
Proof.
  intros Hi. unfold choose_ijk_total.
  replace (2 + i + 1) with ((i + 1 + 1) + 1) by lia.
  rewrite (range_snoc 1 (i + 1 + 1)), (range_snoc 1 (i + 1)) by lia.
  rewrite !foldl_app. cbn [foldl].
  set (bottom := foldl (λ bottom j, j * bottom) 1 (range 1 (i + 1))).
  assert (Hb : 0 < bottom).
  { apply product_positive; [lia|]. apply Forall_forall.
    intros j Hj. apply elem_of_range in Hj. lia. }
  rewrite binomial_2, Z2Nat.id by lia.
  pose proof (triangular_number_double (i + 1) ltac:(lia)) as HT.
  replace ((i + 1 + 1) * ((i + 1) * bottom))
    with (triangular_number (i + 1) * (2 * bottom)) by nia.
  apply Z.quot_mul. lia.
Qed.

Lemma all_dofs_reset (ids : entity_map) k :
  all_dofs ids = [] → all_dofs (<[k := ∅]> ids) = [].
Proof.
  intros Hnil. apply Permutation_nil_r.
  destruct (ids !! k) as [inner|] eqn:Hk.
  - pose proof (all_dofs_replace ids k inner ∅ Hk) as Hp.
    rewrite Hnil, inner_dofs_empty in Hp. cbn in Hp.
    apply Permutation_nil_r in Hp. apply app_eq_nil in Hp as [-> _]. done.
  - rewrite all_dofs_insert by done. by rewrite inner_dofs_empty, Hnil.
Qed.

Lemma interior_block_spec degree : interior_block degree = interior_dof_count degree.
Proof.
  unfold interior_block, interior_dof_count.
  destruct (4 <=? degree) eqn:H4.
  - apply Z.leb_le in H4.
    replace (degree <? 4) with false by (symmetry; apply Z.ltb_ge; lia).
    destruct (degree =? 4); [done|]. destruct (degree =? 5); [done|].
    rewrite foldl_zsum. replace (degree - 5 + 1) with (degree - 4) by lia.
    rewrite (zsum_ext_in _ (λ i, 3 * Z.of_nat (binomial (Z.to_nat i + 2) 2))).
    + lia.
    + intros i Hin. apply elem_of_range in Hin.
      by rewrite choose_ijk_total_binomial by lia.
  - apply Z.leb_gt in H4.
    by replace (degree <? 4) with true by (symmetry; apply Z.ltb_lt; lia).
Qed.

Lemma interior_block_nonneg degree : 0 ≤ interior_block degree.
Proof.
  unfold interior_block. destruct (4 <=? degree) eqn:H4; [|done].
  apply Z.leb_le in H4.
  destruct (degree =? 4); [done|]. destruct (degree =? 5); [done|].
  rewrite foldl_zsum.
  assert (0 ≤ zsum (λ i, 3 * choose_ijk_total i) (range 0 (degree - 4))); [|lia].
  assert (Hall : Forall (λ i, 0 ≤ i) (range 0 (degree - 4))).
  { apply Forall_forall. intros i Hi. apply elem_of_range in Hi. lia. }
  induction Hall as [|i l Hi _ IH]; [done|]. unfold zsum in *. cbn [foldr].
  rewrite choose_ijk_total_binomial by done. lia.
Qed.

Lemma face_block_nonneg degree : 0 ≤ face_block degree.
Proof.
  unfold face_block. destruct (2 <=? degree) eqn:H2; [|done].
  apply Z.leb_le in H2. destruct (degree <? 4) eqn:H4.
  - pose proof (triangular_number_nonneg (degree - 2) ltac:(lia)). lia.
  - apply Z.ltb_ge in H4. lia.
Qed.

(** The allocation on a 3D cell. *)
Lemma allocate_3d degree (topo : entity_map) edges faces :
  0 ≤ degree → topo !! 1 = Some edges → topo !! 2 = Some faces →
  let cur := degree * Z.of_nat (size edges)
             + (if 2 <=? degree
                then face_block degree * Z.of_nat (size faces) else 0) in
  ∃ ids,
    allocate_entity_ids degree 3 topo = inr ids
    ∧ dofs_of ids 3 0 = Some (range cur (cur + interior_block degree))
    ∧ all_dofs ids ≡ₚ range 0 (cur + interior_block degree).
Proof.
  intros Hdeg Hedges Hfaces cur. unfold allocate_entity_ids. cbn [Z.eqb Pos.eqb].
  rewrite (getitem_inr _ _ _ Hedges), bind_ret.
  set (ids0 := (λ entities : gmap Z (list Z), (λ _, []) <$> entities) <$> topo).
  destruct (assign_loop 1 degree (sorted_keys edges) Hdeg
              (NoDup_sorted_keys edges) (<[3 := ∅]> ids0) 0
              ((λ _, []) <$> edges))
    as (ids1 & inner1 & Hloop1 & Hk1 & Hother1 & _ & _ & Hperm1).
  { rewrite lookup_insert_ne by done. subst ids0.
    by rewrite lookup_fmap, Hedges. }
  { intros j Hj. apply elem_of_sorted_keys in Hj as [v Hv].
    left. by rewrite lookup_fmap, Hv. }
  rewrite Hloop1, bind_ret. cbn beta iota.
  rewrite zlen_sorted_keys, Z.add_0_l in *.
  rewrite (all_dofs_reset ids0 3), app_nil_l in Hperm1
    by (subst ids0; apply all_dofs_init).
  assert (Hfaces_loop : ∃ ids2,
    (if 2 <=? degree
     then
       if degree <? 4
       then faces ← getitem topo 2;
            for_each
              (assign_block 2 (2 * triangular_number (degree - 2) + degree))
              (sorted_keys faces) (ids1, degree * Z.of_nat (size edges))
       else faces ← getitem topo 2;
            for_each (assign_block 2 (3 * degree - 4)) (sorted_keys faces)
              (ids1, degree * Z.of_nat (size edges))
     else mret (ids1, degree * Z.of_nat (size edges)))
    = inr (ids2, cur)
    ∧ ids2 !! 3 = Some ∅
    ∧ all_dofs ids2 ≡ₚ range 0 cur).
  { assert (H3 : ids1 !! 3 = Some ∅).
    { rewrite Hother1 by done. apply lookup_insert_eq. }
    subst cur. destruct (2 <=? degree) eqn:H2;
      [|exists ids1; by rewrite Z.add_0_r].
    pose proof (face_block_nonneg degree) as Hfb. unfold face_block in *.
    rewrite H2 in *. apply Z.leb_le in H2.
    rewrite (getitem_inr _ _ _ Hfaces).
    set (n := if degree <? 4
              then 2 * triangular_number (degree - 2) + degree
              else 3 * degree - 4) in *.
    destruct (assign_loop 2 n (sorted_keys faces) Hfb
                (NoDup_sorted_keys faces) ids1
                (degree * Z.of_nat (size edges)) ((λ _, []) <$> faces))
      as (ids2 & inner2 & Hloop2 & _ & Hother2 & _ & _ & Hperm2).
    { rewrite Hother1, lookup_insert_ne by done. subst ids0.
      by rewrite lookup_fmap, Hfaces. }
    { intros j Hj. apply elem_of_sorted_keys in Hj as [v Hv].
      left. by rewrite lookup_fmap, Hv. }
    rewrite zlen_sorted_keys in *.
    exists ids2. split; [|split].
    - subst n. destruct (degree <? 4); by rewrite bind_ret, Hloop2.
    - by rewrite Hother2.
    - rewrite Hperm2, Hperm1.
      rewrite (range_app 0 (degree * Z.of_nat (size edges))
                 (degree * Z.of_nat (size edges) + n * Z.of_nat (size faces)))
        by nia.
      done. }
  destruct Hfaces_loop as (ids2 & -> & H3 & Hperm2).
  rewrite bind_ret. cbn beta iota.
  pose proof (interior_block_nonneg degree) as Hib.
  assert (Hfinal : ∀ k, 0 ≤ k →
    ∃ ids, setitem2 ids2 3 0 (range cur (cur + k)) = inr ids
           ∧ dofs_of ids 3 0 = Some (range cur (cur + k))
           ∧ all_dofs ids ≡ₚ range 0 (cur + k)).
  { intros k Hk. rewrite (setitem2_inr _ _ _ _ _ H3).
    eexists. split; [reflexivity|]. split.
    - unfold dofs_of. rewrite lookup_insert_eq. cbn. by rewrite lookup_insert_eq.
    - rewrite all_dofs_setitem by (done || by right). rewrite Hperm2.
      assert (0 ≤ cur).
      { subst cur. pose proof (face_block_nonneg degree).
        destruct (2 <=? degree); nia. }
      by rewrite (range_app 0 cur (cur + k)) by lia. }
  unfold interior_block in *.
  destruct (4 <=? degree).
  - destruct (degree =? 4); [by apply Hfinal|].
    destruct (degree =? 5); [by apply Hfinal|].
    cbn zeta.
    match goal with |- context [range cur (cur + 6 + ?a + ?b)] =>
      replace (cur + 6 + a + b) with (cur + (6 + a + b)) by lia end.
    by apply Hfinal.
  - replace (range cur cur) with (range cur (cur + 0)) by (by rewrite Z.add_0_r).
    by apply Hfinal.
Qed.

(** C5.  On a 3D cell the allocator gives the interior entity no DOF for
    degrees below 4, exactly 6 at degree 4, exactly 11 at degree 5, and from
    degree 6 on [6 + 3(degree-4)] plus the sum over [i = 0 .. degree-5] of
    [3 * binomial(i+2, 2)]. *)
Theorem interior_dofs_3d degree (topo : entity_map) edges faces :
  1 ≤ degree → topo !! 1 = Some edges → topo !! 2 = Some faces →
  ∃ ids l,
    allocate_entity_ids degree 3 topo = inr ids
    ∧ dofs_of ids 3 0 = Some l
    ∧ zlen l = interior_dof_count degree
    ∧ (degree < 4 → zlen l = 0)
    ∧ (degree = 4 → zlen l = 6)
    ∧ (degree = 5 → zlen l = 11)
    ∧ (6 ≤ degree →
       zlen l = 6 + 3 * (degree - 4)
                + zsum (λ i, 3 * Z.of_nat (binomial (Z.to_nat i + 2) 2))
                    (range 0 (degree - 5 + 1))).
Proof.
  intros Hdeg Hedges Hfaces.
  destruct (allocate_3d degree topo edges faces ltac:(lia) Hedges Hfaces)
    as (ids & Halloc & Hint & _).
  eexists ids, _. split; [exact Halloc|]. split; [exact Hint|].
  pose proof (interior_block_nonneg degree).
  assert (Hlen : ∀ c, zlen (range c (c + interior_block degree))
                      = interior_dof_count degree).
  { intros c. rewrite zlen_range by lia. rewrite <-interior_block_spec. lia. }
  rewrite Hlen. unfold interior_dof_count. repeat split.
  - intros Hlt. by replace (degree <? 4) with true by (symmetry; apply Z.ltb_lt; lia).
  - by intros ->.
  - by intros ->.
  - intros H6.
    replace (degree <? 4) with false by (symmetry; apply Z.ltb_ge; lia).
    replace (degree =? 4) with false by (symmetry; apply Z.eqb_neq; lia).
    by replace (degree =? 5) with false by (symmetry; apply Z.eqb_neq; lia).
Qed.

(** ** Construction guards and unsupported queries *)

Section construction.
Context {RefEl odim : Type} `{Countable odim}.
Variable flatten_reference_cube : RefEl → FlatCell.
Variable make_entity_closure_ids : FlatCell → entity_map → entity_map.
Variable ref_get_topology : RefEl → gmap odim (gmap Z (list Z)).
Variable compute_unflattening_map :
  gmap odim (gmap Z (list Z)) → gmap (Z * Z) (odim * Z).

Local Abbreviation Elt := (@Element RefEl odim _ _).
Local Abbreviation Edge :=
  (TrimmedSerendipityEdge_init flatten_reference_cube make_entity_closure_ids
     ref_get_topology compute_unflattening_map).
Local Abbreviation Face :=
  (TrimmedSerendipityFace_init flatten_reference_cube make_entity_closure_ids
     ref_get_topology compute_unflattening_map).
Local Abbreviation dim_of ref_el :=
  (get_spatial_dimension (flatten_reference_cube ref_el)).

Lemma dim_guard_true (d : Z) :
  d ≠ 2 → d ≠ 3 → negb (d =? 2) && negb (d =? 3) = true.
Proof. intros. rewrite andb_true_iff, !negb_true_iff, !Z.eqb_neq. done. Qed.

Lemma dim_guard_false (d : Z) :
  d = 2 ∨ d = 3 → negb (d =? 2) && negb (d =? 3) = false.
Proof. intros [-> | ->]; reflexivity. Qed.

Lemma Edge_guard (ref_el : RefEl) (degree : Z) :
  invalid_configuration degree (dim_of ref_el) →
  Edge ref_el degree =
    raise (Exception
      (if degree <? 1
       then "Trimmed Serendipity_k edge elements only valid for k >= 1"
       else "Trimmed Serendipity_k edge elements only valid for dimensions 2 and 3")).
Proof.
  intros Hbad. unfold TrimmedSerendipityEdge_init.
  destruct (degree <? 1) eqn:Hdeg; [done|].
  destruct Hbad as [Hlt | [H2 H3]]; [apply Z.ltb_ge in Hdeg; lia|].
  by rewrite (dim_guard_true _ H2 H3).
Qed.

Lemma Face_guard (ref_el : RefEl) (degree : Z) :
  invalid_configuration degree (dim_of ref_el) →
  Face ref_el degree =
    raise (Exception
      (if degree <? 1
       then "Trimmed serendipity face elements only valid for k >= 1"
       else "Trimmed serendipity face elements only valid for dimensions 2 and 3")).
Proof.
  intros Hbad. unfold TrimmedSerendipityFace_init.
  destruct (degree <? 1) eqn:Hdeg; [done|].
  destruct Hbad as [Hlt | [H2 H3]]; [apply Z.ltb_ge in Hdeg; lia|].
  by rewrite (dim_guard_true _ H2 H3).
Qed.

(** C8.  Constructing an Edge or a Face element with [degree < 1], or on a
    cell whose flattened dimension is neither 2 nor 3, raises the plain
    [Exception] with the constructor's own message: the degree message when
    the degree is too small, the dimension message otherwise.  The outcome is
    an exception, so no element is produced, and it is fixed by the degree
    and the dimension alone: the vertices, from which all symbolic work
    starts, are never consulted (the statement holds whatever they are,
    including vertex lists on which the blending factors would fail). *)
Theorem invalid_configuration_raises (ref_el : RefEl) (degree : Z) :
  invalid_configuration degree (dim_of ref_el) →
  Edge ref_el degree =
    raise (Exception
      (if degree <? 1
       then "Trimmed Serendipity_k edge elements only valid for k >= 1"
       else "Trimmed Serendipity_k edge elements only valid for dimensions 2 and 3"))
  ∧ Face ref_el degree =
    raise (Exception
      (if degree <? 1
       then "Trimmed serendipity face elements only valid for k >= 1"
       else "Trimmed serendipity face elements only valid for dimensions 2 and 3")).
Proof.
  intros Hbad. split; [by apply Edge_guard | by apply Face_guard].
Qed.

(** C9.  On any element, [get_nodal_basis], [get_dual_set], [get_coeffs],
    [dmats] and [get_num_members] raise [NotImplementedError] (on every call,
    so on the first), and a handler for [NotImplementedError] tells that
    signal from the error of a rejected construction: it catches the former
    and not the latter. *)
Theorem unsupported_queries_raise {A} (self : Elt) (arg : A)
    (ref_el : RefEl) (degree : Z) :
  invalid_configuration degree (dim_of ref_el) →
  Forall
    (λ r : result unit,
       ∃ m, r = raise (NotImplementedError m)
            ∧ isinstance (NotImplementedError m) cNotImplementedError = true)
    [get_nodal_basis self; get_dual_set self; get_coeffs self; dmats self;
     get_num_members self arg]
  ∧ ∃ cfg_edge cfg_face,
      Edge ref_el degree = raise cfg_edge
      ∧ Face ref_el degree = raise cfg_face
      ∧ isinstance cfg_edge cNotImplementedError = false
      ∧ isinstance cfg_face cNotImplementedError = false.
Proof.
  intros Hbad.
  pose proof (Edge_guard ref_el degree Hbad) as HE.
  pose proof (Face_guard ref_el degree Hbad) as HF.
  split.
  - repeat constructor; eexists; split; reflexivity.
  - do 2 eexists. repeat split; try eassumption; reflexivity.
Qed.

(** *** The base constructor returns when the collaborators are total *)

Lemma for_each_invariant {A S} (body : A → S → result S) (I : S → Prop) l :
  (∀ a s, a ∈ l → I s → ∃ s', body a s = inr s' ∧ I s') →
  ∀ s, I s → ∃ s', for_each body l s = inr s' ∧ I s'.
Proof.
  induction l as [|a l IH]; intros Hbody s Hs.
  - exists s. by split.
  - destruct (Hbody a s ltac:(left) Hs) as (s1 & Hstep & Hs1).
    cbn [for_each]. rewrite Hstep, bind_ret.
    apply IH; [|done]. intros a' s' Ha'. apply Hbody. by right.
Qed.

Lemma setitem2_is_Some (m : gmap odim (gmap Z (list Z))) d e v :
  is_Some (m !! d) →
  ∃ m', setitem2 m d e v = inr m'
        ∧ ∀ d', is_Some (m !! d') → is_Some (m' !! d').
Proof.
  intros [inner Hd]. unfold setitem2. rewrite (getitem_inr _ _ _ Hd), bind_ret.
  eexists. split; [reflexivity|]. intros d' Hd'.
  destruct (decide (d = d')) as [->|Hne].
  - rewrite lookup_insert_eq. eauto.
  - by rewrite lookup_insert_ne.
Qed.

Lemma TrimmedSerendipity_init_returns self_basis ref_el degree mapping ids :
  let flat_el := flatten_reference_cube ref_el in
  let topology := ref_get_topology ref_el in
  1 ≤ degree →
  get_spatial_dimension flat_el = 2 ∨ get_spatial_dimension flat_el = 3 →
  allocate_entity_ids degree (get_spatial_dimension flat_el)
    (get_topology flat_el) = inr ids →
  covers (get_topology flat_el) ids →
  covers (get_topology flat_el) (make_entity_closure_ids flat_el ids) →
  unflattening_ready topology (get_topology flat_el)
    (compute_unflattening_map topology) →
  ∃ self : Elt,
    TrimmedSerendipity_init flatten_reference_cube make_entity_closure_ids
      ref_get_topology compute_unflattening_map self_basis ref_el degree mapping
    = inr self
    ∧ basis self = self_basis ∧ _degree self = degree.
Proof.
  intros flat_el topology Hdeg Hdim Halloc Hids Hclosure Hunflat.
  unfold TrimmedSerendipity_init. fold flat_el. fold topology.
  replace (degree <? 1) with false by (symmetry; apply Z.ltb_ge; lia).
  rewrite (dim_guard_false _ Hdim), Halloc, bind_ret.
  set (I := λ st : gmap odim (gmap Z (list Z)) * gmap odim (gmap Z (list Z)),
         ∀ d, is_Some (topology !! d) →
              is_Some (st.1 !! d) ∧ is_Some (st.2 !! d)).
  cbn zeta.
  match goal with |- context [for_each ?body ?l ?s0] =>
    assert (∃ st, for_each body l s0 = inr st ∧ I st)
      as ([u1 u2] & Hrun & _); [apply for_each_invariant|] end.
  - intros dim st Hdim_in Hst.
    apply elem_of_sorted_keys in Hdim_in as [entities Hent].
    rewrite (getitem_inr _ _ _ Hent), bind_ret.
    apply for_each_invariant; [|done].
    intros e [v1 v2] He Hv. apply elem_of_sorted_keys in He as [vs Hvs].
    destruct (Hunflat dim entities Hent e vs Hvs) as [t Ht].
    destruct (compute_unflattening_map topology !! (dim, e))
      as [[ud ue]|] eqn:Hu; [|discriminate]. cbn in Ht.
    destruct (Hids dim entities Hent e vs Hvs) as [l Hl].
    destruct (Hclosure dim entities Hent e vs Hvs) as [c Hc'].
    unfold dofs_of in Hl, Hc'.
    destruct (ids !! dim) as [ids_dim|] eqn:Hi; [|discriminate].
    destruct (make_entity_closure_ids flat_el ids !! dim)
      as [cl_dim|] eqn:Hcl; [|discriminate].
    cbn in Hl, Hc'. unfold unflatten_step.
    rewrite (getitem_inr _ _ _ Hu), bind_ret. cbn beta iota.
    rewrite (getitem_inr _ _ _ Hi), bind_ret, (getitem_inr _ _ _ Hl), bind_ret.
    destruct (Hv ud ltac:(eauto)) as [Hv1 Hv2]. cbn in Hv1, Hv2.
    destruct (setitem2_is_Some v1 ud ue l Hv1) as (v1' & -> & Hv1').
    rewrite bind_ret, (getitem_inr _ _ _ Hcl), bind_ret,
      (getitem_inr _ _ _ Hc'), bind_ret.
    destruct (setitem2_is_Some v2 ud ue c Hv2) as (v2' & -> & Hv2').
    rewrite bind_ret. eexists. split; [reflexivity|].
    intros d Hd. destruct (Hv d Hd). split; cbn; eauto.
  - intros d [v Hd]. cbn. rewrite !lookup_fmap, Hd. cbn. eauto.
  - rewrite Hrun, bind_ret. cbn beta iota. eexists. split; [reflexivity|done].
Qed.

(** *** The raw terms on a 2D cell *)

Lemma blending_inr verts a v lo hi lo_a hi_a :
  corners verts lo hi → lo !! a = Some lo_a → hi !! a = Some hi_a →
  blending verts a v = inr (blend_of lo_a hi_a v).
Proof.
  intros [Hlo Hhi] Ha Hb. unfold blending, index_last, index.
  rewrite Hhi. cbn. rewrite Hb. cbn. rewrite Hlo. cbn. by rewrite Ha.
Qed.

Lemma midpoint_inr verts a v lo hi lo_a hi_a :
  corners verts lo hi → lo !! a = Some lo_a → hi !! a = Some hi_a →
  midpoint verts a v = inr (mid_of lo_a hi_a v).
Proof.
  intros [Hlo Hhi] Ha Hb. unfold midpoint, index_last, index.
  rewrite Hhi. cbn. rewrite Hb. cbn. rewrite Hlo. cbn. by rewrite Ha.
Qed.

Lemma blending_exn verts a v e : blending verts a v = inl e → e = IndexError.
Proof.
  unfold blending, index_last, index.
  destruct (last verts) as [hv|]; run_result; [|congruence].
  destruct (hv !! a); run_result; [|congruence].
  destruct (verts !! 0%nat) as [lv|]; run_result; [|congruence].
  destruct (lv !! a); run_result; congruence.
Qed.

Lemma midpoint_exn verts a v e : midpoint verts a v = inl e → e = IndexError.
Proof.
  unfold midpoint, index_last, index.
  destruct (last verts) as [hv|]; run_result; [|congruence].
  destruct (hv !! a); run_result; [|congruence].
  destruct (verts !! 0%nat) as [lv|]; run_result; [|congruence].
  destruct (lv !! a); run_result; congruence.
Qed.

(** The [try]/[except IndexError] around [dz] never lets an exception out. *)
Lemma try_z_returns verts : ∃ o, try_z verts = inr o.
Proof.
  unfold try_z.
  destruct (blending verts 2 z) as [e|dz] eqn:Hb; cbn.
  - apply blending_exn in Hb as ->. eauto.
  - destruct (midpoint verts 2 z) as [e|zm] eqn:Hm; cbn; [|eauto].
    apply midpoint_exn in Hm as ->. eauto.
Qed.

(** On the 2D path the local [IL] is never bound. *)
Lemma raw_terms_2d_IL degree verts EL FL IL :
  raw_terms 2 degree verts = inr (EL, FL, IL) → IL = None.
Proof.
  unfold raw_terms. intros Hr.
  repeat (apply bind_inr in Hr as (? & ? & Hr)).
  match goal with HIL : _ = inr ?il, Hr : mret (_, _, ?il) = _ |- _ =>
    cbn in HIL; run_result; congruence end.
Qed.

Lemma raw_terms_2d degree verts lx ly hx hy lo hi :
  corners verts lo hi →
  lo !! 0%nat = Some lx → lo !! 1%nat = Some ly →
  hi !! 0%nat = Some hx → hi !! 1%nat = Some hy →
  let dx := blend_of lx hx x in
  let dy := blend_of ly hy y in
  let x_mid := mid_of lx hx x in
  let y_mid := mid_of ly hy y in
  raw_terms 2 degree verts =
    inr (e_lambda_1_2d_part_one dx dy x_mid y_mid degree,
         if 2 <=? degree then trimmed_f_lambda_2d dx dy x_mid y_mid degree
         else [],
         None).
Proof.
  intros Hc Hlx Hly Hhx Hhy. cbn zeta. unfold raw_terms.
  rewrite (blending_inr _ _ _ _ _ _ _ Hc Hlx Hhx),
    (blending_inr _ _ _ _ _ _ _ Hc Hly Hhy),
    (midpoint_inr _ _ _ _ _ _ _ Hc Hlx Hhx),
    (midpoint_inr _ _ _ _ _ _ _ Hc Hly Hhy).
  rewrite !bind_ret.
  destruct (try_z_returns verts) as [o ->]. rewrite bind_ret.
  cbn. by destruct (2 <=? degree).
Qed.

(** The Edge constructor on a 2D cell: the basis it stores, and that it
    returns. *)
Lemma Edge_2d_returns (ref_el : RefEl) (degree : Z) lx ly hx hy lo hi edges :
  let flat_el := flatten_reference_cube ref_el in
  let topology := ref_get_topology ref_el in
  let dx := blend_of lx hx x in
  let dy := blend_of ly hy y in
  let x_mid := mid_of lx hx x in
  let y_mid := mid_of ly hy y in
  1 ≤ degree →
  get_spatial_dimension flat_el = 2 →
  corners (get_vertices flat_el) lo hi →
  lo !! 0%nat = Some lx → lo !! 1%nat = Some ly →
  hi !! 0%nat = Some hx → hi !! 1%nat = Some hy →
  get_topology flat_el !! 1 = Some edges →
  is_Some (get_topology flat_el !! 2) →
  (∀ ids, covers (get_topology flat_el) ids →
          covers (get_topology flat_el) (make_entity_closure_ids flat_el ids)) →
  unflattening_ready topology (get_topology flat_el)
    (compute_unflattening_map topology) →
  ∃ (self : Elt) ids,
    Edge ref_el degree = inr self
    ∧ allocate_entity_ids degree 2 (get_topology flat_el) = inr ids
    ∧ basis self =
        {[ (0, 0) :=
             e_lambda_1_2d_part_one dx dy x_mid y_mid degree
             ++ (if 2 <=? degree
                 then trimmed_f_lambda_2d dx dy x_mid y_mid degree else []) ]}
    ∧ all_dofs ids ≡ₚ
        range 0 (degree * Z.of_nat (size edges)
                 + (if 2 <=? degree
                    then 2 * triangular_number (degree - 2) + degree else 0))
    ∧ (∀ e, is_Some (edges !! e) →
         ∃ c, dofs_of ids 1 e = Some (range c (c + degree)))
    ∧ (∀ l, dofs_of ids 2 0 = Some l →
         zlen l = if 2 <=? degree
                  then 2 * triangular_number (degree - 2) + degree else 0).
Proof.
  intros flat_el topology dx dy x_mid y_mid Hdeg Hdim Hc Hlx Hly Hhx Hhy
    Hedges Hfaces Hclosure Hunflat.
  destruct (allocate_2d degree _ edges ltac:(lia) Hedges (λ _, Hfaces))
    as (ids & Halloc & Hcov & Hperm & Hedge & Hface).
  unfold TrimmedSerendipityEdge_init. fold flat_el.
  replace (degree <? 1) with false by (symmetry; apply Z.ltb_ge; lia).
  rewrite Hdim. cbn [Z.eqb negb andb Pos.eqb].
  rewrite (raw_terms_2d degree _ lx ly hx hy _ _ Hc Hlx Hly Hhx Hhy), bind_ret.
  cbn beta iota zeta. rewrite bind_mret.
  edestruct (TrimmedSerendipity_init_returns) as (self & Hself & Hbasis & _);
    [exact Hdeg | left; exact Hdim | | | | | ].
  - fold flat_el. rewrite Hdim. exact Halloc.
  - exact Hcov.
  - by apply Hclosure.
  - exact Hunflat.
  - exists self, ids. split; [exact Hself|]. split; [done|].
    split; [exact Hbasis|done].
Qed.

(** C4 (amended).  For every degree [d >= 1] the assembled 2D Edge basis
    starts with exactly the [4d] terms of [e_lambda_1_2d_part_one]: four
    families of [d] terms, [-P_j(y_mid) dx[0]] and [-P_j(y_mid) dx[1]] in the
    y-component, then [-P_j(x_mid) dy[0]] and [-P_j(x_mid) dy[1]] in the
    x-component, for [j] in [[0, d)].  The face terms follow directly.  The
    four closing terms of [e_lambda_tilde_1_2d_part_two] are not assembled:
    none of them occurs in the basis. *)
Theorem edge_block_2d (ref_el : RefEl) (degree : Z) lx ly hx hy lo hi edges :
  let flat_el := flatten_reference_cube ref_el in
  let topology := ref_get_topology ref_el in
  let dx := blend_of lx hx x in
  let dy := blend_of ly hy y in
  let x_mid := mid_of lx hx x in
  let y_mid := mid_of ly hy y in
  let EL := e_lambda_1_2d_part_one dx dy x_mid y_mid degree in
  1 ≤ degree →
  get_spatial_dimension flat_el = 2 →
  corners (get_vertices flat_el) lo hi →
  lo !! 0%nat = Some lx → lo !! 1%nat = Some ly →
  hi !! 0%nat = Some hx → hi !! 1%nat = Some hy →
  get_topology flat_el !! 1 = Some edges →
  is_Some (get_topology flat_el !! 2) →
  (∀ ids, covers (get_topology flat_el) ids →
          covers (get_topology flat_el) (make_entity_closure_ids flat_el ids)) →
  unflattening_ready topology (get_topology flat_el)
    (compute_unflattening_map topology) →
  ∃ (self : Elt) b,
    Edge ref_el degree = inr self
    ∧ basis self !! (0, 0) = Some b
    ∧ b = EL ++ (if 2 <=? degree
                 then trimmed_f_lambda_2d dx dy x_mid y_mid degree else [])
    ∧ zlen EL = 4 * degree
    ∧ (∀ j, 0 ≤ j < degree →
         EL !! Z.to_nat j = Some [Int 0; - leg j y_mid * at0 dx]%E
         ∧ EL !! Z.to_nat (degree + j) = Some [Int 0; - leg j y_mid * at1 dx]%E
         ∧ EL !! Z.to_nat (2 * degree + j)
           = Some [- leg j x_mid * at0 dy; Int 0]%E
         ∧ EL !! Z.to_nat (3 * degree + j)
           = Some [- leg j x_mid * at1 dy; Int 0]%E)
    ∧ (∀ t, t ∈ e_lambda_tilde_1_2d_part_two dx dy x_mid y_mid degree → t ∉ b).
Proof.
  intros flat_el topology dx dy x_mid y_mid EL Hdeg Hdim Hc Hlx Hly Hhx Hhy
    Hedges Hfaces Hclosure Hunflat.
  destruct (Edge_2d_returns ref_el degree lx ly hx hy _ _ edges Hdeg Hdim Hc
              Hlx Hly Hhx Hhy Hedges Hfaces Hclosure Hunflat)
    as (self & ids & Hself & _ & Hbasis & _).
  eexists self, _. split; [exact Hself|].
  split; [rewrite Hbasis; apply lookup_singleton_eq|].
  split; [reflexivity|].
  split; [apply zlen_e_lambda_1_2d_part_one; lia|].
  split; [apply e_lambda_1_2d_part_one_families|].
  intros t Ht.
  destruct (tilde_terms_not_assembled dx dy x_mid y_mid degree t Ht) as [H1 H2].
  destruct (2 <=? degree); [exact H1|by rewrite app_nil_r].
Qed.

(** The counts on a 2D cell: the element, its basis and the allocation. *)
Lemma Edge_2d_counts (ref_el : RefEl) (degree : Z) lo hi edges :
  let flat_el := flatten_reference_cube ref_el in
  let topology := ref_get_topology ref_el in
  let T := λ n, n * (n + 1) / 2 in
  let N := 4 * degree + (if 2 <=? degree then 2 * T (degree - 2) + degree else 0) in
  1 ≤ degree →
  get_spatial_dimension flat_el = 2 →
  corners (get_vertices flat_el) lo hi →
  (2 ≤ length lo)%nat → (2 ≤ length hi)%nat →
  get_topology flat_el !! 1 = Some edges → size edges = 4%nat →
  is_Some (get_topology flat_el !! 2) →
  (∀ ids, covers (get_topology flat_el) ids →
          covers (get_topology flat_el) (make_entity_closure_ids flat_el ids)) →
  unflattening_ready topology (get_topology flat_el)
    (compute_unflattening_map topology) →
  ∃ (self : Elt) ids b,
    Edge ref_el degree = inr self
    ∧ allocate_entity_ids degree 2 (get_topology flat_el) = inr ids
    ∧ all_dofs ids ≡ₚ range 0 N
    ∧ 0 ≤ N
    ∧ space_dimension self = inr N
    ∧ basis self !! (0, 0) = Some b
    ∧ len_Array b = 2 * N
    ∧ (∀ e, is_Some (edges !! e) →
         ∃ l, dofs_of ids 1 e = Some l ∧ zlen l = degree)
    ∧ (∀ l, dofs_of ids 2 0 = Some l →
         zlen l = if 2 <=? degree then 2 * T (degree - 2) + degree else 0).
Proof.
  intros flat_el topology T N Hdeg Hdim Hc Hlo Hhi Hedges Hsize Hfaces
    Hclosure Hunflat.
  destruct lo as [|lx [|ly lo]]; [cbn in Hlo; lia..|].
  destruct hi as [|hx [|hy hi]]; [cbn in Hhi; lia..|].
  destruct (Edge_2d_returns ref_el degree lx ly hx hy _ _ edges Hdeg Hdim Hc
              eq_refl eq_refl eq_refl eq_refl Hedges Hfaces Hclosure Hunflat)
    as (self & ids & Hself & Halloc & Hbasis & Hperm & Hedge & Hface).
  set (dx := blend_of lx hx x) in *. set (dy := blend_of ly hy y) in *.
  set (x_mid := mid_of lx hx x) in *. set (y_mid := mid_of ly hy y) in *.
  set (b := e_lambda_1_2d_part_one dx dy x_mid y_mid degree
            ++ (if 2 <=? degree
                then trimmed_f_lambda_2d dx dy x_mid y_mid degree else []))
    in *.
  assert (HN : degree * Z.of_nat (size edges)
               + (if 2 <=? degree
                  then 2 * triangular_number (degree - 2) + degree else 0) = N).
  { subst N T. cbn beta. rewrite Hsize. destruct (2 <=? degree) eqn:H2; [|lia].
    apply Z.leb_le in H2. rewrite triangular_number_div by lia. lia. }
  assert (HN0 : 0 ≤ N).
  { subst N T. cbn beta.
    destruct (2 <=? degree) eqn:H2; [|lia]. apply Z.leb_le in H2.
    rewrite <-triangular_number_div by lia.
    pose proof (triangular_number_nonneg (degree - 2) ltac:(lia)). lia. }
  assert (Hlen : zlen b = N).
  { subst b. rewrite zlen_app, zlen_e_lambda_1_2d_part_one by lia.
    subst N T. cbn beta. destruct (2 <=? degree) eqn:H2; [|by rewrite zlen_nil].
    apply Z.leb_le in H2.
    rewrite zlen_trimmed_f_lambda_2d, triangular_number_div by lia. done. }
  assert (Hw : len_Array b = 2 * N).
  { rewrite (len_Array_width 2), Hlen; [done|]. subst b.
    apply width_app; [apply width_e_lambda_1_2d_part_one|].
    destruct (2 <=? degree); [apply width_trimmed_f_lambda_2d|constructor]. }
  exists self, ids, b. split; [done|]. split; [done|].
  split; [by rewrite Hperm, HN|]. split; [done|].
  split; [|split; [|split; [done|split]]].
  - unfold space_dimension. rewrite Hbasis.
    rewrite (getitem_inr _ _ b) by apply lookup_singleton_eq.
    rewrite bind_ret, Hw. cbn. by rewrite Z.mul_comm, Z.quot_mul.
  - rewrite Hbasis. apply lookup_singleton_eq.
  - intros e He. destruct (Hedge e He) as [c Hrange]. eexists.
    split; [exact Hrange|]. rewrite zlen_range; lia.
  - intros l Hl. rewrite (Hface l Hl). subst T. cbn beta.
    destruct (2 <=? degree) eqn:H2; [|done]. apply Z.leb_le in H2.
    by rewrite triangular_number_div by lia.
Qed.

(** C1.  On a 2D cell (a quadrilateral: four edges and a face, corner
    vertices with two coordinates), for every degree [d >= 1] the Edge
    constructor returns an element whose [space_dimension()] is the number of
    DOFs that the allocator hands out, namely [4d] for the edges plus
    [2*T(d-2) + d] for the face when [d >= 2] (nothing otherwise), with
    [T(n) = n(n+1)/2]; and the order-0 basis array has twice that many scalar
    entries.  The collaborators are assumed total on the cell's entities. *)
Theorem space_dimension_2d_edge (ref_el : RefEl) (degree : Z) lo hi edges :
  let flat_el := flatten_reference_cube ref_el in
  let topology := ref_get_topology ref_el in
  let T := λ n, n * (n + 1) / 2 in
  let face_dofs := if 2 <=? degree then 2 * T (degree - 2) + degree else 0 in
  1 ≤ degree →
  get_spatial_dimension flat_el = 2 →
  corners (get_vertices flat_el) lo hi →
  (2 ≤ length lo)%nat → (2 ≤ length hi)%nat →
  get_topology flat_el !! 1 = Some edges → size edges = 4%nat →
  is_Some (get_topology flat_el !! 2) →
  (∀ ids, covers (get_topology flat_el) ids →
          covers (get_topology flat_el) (make_entity_closure_ids flat_el ids)) →
  unflattening_ready topology (get_topology flat_el)
    (compute_unflattening_map topology) →
  ∃ (self : Elt) ids b,
    Edge ref_el degree = inr self
    ∧ allocate_entity_ids degree 2 (get_topology flat_el) = inr ids
    ∧ (∀ e, is_Some (edges !! e) →
         ∃ l, dofs_of ids 1 e = Some l ∧ zlen l = degree)
    ∧ (∀ l, dofs_of ids 2 0 = Some l → zlen l = face_dofs)
    ∧ dof_count ids = 4 * degree + face_dofs
    ∧ space_dimension self = inr (dof_count ids)
    ∧ basis self !! (0, 0) = Some b
    ∧ len_Array b = 2 * dof_count ids.
Proof.
  intros flat_el topology T face_dofs Hdeg Hdim Hc Hlo Hhi Hedges Hsize Hfaces
    Hclosure Hunflat.
  destruct (Edge_2d_counts ref_el degree lo hi edges Hdeg Hdim Hc Hlo Hhi
              Hedges Hsize Hfaces Hclosure Hunflat)
    as (self & ids & b & Hself & Halloc & Hperm & HN & Hdim' & Hb & Hlen
        & Hedge & Hface).
  assert (Hcount : dof_count ids = 4 * degree + face_dofs).
  { pose proof (zlen_range 0 _ HN) as Hz. unfold zlen in Hz.
    rewrite Z.sub_0_r in Hz. unfold dof_count. rewrite Hperm. exact Hz. }
  exists self, ids, b. rewrite Hcount. by repeat split.
Qed.

(** On a 2D cell the entity-DOF map of an Edge element does partition
    [[0, space_dimension())]: every index below the space dimension occurs
    in the lists exactly once, and nothing else occurs. *)
Lemma entity_dofs_partition_2d_edge (ref_el : RefEl) (degree : Z) lo hi edges :
  let flat_el := flatten_reference_cube ref_el in
  let topology := ref_get_topology ref_el in
  1 ≤ degree →
  get_spatial_dimension flat_el = 2 →
  corners (get_vertices flat_el) lo hi →
  (2 ≤ length lo)%nat → (2 ≤ length hi)%nat →
  get_topology flat_el !! 1 = Some edges → size edges = 4%nat →
  is_Some (get_topology flat_el !! 2) →
  (∀ ids, covers (get_topology flat_el) ids →
          covers (get_topology flat_el) (make_entity_closure_ids flat_el ids)) →
  unflattening_ready topology (get_topology flat_el)
    (compute_unflattening_map topology) →
  ∃ (self : Elt) ids N,
    Edge ref_el degree = inr self
    ∧ allocate_entity_ids degree 2 (get_topology flat_el) = inr ids
    ∧ space_dimension self = inr N
    ∧ all_dofs ids ≡ₚ range 0 N.
Proof.
  intros flat_el topology Hdeg Hdim Hc Hlo Hhi Hedges Hsize Hfaces
    Hclosure Hunflat.
  destruct (Edge_2d_counts ref_el degree lo hi edges Hdeg Hdim Hc Hlo Hhi
              Hedges Hsize Hfaces Hclosure Hunflat)
    as (self & ids & b & Hself & Halloc & Hperm & HN & Hdim' & Hb & Hlen & _).
  eauto 10.
Qed.

(** On a 2D cell the Face constructor returns no element, whatever the
    degree and the vertices. *)
Lemma Face_2d_never_returns (ref_el : RefEl) (degree : Z) :
  dim_of ref_el = 2 → ∃ e, Face ref_el degree = raise e.
Proof.
  intros Hdim. unfold TrimmedSerendipityFace_init.
  destruct (degree <? 1); [eauto|].
  rewrite Hdim. cbn [Z.eqb negb andb Pos.eqb].
  destruct (raw_terms 2 degree _) as [e|[[EL FL] IL]] eqn:Hraw; [eauto|].
  apply raw_terms_2d_IL in Hraw as ->. rewrite bind_ret. cbn. eauto.
Qed.

(** C6.  On a 2D cell the Face constructor never returns an element, so
    there is no Face basis to compare with the Edge basis: with a valid
    degree and vertices that have two coordinates, it computes the edge and
    face terms and then stops with [UnboundLocalError] on the local [IL],
    which only the 3D path assigns. *)
Theorem Face_2d_unbound_IL (ref_el : RefEl) (degree : Z) (lo hi : list Q) :
  1 ≤ degree →
  dim_of ref_el = 2 →
  corners (get_vertices (flatten_reference_cube ref_el)) lo hi →
  (2 ≤ length lo)%nat → (2 ≤ length hi)%nat →
  Face ref_el degree = raise (UnboundLocalError "IL").
Proof.
  intros Hdeg Hdim Hc Hlo Hhi.
  destruct lo as [|lx [|ly lo]]; [cbn in Hlo; lia..|].
  destruct hi as [|hx [|hy hi]]; [cbn in Hhi; lia..|].
  unfold TrimmedSerendipityFace_init.
  destruct (degree <? 1) eqn:Hlt; [apply Z.ltb_lt in Hlt; lia|].
  rewrite Hdim. cbn [Z.eqb negb andb Pos.eqb].
  by rewrite (raw_terms_2d degree _ lx ly hx hy _ _ Hc).
Qed.

End construction.

Lemma invalid_configuration_raises_witness :
  invalid_configuration 0 2
  ∧ FlatEdge (quadrilateral 0 1) 0 =
      raise (Exception
               "Trimmed Serendipity_k edge elements only valid for k >= 1")
  ∧ FlatFace (quadrilateral 0 1) 0 =
      raise (Exception
               "Trimmed serendipity face elements only valid for k >= 1").
Proof.
  assert (Hbad : invalid_configuration 0 2) by (left; lia).
  split; [exact Hbad|].
  exact (invalid_configuration_raises id flat_entity_closure_ids get_topology
           flat_unflattening_map (quadrilateral 0 1) 0 Hbad).
Defined.


(** A cell of dimension 1 at a valid degree: the constructors answer with
    the dimension message, although the blending factors could not even be
    formed from its vertices. *)
Example interval_is_rejected_before_vertices :
  FlatEdge (interval 0 1) 1 =
    raise (Exception
      "Trimmed Serendipity_k edge elements only valid for dimensions 2 and 3")
  ∧ FlatFace (interval 0 1) 1 =
    raise (Exception
      "Trimmed serendipity face elements only valid for dimensions 2 and 3")
  ∧ raw_terms 1 1 (get_vertices (interval 0 1)) = raise IndexError.
Proof. repeat split; reflexivity. Qed.

Lemma unsupported_queries_raise_witness :
  ∃ self : FlatElement,
    FlatEdge (quadrilateral 0 1) 1 = inr self
    ∧ invalid_configuration 0 2
    ∧ Forall
        (λ r : result unit,
           ∃ m, r = raise (NotImplementedError m)
                ∧ isinstance (NotImplementedError m) cNotImplementedError
                  = true)
        [get_nodal_basis self; get_dual_set self; get_coeffs self;
         dmats self; get_num_members self 0]
    ∧ ∃ cfg_edge cfg_face,
        FlatEdge (quadrilateral 0 1) 0 = raise cfg_edge
        ∧ FlatFace (quadrilateral 0 1) 0 = raise cfg_face
        ∧ isinstance cfg_edge cNotImplementedError = false
        ∧ isinstance cfg_face cNotImplementedError = false.
Proof.
  assert (Hbad : invalid_configuration 0 2) by (left; lia).
  eexists. split; [vm_compute; reflexivity|]. split; [exact Hbad|].
  exact (unsupported_queries_raise id flat_entity_closure_ids get_topology
           flat_unflattening_map _ 0 (quadrilateral 0 1) 0 Hbad).
Defined.

Lemma Face_2d_unbound_IL_witness :
  FlatFace (quadrilateral 0 1) 1 = raise (UnboundLocalError "IL").
Proof.
  apply (Face_2d_unbound_IL id flat_entity_closure_ids get_topology
           flat_unflattening_map (quadrilateral 0 1) 1 [0%Q; 0%Q] [1%Q; 1%Q]).
  - lia.
  - reflexivity.
  - split; reflexivity.
  - simpl; lia.
  - simpl; lia.
Defined.

Lemma flat_entity_closure_covers (cell : FlatCell) (ids : entity_map) :
  covers (get_topology cell) (flat_entity_closure_ids cell ids).
Proof.
  intros d entities Hd e vs He. unfold dofs_of, flat_entity_closure_ids.
  rewrite lookup_fmap, Hd. cbn. rewrite lookup_fmap, He. cbn. eauto.
Qed.

Lemma quad_unflattening_ready :
  unflattening_ready quad_topology quad_topology
    (flat_unflattening_map quad_topology).
Proof. apply (bool_decide_unpack _). vm_compute. exact I. Qed.

Lemma hex_unflattening_ready :
  unflattening_ready hex_topology hex_topology
    (flat_unflattening_map hex_topology).
Proof. apply (bool_decide_unpack _). vm_compute. exact I. Qed.

Lemma space_dimension_2d_edge_witness :
  ∃ (self : FlatElement) ids b,
    FlatEdge (quadrilateral 0 1) 2 = inr self
    ∧ allocate_entity_ids 2 2 quad_topology = inr ids
    ∧ (∀ e, is_Some ((quad_topology !!! 1 : gmap Z (list Z)) !! e) →
         ∃ l, dofs_of ids 1 e = Some l ∧ zlen l = 2)
    ∧ (∀ l, dofs_of ids 2 0 = Some l → zlen l = 2)
    ∧ dof_count ids = 10
    ∧ space_dimension self = inr (dof_count ids)
    ∧ basis self !! (0, 0) = Some b
    ∧ len_Array b = 2 * dof_count ids.
Proof.
  apply (space_dimension_2d_edge id flat_entity_closure_ids get_topology
           flat_unflattening_map (quadrilateral 0 1) 2
           [0%Q; 0%Q] [1%Q; 1%Q] (quad_topology !!! 1)).
  - lia.
  - reflexivity.
  - split; reflexivity.
  - simpl; lia.
  - simpl; lia.
  - reflexivity.
  - reflexivity.
  - vm_compute. eauto.
  - intros ids _. apply flat_entity_closure_covers.
  - exact quad_unflattening_ready.
Defined.

Lemma edge_block_2d_witness :
  ∃ (self : FlatElement) b,
    FlatEdge (quadrilateral 0 1) 2 = inr self
    ∧ basis self !! (0, 0) = Some b
    ∧ b = e_lambda_1_2d_part_one unit_dx unit_dy unit_x_mid unit_y_mid 2
          ++ trimmed_f_lambda_2d unit_dx unit_dy unit_x_mid unit_y_mid 2
    ∧ zlen (e_lambda_1_2d_part_one unit_dx unit_dy unit_x_mid unit_y_mid 2) = 8
    ∧ (∀ j, 0 ≤ j < 2 →
         e_lambda_1_2d_part_one unit_dx unit_dy unit_x_mid unit_y_mid 2
           !! Z.to_nat j
         = Some [Int 0; - leg j unit_y_mid * at0 unit_dx]%E
         ∧ e_lambda_1_2d_part_one unit_dx unit_dy unit_x_mid unit_y_mid 2
             !! Z.to_nat (2 + j)
           = Some [Int 0; - leg j unit_y_mid * at1 unit_dx]%E
         ∧ e_lambda_1_2d_part_one unit_dx unit_dy unit_x_mid unit_y_mid 2
             !! Z.to_nat (2 * 2 + j)
           = Some [- leg j unit_x_mid * at0 unit_dy; Int 0]%E
         ∧ e_lambda_1_2d_part_one unit_dx unit_dy unit_x_mid unit_y_mid 2
             !! Z.to_nat (3 * 2 + j)
           = Some [- leg j unit_x_mid * at1 unit_dy; Int 0]%E)
    ∧ (∀ t,
         t ∈ e_lambda_tilde_1_2d_part_two unit_dx unit_dy unit_x_mid
               unit_y_mid 2 →
         t ∉ b).
Proof.
  apply (edge_block_2d id flat_entity_closure_ids get_topology
           flat_unflattening_map (quadrilateral 0 1) 2 0%Q 0%Q 1%Q 1%Q
           [0%Q; 0%Q] [1%Q; 1%Q] (quad_topology !!! 1)).
  - lia.
  - reflexivity.
  - split; reflexivity.
  - reflexivity.
  - reflexivity.
  - reflexivity.
  - reflexivity.
  - reflexivity.
  - vm_compute. eauto.
  - intros ids _. apply flat_entity_closure_covers.
  - exact quad_unflattening_ready.
Defined.

(** C4 as stated fails at degree 1 on the unit square: the assembled basis
    has 4 terms, the edge block with its closing terms would have 8, so the
    basis does not start with that block; and at the sample point no basis
    term takes the values of any closing term. *)
Lemma edge_block_tilde_counterexample :
  ∃ (self : FlatElement) b,
    FlatEdge (quadrilateral 0 1) 1 = inr self
    ∧ basis self !! (0, 0) = Some b
    ∧ zlen b = 4
    ∧ zlen (e_lambda_1_2d unit_dx unit_dy unit_x_mid unit_y_mid 1) = 4 * 1 + 4
    ∧ ¬ (∃ rest,
           b = e_lambda_1_2d unit_dx unit_dy unit_x_mid unit_y_mid 1 ++ rest)
    ∧ forallb
        (λ t, forallb (λ u, negb (same_values sample_point t u)) b)
        (e_lambda_tilde_1_2d_part_two unit_dx unit_dy unit_x_mid unit_y_mid 1)
      = true.
Proof.
  eexists _, _. split; [vm_compute; reflexivity|].
  split; [vm_compute; reflexivity|].
  split; [reflexivity|]. split; [reflexivity|]. split.
  - intros [rest Hrest]. apply (f_equal length) in Hrest.
    rewrite length_app in Hrest. vm_compute in Hrest. lia.
  - vm_compute. reflexivity.
Qed.

Lemma interior_dofs_3d_witness :
  ∃ ids l,
    allocate_entity_ids 6 3 hex_topology = inr ids
    ∧ dofs_of ids 3 0 = Some l
    ∧ zlen l = interior_dof_count 6
    ∧ (6 < 4 → zlen l = 0)
    ∧ (6 = 4 → zlen l = 6)
    ∧ (6 = 5 → zlen l = 11)
    ∧ (6 ≤ 6 →
       zlen l = 6 + 3 * (6 - 4)
                + zsum (λ i, 3 * Z.of_nat (binomial (Z.to_nat i + 2) 2))
                    (range 0 (6 - 5 + 1))).
Proof.
  apply (interior_dofs_3d 6 hex_topology (hex_topology !!! 1)
           (hex_topology !!! 2)).
  - lia.
  - reflexivity.
  - reflexivity.
Defined.

(** C2.  On the unit hexahedron at degree 1 the Edge element is constructed,
    the allocator hands out the indices 0..11 (one per edge), and
    [space_dimension()] is 18: the indices 12..17 belong to no entity, so the
    entity-DOF map does not partition [[0, space_dimension())]. *)
Theorem entity_dofs_hexahedron_mismatch :
  ∃ (edge : FlatElement) ids,
    FlatEdge (hexahedron 0 1) 1 = inr edge
    ∧ allocate_entity_ids 1 3 hex_topology = inr ids
    ∧ entity_dofs edge = ids
    ∧ all_dofs ids ≡ₚ range 0 12
    ∧ space_dimension edge = inr 18
    ∧ ¬ (all_dofs (entity_dofs edge) ≡ₚ range 0 18)
    ∧ Forall (λ i, i ∉ all_dofs (entity_dofs edge)) (range 12 18).
Proof.
  eexists _, _.
  split; [vm_compute; reflexivity|]. split; [vm_compute; reflexivity|].
  split; [vm_compute; reflexivity|]. split.
  { rewrite <-(merge_sort_Permutation Z.le). vm_compute. reflexivity. }
  split; [vm_compute; reflexivity|]. split.
  { intros Hp. apply Permutation_length in Hp. vm_compute in Hp. lia. }
  apply Forall_forall. intros i Hi Hin. apply elem_of_range in Hi.
  vm_compute in Hin.
  repeat (apply elem_of_cons in Hin as [->|Hin]; [lia|]).
  by apply elem_of_nil in Hin.
Qed.

(** The same gap for the Face element of degree 4 on the hexahedron:
    [space_dimension()] is 117 and 102 indices are allocated. *)
Example face_hexahedron_degree_4_counts :
  (e ← FlatFace (hexahedron 0 1) 4; space_dimension e) = inr 117
  ∧ (ids ← allocate_entity_ids 4 3 hex_topology; mret (dof_count ids))
    = inr 102.
Proof. split; vm_compute; reflexivity. Qed.

(** ** Tabulation: the derivative cache *)

Section tabulate_cache.
Context {num sval : Type}.
Variable zero : num.
Variable evalf : expr → list (var * num) → sval.
Variable to_float : sval → result num.

Local Abbreviation cache := (gmap (Z * Z) (list term)).
Local Abbreviation tables := (gmap (Z * Z) (tensor num)).
Local Abbreviation differentiator := (expr → list (var * Z) → expr).
Local Abbreviation pass diff := (tabulate_pass zero diff evalf to_float).
Local Abbreviation from_cache := (tables_from_cache zero evalf to_float).

Lemma stateful_bind_run {S A B} (m : stateful S A) (f : A → stateful S B) s :
  (m ≫= f) s =
    match m s with
    | (inl e, s') => (inl e, s')
    | (inr a, s') => f a s'
    end.
Proof. reflexivity. Qed.

Lemma for_each_stateful_app {A B S} (body : A → B → stateful S B) l k acc s :
  for_each body (l ++ k) acc s
  = (acc' ← for_each body l acc; for_each body k acc') s.
Proof.
  revert acc s. induction l as [|a l IH]; intros acc s; [done|].
  cbn [for_each app]. unfold mbind, stateful_bind.
  destruct (body a acc s) as [[e|acc1] s1]; [done|]. by rewrite IH.
Qed.

Lemma for_each_stateful_nested {A B C S} (f : A → list C)
    (body : C → B → stateful S B) os acc s :
  for_each (λ o acc, for_each body (f o) acc) os acc s
  = for_each body (os ≫= f) acc s.
Proof.
  revert acc s. induction os as [|o os IH]; intros acc s; [done|].
  rewrite bind_cons, for_each_stateful_app. cbn [for_each].
  unfold mbind, stateful_bind.
  destruct (for_each body (f o) acc s) as [[e|acc1] s1]; [done|]. by rewrite IH.
Qed.

Lemma tabulate_loops_pass (diff : differentiator) (mis : Z → Z → list (Z * Z))
    (order : Z) (points : list (list num)) (basis : cache) :
  tabulate_loops zero diff evalf to_float mis order points basis
  = pass diff points (range 0 (order + 1) ≫= mis 2) ∅ basis.
Proof. apply for_each_stateful_nested. Qed.

(** A hit returns the stored array and leaves the cache alone, whatever the
    differentiation function is. *)
Lemma cached_derivative_hit (diff : differentiator) (alpha : Z * Z)
    (basis : cache) (polynomials : list term) :
  basis !! alpha = Some polynomials →
  cached_derivative diff alpha basis = (inr polynomials, basis).
Proof. intros Hhit. unfold cached_derivative, getitem. by rewrite Hhit. Qed.

(** What a lookup does to the cache. *)
Lemma cached_derivative_cases (diff : differentiator) (alpha : Z * Z)
    (basis : cache) :
  (∃ polynomials basis',
     cached_derivative diff alpha basis = (inr polynomials, basis')
     ∧ basis ⊆ basis' ∧ basis' !! alpha = Some polynomials)
  ∨ (cached_derivative diff alpha basis = (inl KeyError, basis)
     ∧ basis !! alpha = None ∧ basis !! (0, 0) = None).
Proof.
  unfold cached_derivative, getitem.
  destruct (basis !! alpha) as [polys|] eqn:Ha.
  - left. exists polys, basis. by repeat split.
  - run_result. destruct (basis !! (0, 0)) as [b|] eqn:H0.
    + left. eexists _, _. split; [reflexivity|]. split.
      * by apply insert_subseteq.
      * apply lookup_insert_eq.
    + right. by repeat split.
Qed.

Lemma tabulate_pass_nil (diff : differentiator) (points : list (list num))
    (phivals : tables) (basis : cache) :
  pass diff points [] phivals basis = (inr phivals, basis).
Proof. reflexivity. Qed.

Lemma tabulate_pass_cons (diff : differentiator) (points : list (list num))
    (alpha : Z * Z) (alphas : list (Z * Z)) (phivals : tables) (basis : cache) :
  pass diff points (alpha :: alphas) phivals basis =
    match cached_derivative diff alpha basis with
    | (inl e, basis1) => (inl e, basis1)
    | (inr polynomials, basis1) =>
        match table zero evalf to_float polynomials points with
        | inl e => (inl e, basis1)
        | inr T =>
            pass diff points alphas (<[alpha := T]> phivals) basis1
        end
    end.
Proof.
  unfold tabulate_pass. cbn [for_each].
  unfold tabulate_alpha, mbind, stateful_bind, lift.
  destruct (cached_derivative diff alpha basis) as [[e|polys] basis1]; [done|].
  by destruct (table zero evalf to_float polys points).
Qed.

(** Replaying a pass on the cache it left behind gives the same outcome and
    changes nothing, whatever differentiation function is supplied: no
    derivative is computed again. *)
Lemma tabulate_pass_replay (diff : differentiator) (points : list (list num))
    (alphas : list (Z * Z)) (phivals : tables) (basis basis' : cache)
    (r : result tables) :
  pass diff points alphas phivals basis = (r, basis') →
  basis ⊆ basis'
  ∧ ∀ diff' : differentiator,
      pass diff' points alphas phivals basis' = (r, basis').
Proof.
  revert phivals basis.
  induction alphas as [|alpha alphas IH]; intros phivals basis Hrun.
  - rewrite tabulate_pass_nil in Hrun. injection Hrun as <- <-. by split.
  - rewrite tabulate_pass_cons in Hrun.
    destruct (cached_derivative_cases diff alpha basis)
      as [(polys & basis1 & Hc & Hsub & Hin) | (Hc & Ha & H0)];
      rewrite Hc in Hrun.
    + destruct (table zero evalf to_float polys points) as [e|T] eqn:HT.
      * injection Hrun as <- <-. split; [done|]. intros diff'.
        rewrite tabulate_pass_cons, (cached_derivative_hit diff' _ _ _ Hin).
        by rewrite HT.
      * destruct (IH _ _ Hrun) as [Hsub' Hreplay].
        split; [by etrans|]. intros diff'.
        assert (Hin' : basis' !! alpha = Some polys)
          by (by eapply lookup_weaken).
        rewrite tabulate_pass_cons, (cached_derivative_hit diff' _ _ _ Hin').
        rewrite HT. apply Hreplay.
    + injection Hrun as <- <-. split; [done|]. intros diff'.
      rewrite tabulate_pass_cons.
      destruct (cached_derivative_cases diff' alpha basis)
        as [(polys & basis1 & Hc' & _ & Hin) | (Hc' & _ & _)];
        [|by rewrite Hc'].
      exfalso. unfold cached_derivative, getitem in Hc'.
      rewrite Ha, H0 in Hc'. discriminate.
Qed.

(** A pass that returns only adds tables, each one that of a cached
    derivative. *)
Lemma tabulate_pass_extends (diff : differentiator) (points : list (list num))
    (alphas : list (Z * Z)) (phivals phivals' : tables) (basis basis' : cache) :
  pass diff points alphas phivals basis = (inr phivals', basis') →
  from_cache points phivals basis →
  phivals ⊆ phivals' ∧ from_cache points phivals' basis'.
Proof.
  revert phivals basis.
  induction alphas as [|alpha alphas IH]; intros phivals basis Hrun Hinv.
  - rewrite tabulate_pass_nil in Hrun. injection Hrun as <- <-. by split.
  - rewrite tabulate_pass_cons in Hrun.
    destruct (cached_derivative_cases diff alpha basis)
      as [(polys & basis1 & Hc & Hsub & Hin) | (Hc & Ha & H0)];
      rewrite Hc in Hrun; [|discriminate].
    destruct (table zero evalf to_float polys points) as [e|T] eqn:HT;
      [discriminate|].
    destruct (IH _ _ Hrun) as [Hsub' Hinv'].
    + intros alpha' T' Hl.
      destruct (decide (alpha = alpha')) as [<-|Hne].
      * rewrite lookup_insert_eq in Hl. injection Hl as <-. eauto.
      * rewrite lookup_insert_ne in Hl by done.
        destruct (Hinv _ _ Hl) as (polys' & Hb & HT').
        exists polys'. split; [by eapply lookup_weaken|done].
    + split; [|done]. etrans; [|exact Hsub'].
      apply map_subseteq_spec. intros alpha' T' Hl.
      destruct (decide (alpha = alpha')) as [<-|Hne].
      * rewrite lookup_insert_eq.
        destruct (Hinv _ _ Hl) as (polys' & Hb & HT').
        assert (polys' = polys) as ->.
        { eapply lookup_weaken in Hb; [|exact Hsub]. congruence. }
        congruence.
      * by rewrite lookup_insert_ne.
Qed.

(** *** The whole of [tabulate] *)

Context {RefEl odim edim : Type} `{Countable odim}.
Variable mis : Z → Z → list (Z * Z).
Variable get_dimension : RefEl → edim.
Variable get_entity_transform : RefEl → edim → Z → list num → list num.

Local Abbreviation Elt := (@Element RefEl odim _ _).
Local Abbreviation tab diff :=
  (tabulate zero diff evalf to_float mis get_dimension get_entity_transform).
Local Abbreviation frame :=
  (transformed_points get_dimension get_entity_transform).

Lemma tabulate_pass_eq (diff : differentiator) (self : Elt) (order : Z)
    (points : list (list num)) (entity : option (edim * Z)) :
  tab diff self order points entity =
    let run := pass diff (frame self points entity)
                 (range 0 (order + 1) ≫= mis 2) ∅ (basis self) in
    (fst run, set_basis self (snd run)).
Proof.
  unfold tabulate. rewrite tabulate_loops_pass.
  by destruct (tabulate_pass _ _ _ _ _ _ _ _) as [r b].
Qed.

Lemma frame_set_basis (self : Elt) b points entity :
  frame (set_basis self b) points entity = frame self points entity.
Proof. reflexivity. Qed.

Lemma set_basis_set_basis (self : Elt) b b' :
  set_basis (set_basis self b) b' = set_basis self b'.
Proof. reflexivity. Qed.

(** C7.  Calling [tabulate] again on the element a first call left behind,
    with the same order, points and entity, returns the identical outcome and
    leaves the element as it is, and this whatever differentiation function
    the second call is given: nothing is differentiated again.  Entries of
    the cache are never dropped or overwritten, a table of a multi-index that
    was in the cache before the call is evaluated from the cached array, and
    a later call with an order at least as large returns, for every
    multi-index of the first result, the same table. *)
Theorem tabulate_cache_coherent (diff diff' : differentiator) (self : Elt)
    (order order' : Z) (points : list (list num))
    (entity : option (edim * Z)) :
  let call1 := tab diff self order points entity in
  let call2 := tab diff' (snd call1) order points entity in
  let call3 := tab diff' (snd call1) order' points entity in
  call2 = call1
  ∧ basis self ⊆ basis (snd call1)
  ∧ basis (snd call1) ⊆ basis (snd call3)
  ∧ (∀ phi1 alpha polynomials T,
       fst call1 = inr phi1 → basis self !! alpha = Some polynomials →
       phi1 !! alpha = Some T →
       table zero evalf to_float polynomials (frame self points entity) = inr T)
  ∧ (order ≤ order' →
     ∀ phi1 phi3, fst call1 = inr phi1 → fst call3 = inr phi3 → phi1 ⊆ phi3).
Proof.
  cbn zeta. rewrite !tabulate_pass_eq. cbn zeta. cbn [fst snd].
  rewrite !frame_set_basis, !set_basis_set_basis.
  set (pts := frame self points entity).
  destruct (pass diff pts (range 0 (order + 1) ≫= mis 2) ∅ (basis self))
    as [r1 b1] eqn:Hrun1.
  destruct (tabulate_pass_replay _ _ _ _ _ _ _ Hrun1) as [Hsub1 Hreplay].
  cbn [fst snd basis set_basis].
  split; [by rewrite Hreplay|]. split; [done|].
  destruct (pass diff' pts (range 0 (order' + 1) ≫= mis 2) ∅ b1)
    as [r3 b3] eqn:Hrun3.
  destruct (tabulate_pass_replay _ _ _ _ _ _ _ Hrun3) as [Hsub3 _].
  cbn [fst snd]. split; [done|]. split.
  - intros phi1 alpha polys T -> Hcached HT.
    destruct (tabulate_pass_extends _ _ _ _ _ _ _ Hrun1) as [_ Hinv];
      [by intros ???|].
    destruct (Hinv _ _ HT) as (polys' & Hb & Htable).
    eapply lookup_weaken in Hcached; [|exact Hsub1]. congruence.
  - intros Hle phi1 phi3 -> ->.
    destruct (tabulate_pass_extends _ _ _ _ _ _ _ Hrun1) as [_ Hinv1];
      [by intros ???|].
    destruct (decide (order + 1 ≤ 0)) as [Hneg|Hpos].
    { rewrite range_nil in Hrun1 by lia. unfold tabulate_pass in Hrun1.
      cbn in Hrun1. injection Hrun1 as <- _. apply map_empty_subseteq. }
    rewrite (range_app 0 (order + 1) (order' + 1)), bind_app in Hrun3 by lia.
    unfold tabulate_pass in Hrun3. rewrite for_each_stateful_app in Hrun3.
    rewrite stateful_bind_run in Hrun3.
    pose proof (Hreplay diff') as Hagain. unfold tabulate_pass in Hagain.
    rewrite Hagain in Hrun3.
    by destruct (tabulate_pass_extends diff' pts _ _ _ _ _ Hrun3 Hinv1).
Qed.

End tabulate_cache.

(** ** Tabulation: what a table holds *)

Section table_facts.
Context {num sval : Type}.
Variable zero : num.
Variable evalf : expr → list (var * num) → sval.
Variable to_float : sval → result num.

Local Abbreviation tbl := (table zero evalf to_float).
Local Abbreviation filled := (point_filled evalf to_float).

Lemma shape_of_zeros n m : shape_of (zeros zero n m) = replicate n [m; m].
Proof.
  unfold shape_of, zeros. rewrite fmap_replicate. cbn.
  by rewrite length_replicate.
Qed.

Lemma shape_of_setitem3 (T : tensor num) j c i v :
  shape_of (setitem3 T j c i v) = shape_of T.
Proof.
  unfold shape_of, setitem3. apply list_eq. intros j'.
  rewrite !list_lookup_fmap.
  destruct (decide (j = j')) as [<-|Hj];
    [|by rewrite list_lookup_alter_ne].
  rewrite list_lookup_alter_eq. destruct (T !! j) as [row|]; [|done]. cbn.
  f_equal. apply list_eq. intros c'. rewrite !list_lookup_fmap.
  destruct (decide (c = c')) as [<-|Hc];
    [|by rewrite list_lookup_alter_ne].
  rewrite list_lookup_alter_eq. destruct (row !! c) as [comp|]; [|done]. cbn.
  by rewrite length_insert.
Qed.

Lemma get3_setitem3_eq (T : tensor num) j c i v :
  is_Some (get3 T j c i) → get3 (setitem3 T j c i v) j c i = Some v.
Proof.
  unfold get3, setitem3. intros [a Ha].
  rewrite list_lookup_alter_eq.
  destruct (T !! j) as [row|]; [|done]. cbn in *.
  rewrite list_lookup_alter_eq.
  destruct (row !! c) as [comp|]; [|done]. cbn in *.
  apply list_lookup_insert_eq. by apply lookup_lt_Some in Ha.
Qed.

Lemma get3_setitem3_ne (T : tensor num) j c i v j' c' i' :
  j' ≠ j ∨ c' ≠ c ∨ i' ≠ i →
  get3 (setitem3 T j c i v) j' c' i' = get3 T j' c' i'.
Proof.
  unfold get3, setitem3. intros Hne.
  destruct (decide (j = j')) as [<-|Hj];
    [|by rewrite list_lookup_alter_ne].
  rewrite list_lookup_alter_eq. destruct (T !! j) as [row|]; [|done]. cbn.
  destruct (decide (c = c')) as [<-|Hc];
    [|by rewrite list_lookup_alter_ne].
  rewrite list_lookup_alter_eq. destruct (row !! c) as [comp|]; [|done]. cbn.
  apply list_lookup_insert_ne. intros ->. by destruct Hne as [?|[?|?]].
Qed.

Lemma get3_in_bounds (T : tensor num) n m j c i :
  shape_of T = replicate n [m; m] →
  (j < n)%nat → (c < 2)%nat → (i < m)%nat → is_Some (get3 T j c i).
Proof.
  intros Hs Hj Hc Hi.
  assert (Hrow : shape_of T !! j = Some [m; m])
    by (rewrite Hs; by apply lookup_replicate_2).
  unfold shape_of in Hrow. rewrite list_lookup_fmap in Hrow.
  unfold get3. destruct (T !! j) as [row|]; [|done]. cbn in *.
  injection Hrow as Hrow.
  destruct row as [|c0 [|c1 [|? ?]]]; try discriminate.
  injection Hrow as H0 H1.
  destruct c as [|[|c]]; [| |lia]; cbn; apply lookup_lt_is_Some; lia.
Qed.

Lemma shape_rows (T : tensor num) n m j :
  shape_of T = replicate n [m; m] → (j < n)%nat →
  ∃ c0 c1, T !! j = Some [c0; c1] ∧ length c0 = m ∧ length c1 = m.
Proof.
  intros Hs Hj.
  assert (Hrow : shape_of T !! j = Some [m; m])
    by (rewrite Hs; by apply lookup_replicate_2).
  unfold shape_of in Hrow. rewrite list_lookup_fmap in Hrow.
  destruct (T !! j) as [row|]; [|done]. cbn in *.
  injection Hrow as Hrow.
  destruct row as [|c0 [|c1 [|? ?]]]; try discriminate.
  injection Hrow as H0 H1. eauto.
Qed.

Lemma index_inr {A} (t : list A) i v : t !! i = Some v → index t i = inr v.
Proof. intros Hi. unfold index. by rewrite Hi. Qed.

Lemma index_inl {A} (t : list A) i : t !! i = None → index t i = inl IndexError.
Proof. intros Hi. unfold index. by rewrite Hi. Qed.

(** [polynomials[:, k]] succeeds when every row has a component [k]. *)
Lemma column_inr k (polynomials : list term) col :
  column k polynomials = inr col →
  length col = length polynomials
  ∧ ∀ j row, polynomials !! j = Some row →
      ∃ f, row !! k = Some f ∧ col !! j = Some f.
Proof.
  unfold column. revert col.
  induction polynomials as [|row0 rows IH]; intros col Hcol.
  - cbn in Hcol. injection Hcol as <-. split; [done|]. by intros [|?] ?.
  - cbn [mapM] in Hcol.
    destruct (row0 !! k) as [f0|] eqn:Hf0;
      [rewrite (index_inr _ _ _ Hf0), bind_ret in Hcol
      |by rewrite (index_inl _ _ Hf0) in Hcol].
    apply bind_inr in Hcol as (col' & Hcol' & Hret).
    injection Hret as <-. destruct (IH _ Hcol') as [Hlen Hrows].
    split; [cbn; by rewrite Hlen|].
    intros [|j] row Hrow; cbn in *; [|by apply Hrows].
    injection Hrow as <-. eauto.
Qed.

(** The substitution built for a point binds [x] and [y], and nothing
    else. *)
Lemma make_subs_inr (point : list num) subs :
  make_subs point = inr subs →
  ∃ p0 p1, point !! 0%nat = Some p0 ∧ point !! 1%nat = Some p1
           ∧ subs = [(x, p0); (y, p1)].
Proof.
  unfold make_subs, enumerate. cbn. unfold index.
  destruct (point !! 0%nat) as [p0|]; [|discriminate].
  destruct (point !! 1%nat) as [p1|]; [|discriminate].
  run_result. intros [= <-]. eauto.
Qed.

(** One inner loop: component [c] at point [i], for every row. *)
Lemma fill_column (g : expr → result num) (c i : nat) (col : list expr) :
  ∀ (off : nat) (T T' : tensor num),
    for_each
      (λ '(j, f) T, v ← g f; mret (setitem3 T j c i v))
      (imap (λ k f, ((off + k)%nat, f)) col) T = inr T' →
    (∀ k, (k < length col)%nat → is_Some (get3 T (off + k) c i)) →
    shape_of T' = shape_of T
    ∧ (∀ k f, col !! k = Some f →
         ∃ v, g f = inr v ∧ get3 T' (off + k) c i = Some v)
    ∧ (∀ j' c' i',
         c' ≠ c ∨ i' ≠ i ∨ (j' < off)%nat ∨ (off + length col ≤ j')%nat →
         get3 T' j' c' i' = get3 T j' c' i').
Proof.
  induction col as [|f0 col IH]; intros off T T' Hrun Hin.
  - cbn in Hrun. injection Hrun as <-. split; [done|]. split; [|done].
    by intros k f Hk.
  - rewrite imap_cons in Hrun. cbn [for_each] in Hrun.
    apply bind_inr in Hrun as (T1 & Hstep & Hrun).
    apply bind_inr in Hstep as (v0 & Hg & HT1). injection HT1 as <-.
    rewrite (imap_ext _ (λ k f, ((S off + k)%nat, f))) in Hrun
      by (intros k f _; cbn; f_equal; lia).
    destruct (IH (S off) _ _ Hrun) as (Hshape & Hvals & Hother).
    { intros k Hk. rewrite get3_setitem3_ne by lia.
      replace (S off + k)%nat with (off + S k)%nat by lia.
      apply Hin. cbn. lia. }
    split; [by rewrite Hshape, shape_of_setitem3|]. split.
    + intros [|k] f Hf; cbn in Hf.
      * injection Hf as <-. exists v0. split; [done|].
        rewrite Hother by lia. apply get3_setitem3_eq.
        apply Hin. cbn. lia.
      * destruct (Hvals k f Hf) as (v & Hv & Hget). exists v. split; [done|].
        by replace (off + S k)%nat with (S off + k)%nat by lia.
    + intros j' c' i' Hne. cbn [length] in Hne.
      rewrite Hother by lia. apply get3_setitem3_ne. lia.
Qed.

(** The outer loop over the points. *)
Lemma fill_points (polynomials : list term) (points : list (list num))
    (indices : list nat) :
  ∀ T T' : tensor num,
    for_each
      (λ i T,
         point ← index points i;
         subs ← make_subs point;
         col0 ← column 0 polynomials;
         T ← for_each
               (λ '(j, f) T,
                  v ← to_float (evalf f subs); mret (setitem3 T j 0 i v))
               (enumerate col0) T;
         col1 ← column 1 polynomials;
         for_each
           (λ '(j, f) T,
              v ← to_float (evalf f subs); mret (setitem3 T j 1 i v))
           (enumerate col1) T)
      indices T = inr T' →
    NoDup indices →
    (∀ i, i ∈ indices → (i < length points)%nat) →
    shape_of T
      = replicate (length polynomials) [length points; length points] →
    shape_of T' = shape_of T
    ∧ (∀ i, i ∈ indices → filled polynomials points T' i)
    ∧ (∀ j c i, i ∉ indices → get3 T' j c i = get3 T j c i).
Proof.
  induction indices as [|i indices IH]; intros T T' Hrun Hnd Hlt Hshape.
  - cbn in Hrun. injection Hrun as <-. split; [done|]. split; [|done].
    intros i Hi. by apply elem_of_nil in Hi.
  - cbn [for_each] in Hrun. apply bind_inr in Hrun as (T2 & Hstep & Hrun).
    apply bind_inr in Hstep as (p & Hp & Hstep).
    apply bind_inr in Hstep as (subs & Hsubs & Hstep).
    apply bind_inr in Hstep as (col0 & Hcol0 & Hstep).
    apply bind_inr in Hstep as (T1 & Hfill0 & Hstep).
    apply bind_inr in Hstep as (col1 & Hcol1 & Hfill1).
    apply make_subs_inr in Hsubs as (p0 & p1 & Hp0 & Hp1 & ->).
    unfold index in Hp. destruct (points !! i) as [p'|] eqn:Hpi; [|discriminate].
    injection Hp as ->.
    destruct (column_inr _ _ _ Hcol0) as [Hlen0 Hrows0].
    destruct (column_inr _ _ _ Hcol1) as [Hlen1 Hrows1].
    apply NoDup_cons in Hnd as [Hi Hnd].
    assert (Hil : (i < length points)%nat) by (apply Hlt; by left).
    destruct (fill_column (λ f, to_float (evalf f [(x, p0); (y, p1)]))
                0 i col0 0 T T1 Hfill0) as (Hs1 & Hv1 & Ho1).
    { intros k Hk. eapply get3_in_bounds; [exact Hshape|lia..]. }
    destruct (fill_column (λ f, to_float (evalf f [(x, p0); (y, p1)]))
                1 i col1 0 T1 T2 Hfill1) as (Hs2 & Hv2 & Ho2).
    { intros k Hk. eapply get3_in_bounds; [by rewrite Hs1|lia..]. }
    destruct (IH T2 T' Hrun Hnd) as (Hs3 & Hv3 & Ho3).
    { intros i' Hi'. apply Hlt. by right. }
    { by rewrite Hs2, Hs1. }
    split; [by rewrite Hs3, Hs2, Hs1|]. split.
    + intros i' Hi'. apply elem_of_cons in Hi' as [->|Hi']; [|by apply Hv3].
      exists p, p0, p1. repeat split; try done.
      intros j row Hrow.
      destruct (Hrows0 j row Hrow) as (f0 & Hf0 & Hc0).
      destruct (Hrows1 j row Hrow) as (f1 & Hf1 & Hc1).
      destruct (Hv1 j f0 Hc0) as (a0 & Ha0 & Hg0).
      destruct (Hv2 j f1 Hc1) as (a1 & Ha1 & Hg1).
      exists f0, f1, a0, a1. repeat split; try done.
      * rewrite Ho3 by done. rewrite Ho2 by lia. exact Hg0.
      * rewrite Ho3 by done. exact Hg1.
    + intros j c i' Hi'. apply not_elem_of_cons in Hi' as [Hne Hi'].
      rewrite Ho3 by done. rewrite Ho2 by lia. apply Ho1. lia.
Qed.

(** What a returned table holds: one row per basis entry, exactly two
    component slots per row, one value per point in each, and every value is
    the conversion of [evalf] of component 0 or 1 under the substitution of
    [x] and [y] alone. *)
Lemma table_inr (polynomials : list term) (points : list (list num))
    (T : tensor num) :
  tbl polynomials points = inr T →
  shape_of T = replicate (length polynomials) [length points; length points]
  ∧ ∀ i, (i < length points)%nat → filled polynomials points T i.
Proof.
  unfold table. intros Hrun.
  apply bind_inr in Hrun as (col0 & Hcol0 & Hrun).
  destruct (column_inr _ _ _ Hcol0) as [Hlen0 _]. cbn zeta in Hrun.
  destruct (fill_points polynomials points (seq 0 (length points)) _ _ Hrun)
    as (Hshape & Hvals & _).
  - apply NoDup_seq.
  - intros i Hi. apply elem_of_seq in Hi. lia.
  - by rewrite shape_of_zeros, Hlen0.
  - split; [by rewrite Hshape, shape_of_zeros, Hlen0|].
    intros i Hi. apply Hvals. apply elem_of_seq. lia.
Qed.

Lemma column_two_columns k (polynomials : list term) :
  (k < 2)%nat → column k (two_columns polynomials) = column k polynomials.
Proof.
  intros Hk. unfold column, two_columns.
  induction polynomials as [|row rows IH]; [done|].
  cbn [fmap list_fmap mapM]. rewrite IH. unfold index.
  by rewrite lookup_take_lt.
Qed.

Lemma table_two_columns (polynomials polynomials' : list term) points :
  two_columns polynomials = two_columns polynomials' →
  tbl polynomials points = tbl polynomials' points.
Proof.
  intros Heq. unfold table.
  rewrite <-(column_two_columns 0 polynomials),
    <-(column_two_columns 1 polynomials),
    <-(column_two_columns 0 polynomials'),
    <-(column_two_columns 1 polynomials') by lia.
  by rewrite Heq.
Qed.

Lemma two_columns_diff_Array diff (a a' : list term) spec :
  two_columns a = two_columns a' →
  two_columns (diff_Array diff a spec) = two_columns (diff_Array diff a' spec).
Proof.
  unfold two_columns, diff_Array. intros Heq.
  rewrite <-!list_fmap_compose.
  assert (Hcomm : ∀ l : list term,
    (take 2 ∘ (λ row : term, (λ f, diff f spec) <$> row)) <$> l
    = ((λ row : term, (λ f, diff f spec) <$> row) ∘ take 2) <$> l).
  { intros l. apply list_fmap_ext. intros _ row _. cbn. by rewrite fmap_take. }
  rewrite !Hcomm, !list_fmap_compose. by rewrite Heq.
Qed.

End table_facts.

(** ** Tabulation: only [x], [y] and the first two components count *)

Section tabulate_components.
Context {RefEl odim edim : Type} `{Countable odim} {num sval : Type}.
Variable zero : num.
Variable evalf : expr → list (var * num) → sval.
Variable to_float : sval → result num.
Variable mis : Z → Z → list (Z * Z).
Variable get_dimension : RefEl → edim.
Variable get_entity_transform : RefEl → edim → Z → list num → list num.

Local Abbreviation cache := (gmap (Z * Z) (list term)).
Local Abbreviation tables := (gmap (Z * Z) (tensor num)).
Local Abbreviation differentiator := (expr → list (var * Z) → expr).
Local Abbreviation pass diff := (tabulate_pass zero diff evalf to_float).
Local Abbreviation Elt := (@Element RefEl odim _ _).
Local Abbreviation tab diff :=
  (tabulate zero diff evalf to_float mis get_dimension get_entity_transform).
Local Abbreviation frame :=
  (transformed_points get_dimension get_entity_transform).

Lemma same_two_columns_lookup (basis basis' : cache) (alpha : Z * Z) :
  same_two_columns basis basis' →
  two_columns <$> basis !! alpha = two_columns <$> basis' !! alpha.
Proof. intros Heq. by rewrite <-!lookup_fmap, Heq. Qed.

Lemma cached_derivative_two_columns (diff : differentiator) (alpha : Z * Z)
    (basis basis' : cache) :
  same_two_columns basis basis' →
  (∃ polys polys' b1 b1',
     cached_derivative diff alpha basis = (inr polys, b1)
     ∧ cached_derivative diff alpha basis' = (inr polys', b1')
     ∧ two_columns polys = two_columns polys'
     ∧ same_two_columns b1 b1')
  ∨ (∃ e, cached_derivative diff alpha basis = (inl e, basis)
          ∧ cached_derivative diff alpha basis' = (inl e, basis')).
Proof.
  intros Hsame.
  pose proof (same_two_columns_lookup _ _ alpha Hsame) as Ha.
  pose proof (same_two_columns_lookup _ _ (0, 0) Hsame) as H0.
  unfold cached_derivative, getitem.
  destruct (basis !! alpha) as [polys|], (basis' !! alpha) as [polys'|];
    try discriminate; run_result.
  - left. injection Ha as Ha. eauto 10.
  - destruct (basis !! (0, 0)) as [b|], (basis' !! (0, 0)) as [b'|];
      try discriminate; [|right; eauto].
    left. injection H0 as H0. eexists _, _, _, _.
    split; [reflexivity|]. split; [reflexivity|].
    split; [by apply two_columns_diff_Array|].
    unfold same_two_columns. rewrite !fmap_insert.
    f_equal; [by apply two_columns_diff_Array|done].
Qed.

Lemma tabulate_pass_two_columns (diff : differentiator)
    (points : list (list num)) (alphas : list (Z * Z)) :
  ∀ (phivals : tables) (basis basis' : cache),
    same_two_columns basis basis' →
    fst (pass diff points alphas phivals basis)
    = fst (pass diff points alphas phivals basis').
Proof.
  induction alphas as [|alpha alphas IH]; intros phivals basis basis' Hsame;
    [done|].
  rewrite !tabulate_pass_cons.
  destruct (cached_derivative_two_columns diff alpha _ _ Hsame)
    as [(polys & polys' & b1 & b1' & -> & -> & Hcols & Hsame1)
       | (e & -> & ->)]; [|done].
  rewrite (table_two_columns zero evalf to_float _ _ points Hcols).
  destruct (table zero evalf to_float polys' points); [done|]. by apply IH.
Qed.

(** C10.  In every call of [tabulate]: the substitution built for a point
    binds [x] to its first and [y] to its second coordinate and nothing else,
    so [z] is never given a value; every returned table has one row per
    basis entry with exactly two component slots, filled with the values of
    components 0 and 1 of the entry under that substitution (whether or not
    they mention [z]); and two elements on the same cell whose cached arrays
    agree on components 0 and 1 get the same outcome, so a third component
    has no influence. *)
Theorem tabulate_reads_xy_components (diff : differentiator) (self self' : Elt)
    (order : Z) (points : list (list num)) (entity : option (edim * Z)) :
  let pts := frame self points entity in
  let call := tab diff self order points entity in
  (∀ (point : list num) subs,
     make_subs point = inr subs →
     ∃ p0 p1, point !! 0%nat = Some p0 ∧ point !! 1%nat = Some p1
              ∧ subs = [(x, p0); (y, p1)])
  ∧ (∀ phi alpha T,
       fst call = inr phi → phi !! alpha = Some T →
       ∃ polynomials,
         basis (snd call) !! alpha = Some polynomials
         ∧ shape_of T
           = replicate (length polynomials) [length pts; length pts]
         ∧ ∀ i, (i < length pts)%nat →
             point_filled evalf to_float polynomials pts T i)
  ∧ (ref_el self = ref_el self' →
     same_two_columns (basis self) (basis self') →
     fst (tab diff self' order points entity) = fst call).
Proof.
  cbn zeta. split; [apply make_subs_inr|]. split.
  - rewrite tabulate_pass_eq. cbn zeta. cbn [fst snd basis set_basis].
    intros phi alpha T Hphi HT.
    destruct (pass diff (frame self points entity)
                (range 0 (order + 1) ≫= mis 2) ∅ (basis self))
      as [r b1] eqn:Hrun.
    cbn [fst snd] in *. subst r.
    destruct (tabulate_pass_extends _ _ _ _ _ _ _ _ _ _ Hrun) as [_ Hinv];
      [by intros ???|].
    destruct (Hinv _ _ HT) as (polys & Hb & Htable).
    exists polys. split; [done|]. by apply (table_inr zero).
  - intros Hcell Hsame. rewrite !tabulate_pass_eq. cbn zeta. cbn [fst].
    replace (frame self' points entity) with (frame self points entity)
      by (unfold transformed_points; by rewrite Hcell).
    symmetry. by apply tabulate_pass_two_columns.
Qed.

End tabulate_components.

(** ** Runs on the reference square *)

(** The degree-1 Edge element on the square [[-1, 1]^2], tabulated at the
    origin: four basis functions, two components, one point. *)
Example tabulate_square_degree_1 :
  ∃ self : FlatElement,
    FlatEdge (quadrilateral (-1) 1) 1 = inr self
    ∧ space_dimension self = inr 4
    ∧ fst (Engine.tabulate self 0 [[0%Q; 0%Q]] None)
      = inr {[ (0, 0) := [ [[0%Q]; [(-1 # 2)%Q]]; [[0%Q]; [(-1 # 2)%Q]];
                           [[(-1 # 2)%Q]; [0%Q]]; [[(-1 # 2)%Q]; [0%Q]] ] ]}.
Proof.
  eexists. split; [vm_compute; reflexivity|]. split; vm_compute; reflexivity.
Qed.

(** With this engine a 3D element cannot be tabulated: the second component
    of its first entries mentions [z], which stays symbolic, and the
    conversion to a float fails. *)
Example tabulate_hexahedron_degree_1 :
  ∃ self : FlatElement,
    FlatEdge (hexahedron 0 1) 1 = inr self
    ∧ fst (Engine.tabulate self 0 [[0%Q; 0%Q; 0%Q]] None) = inl TypeError.
Proof.
  eexists. split; [vm_compute; reflexivity|]. vm_compute. reflexivity.
Qed.

Lemma tabulate_cache_coherent_witness :
  ∃ self : FlatElement,
    FlatEdge (quadrilateral (-1) 1) 1 = inr self
    ∧ (let call1 := Engine.tabulate self 0 [[0%Q; 0%Q]] None in
       let call2 := Engine.tabulate (snd call1) 0 [[0%Q; 0%Q]] None in
       let call3 := Engine.tabulate (snd call1) 1 [[0%Q; 0%Q]] None in
       call2 = call1
       ∧ basis self ⊆ basis (snd call1)
       ∧ basis (snd call1) ⊆ basis (snd call3)
       ∧ (∀ phi1 alpha polynomials T,
            fst call1 = inr phi1 → basis self !! alpha = Some polynomials →
            phi1 !! alpha = Some T →
            table 0%Q Engine.evalf Engine.to_float polynomials
              (transformed_points get_spatial_dimension (λ _ _ _ p, p) self
                 [[0%Q; 0%Q]] None) = inr T)
       ∧ (0 ≤ 1 →
          ∀ phi1 phi3, fst call1 = inr phi1 → fst call3 = inr phi3 →
                       phi1 ⊆ phi3)).
Proof.
  eexists. split; [vm_compute; reflexivity|].
  exact (tabulate_cache_coherent 0%Q Engine.evalf Engine.to_float Engine.mis
           get_spatial_dimension (λ _ _ _ p, p) Engine.diff Engine.diff
           _ 0 1 [[0%Q; 0%Q]] None).
Defined.

Lemma tabulate_reads_xy_components_witness :
  ∃ self : FlatElement,
    FlatEdge (quadrilateral (-1) 1) 1 = inr self
    ∧ (let pts := transformed_points get_spatial_dimension (λ _ _ _ p, p)
                    self [[0%Q; 0%Q]] None in
       let call := Engine.tabulate self 1 [[0%Q; 0%Q]] None in
       (∀ (point : list Q) subs,
          make_subs point = inr subs →
          ∃ p0 p1, point !! 0%nat = Some p0 ∧ point !! 1%nat = Some p1
                   ∧ subs = [(x, p0); (y, p1)])
       ∧ (∀ phi alpha T,
            fst call = inr phi → phi !! alpha = Some T →
            ∃ polynomials,
              basis (snd call) !! alpha = Some polynomials
              ∧ shape_of T
                = replicate (length polynomials) [length pts; length pts]
              ∧ ∀ i, (i < length pts)%nat →
                  point_filled Engine.evalf Engine.to_float polynomials pts T i)
       ∧ (ref_el self = ref_el self →
          same_two_columns (basis self) (basis self) →
          fst (Engine.tabulate self 1 [[0%Q; 0%Q]] None) = fst call)).
Proof.
  eexists. split; [vm_compute; reflexivity|].
  exact (tabulate_reads_xy_components 0%Q Engine.evalf Engine.to_float
           Engine.mis get_spatial_dimension (λ _ _ _ p, p) Engine.diff
           _ _ 1 [[0%Q; 0%Q]] None).
Defined.

(** * Further properties of the code

    Properties of the functions that the statements above leave out, or
    cover only in part. *)

(** ** The counting helpers *)

Lemma zsum_app (f : Z → Z) l k : zsum f (l ++ k) = zsum f l + zsum f k.
Proof. unfold zsum. induction l as [|a l IH]; cbn [foldr app]; lia. Qed.



Lemma choose_ijk_total_triangular d :
  0 ≤ d → choose_ijk_total d = triangular_number (d + 1).
Proof.
  intros Hd. rewrite choose_ijk_total_binomial by done.
  rewrite binomial_2. f_equal. lia.
Qed.

Lemma choose_ijk_total_negative (degree : Z) :
  degree < 0 → choose_ijk_total degree = 0.
Proof.
  intros Hneg. unfold choose_ijk_total.
  rewrite (range_nil 1 (degree + 1)) by lia. cbn [foldl].
  destruct (decide (degree = -1)) as [-> | Hne]; [reflexivity|].
  rewrite (range_nil 1 (2 + degree + 1)) by lia. reflexivity.
Qed.

(** X2.  [choose_ijk_total(degree)] is [(degree+1)(degree+2)/2] for a
    non-negative degree, and 0 for a negative one (both factorial loops are
    then empty or stop at 1). *)
Theorem choose_ijk_total_closed_form (degree : Z) :
  choose_ijk_total degree
  = if degree <? 0 then 0 else (degree + 1) * (degree + 2) / 2.
Proof.
  destruct (degree <? 0) eqn:Hneg.
  - apply Z.ltb_lt in Hneg. by apply choose_ijk_total_negative.
  - apply Z.ltb_ge in Hneg.
    rewrite choose_ijk_total_triangular by done.
    rewrite triangular_number_div by lia. f_equal. lia.
Qed.

(** ** How many terms the generators produce *)

Lemma zlen_bind_sum {A B} (f : A → list B) (l : list A) :
  zlen (l ≫= f) = foldr (λ a acc, zlen (f a) + acc) 0 l.
Proof.
  induction l as [|a l IH]; [reflexivity|].
  rewrite bind_cons, zlen_app, IH. reflexivity.
Qed.

Lemma zlen_range_max a b : zlen (range a b) = Z.max 0 (b - a).
Proof.
  destruct (decide (a ≤ b)).
  - rewrite zlen_range by done. lia.
  - rewrite range_nil by lia. rewrite zlen_nil. lia.
Qed.

Section counts_2d.
Variables (dx dy : blend) (x_mid y_mid : expr).

(** X3.  The number of terms of every 2D generator, for every integer
    degree: [4 * max(0, deg)] edge terms, 4 closing terms, and for the face
    [2 * T(deg-2)] trimmed terms plus [max(2, deg)] tilde terms; below
    degree 2 the face generator still returns its two fixed tilde terms. *)
Theorem generators_2d_counts (deg : Z) :
  zlen (e_lambda_1_2d_part_one dx dy x_mid y_mid deg) = 4 * Z.max 0 deg
  ∧ zlen (e_lambda_tilde_1_2d_part_two dx dy x_mid y_mid deg) = 4
  ∧ zlen (e_lambda_1_2d dx dy x_mid y_mid deg) = 4 * Z.max 0 deg + 4
  ∧ zlen (f_lambda_1_2d_trim dx dy x_mid y_mid deg)
    = (if 2 <=? deg then 2 * triangular_number (deg - 2) else 0)
  ∧ zlen (f_lambda_1_2d_tilde dx dy x_mid y_mid deg) = Z.max 2 deg
  ∧ zlen (trimmed_f_lambda_2d dx dy x_mid y_mid deg)
    = (if 2 <=? deg then 2 * triangular_number (deg - 2) + deg else 2).
Proof.
  assert (zlen (e_lambda_1_2d_part_one dx dy x_mid y_mid deg) = 4 * Z.max 0 deg)
    as Hone.
  { unfold e_lambda_1_2d_part_one.
    rewrite !zlen_app, !zlen_fmap, zlen_range_max. lia. }
  assert (zlen (f_lambda_1_2d_trim dx dy x_mid y_mid deg)
          = (if 2 <=? deg then 2 * triangular_number (deg - 2) else 0)) as Htrim.
  { destruct (2 <=? deg) eqn:Hd.
    - apply Z.leb_le in Hd. by apply zlen_f_lambda_1_2d_trim.
    - apply Z.leb_gt in Hd.
      unfold f_lambda_1_2d_trim, determine_f_lambda_portions_2d.
      replace (deg <? 2) with true by (symmetry; apply Z.ltb_lt; lia).
      reflexivity. }
  assert (zlen (f_lambda_1_2d_tilde dx dy x_mid y_mid deg) = Z.max 2 deg)
    as Htilde.
  { unfold f_lambda_1_2d_tilde.
    rewrite !zlen_app, zlen_fmap, zlen_range_max, !zlen_cons, zlen_nil. lia. }
  split_and!; try done.
  - unfold e_lambda_1_2d. rewrite zlen_app, Hone. reflexivity.
  - unfold trimmed_f_lambda_2d. rewrite zlen_app, Htrim, Htilde.
    destruct (2 <=? deg) eqn:Hd;
      [apply Z.leb_le in Hd | apply Z.leb_gt in Hd]; lia.
Qed.

Lemma width_generators_2d (deg : Z) :
  width 2 (e_lambda_1_2d dx dy x_mid y_mid deg)
  ∧ width 2 (trimmed_f_lambda_2d dx dy x_mid y_mid deg).
Proof.
  split; [|apply width_trimmed_f_lambda_2d].
  unfold e_lambda_1_2d. apply width_app; [apply width_e_lambda_1_2d_part_one|].
  by repeat constructor.
Qed.

End counts_2d.

(** *** The triples of the interior generator *)

Lemma StronglySorted_range a b : StronglySorted Z.lt (range a b).
Proof.
  remember (Z.to_nat (b - a)) as n eqn:Hn. revert a Hn.
  induction n as [|n IH]; intros a Hn.
  - rewrite range_nil by lia. constructor.
  - rewrite range_cons by lia. constructor; [apply IH; lia|].
    apply Forall_forall. intros k Hk. apply elem_of_range in Hk. lia.
Qed.

Lemma StronglySorted_bind {A B} (R : relation B) (lt : relation A)
    (f : A → list B) (l : list A) :
  StronglySorted lt l →
  (∀ a, a ∈ l → StronglySorted R (f a)) →
  (∀ a a' b b', a ∈ l → a' ∈ l → lt a a' → b ∈ f a → b' ∈ f a' → R b b') →
  StronglySorted R (l ≫= f).
Proof.
  induction 1 as [|a l Hl IH Ha]; intros Hin Hcross; [constructor|].
  rewrite bind_cons. apply StronglySorted_app_2.
  - intros b b' Hb Hb'. apply list_elem_of_bind in Hb' as (a' & Hb' & Ha').
    apply (Hcross a a'); [left | by right | | done | done].
    rewrite Forall_forall in Ha. by apply Ha.
  - apply Hin. left.
  - apply IH.
    + intros a' Ha'. apply Hin. by right.
    + intros a1 a2 b1 b2 H1 H2. apply Hcross; by right.
Qed.

Lemma zsum_affine c m :
  0 ≤ m → zsum (λ a, c - a) (range 0 m) = c * m - triangular_number (m - 1).
Proof.
  revert m. apply natlike_ind.
  { rewrite range_nil by lia. change (0 - 1) with (-1).
    rewrite triangular_number_minus_one. unfold zsum. cbn [foldr]. lia. }
  intros m Hm IH. replace (Z.succ m) with (m + 1) by lia.
  rewrite range_snoc, zsum_app, IH by lia. unfold zsum at 1. cbn [foldr].
  replace (m + 1 - 1) with m by lia.
  destruct (decide (m = 0)) as [-> | Hne].
  { change (0 - 1) with (-1). rewrite triangular_number_minus_one.
    change (triangular_number 0) with 0. lia. }
  replace (triangular_number m) with (triangular_number (m - 1) + m).
  - lia.
  - replace m with ((m - 1) + 1) at 3 by lia.
    rewrite triangular_number_succ by lia. lia.
Qed.

Lemma zlen_triples_of_total n :
  0 ≤ n → zlen (triples_of_total n) = triangular_number (n + 1).
Proof.
  intros Hn. unfold triples_of_total. rewrite zlen_bind_sum.
  change (foldr _ 0 ?l) with
    (zsum (λ a, zlen (range 0 (n - a + 1) ≫= λ b, [(a, b, n - a - b)])) l).
  rewrite (zsum_ext_in _ (λ a, (n + 1) - a)).
  - rewrite zsum_affine by lia. replace (n + 1 - 1) with n by lia.
    rewrite triangular_number_succ by lia.
    pose proof (triangular_number_double n Hn). nia.
  - intros a Ha. apply elem_of_range in Ha.
    rewrite (zlen_bind_const _ 1) by reflexivity.
    rewrite zlen_range by lia. lia.
Qed.

Lemma triples_of_total_sorted n : StronglySorted lex_lt (triples_of_total n).
Proof.
  unfold triples_of_total.
  apply (StronglySorted_bind _ Z.lt); [apply StronglySorted_range| |].
  - intros a _.
    apply (StronglySorted_bind _ Z.lt); [apply StronglySorted_range| |].
    + intros b _. repeat constructor.
    + intros b b' p q _ _ Hlt Hp Hq.
      apply list_elem_of_singleton in Hp as ->.
      apply list_elem_of_singleton in Hq as ->.
      right. split; [done|]. by left.
  - intros a a' p q _ _ Hlt Hp Hq.
    apply list_elem_of_bind in Hp as (b & Hp & _).
    apply list_elem_of_bind in Hq as (b' & Hq & _).
    apply list_elem_of_singleton in Hp as ->.
    apply list_elem_of_singleton in Hq as ->.
    by left.
Qed.

Lemma zlen_determine_I_lambda_1_portions_3d (deg : Z) :
  zlen (determine_I_lambda_1_portions_3d deg) = choose_ijk_total (deg - 4).
Proof.
  destruct (decide (4 ≤ deg)) as [Hd | Hd].
  - rewrite determine_I_lambda_1_portions_3d_triples by done.
    rewrite zlen_triples_of_total, choose_ijk_total_triangular by lia. done.
  - unfold determine_I_lambda_1_portions_3d.
    replace (deg <? 4) with true by (symmetry; apply Z.ltb_lt; lia).
    by rewrite choose_ijk_total_negative by lia.
Qed.

(** X4.  [determine_I_lambda_1_portions_3d(deg)] returns exactly the triples
    of non-negative integers with sum [deg - 4] (none below degree 4), in
    strictly increasing lexicographic order, hence each once; there are
    [choose_ijk_total(deg - 4)] of them. *)
Theorem determine_I_lambda_1_portions_3d_enumeration (deg : Z) :
  (∀ a b c,
     (a, b, c) ∈ determine_I_lambda_1_portions_3d deg
     ↔ 4 ≤ deg ∧ 0 ≤ a ∧ 0 ≤ b ∧ 0 ≤ c ∧ a + b + c = deg - 4)
  ∧ StronglySorted lex_lt (determine_I_lambda_1_portions_3d deg)
  ∧ zlen (determine_I_lambda_1_portions_3d deg) = choose_ijk_total (deg - 4).
Proof.
  split_and!; [| |apply zlen_determine_I_lambda_1_portions_3d].
  - intros a b c. destruct (decide (4 ≤ deg)) as [Hd | Hd].
    + rewrite determine_I_lambda_1_portions_3d_triples by done.
      rewrite triples_of_total_sound.
      split; intros; destruct_and?; split_and?; lia.
    + unfold determine_I_lambda_1_portions_3d.
      replace (deg <? 4) with true by (symmetry; apply Z.ltb_lt; lia).
      rewrite elem_of_nil. split; [by intros [] | lia].
  - destruct (decide (4 ≤ deg)) as [Hd | Hd].
    + rewrite determine_I_lambda_1_portions_3d_triples by done.
      apply triples_of_total_sorted.
    + unfold determine_I_lambda_1_portions_3d.
      replace (deg <? 4) with true by (symmetry; apply Z.ltb_lt; lia).
      constructor.
Qed.

Section counts_3d.
Variables (dx dy dz : blend) (x_mid y_mid z_mid : expr).

Lemma zlen_e_lambda_1_3d_trimmed deg :
  zlen (e_lambda_1_3d_trimmed dx dy dz x_mid y_mid z_mid deg)
  = 12 * Z.max 0 deg.
Proof.
  unfold e_lambda_1_3d_trimmed.
  rewrite (zlen_bind_const _ 12) by reflexivity.
  by rewrite zlen_range_max, Z.sub_0_r.
Qed.

Lemma zlen_f_lambda_1_3d_pieces i :
  2 ≤ i →
  zlen (f_lambda_1_3d_pieces dx dy dz x_mid y_mid z_mid i) = 12 * (i - 1).
Proof.
  intros Hi. unfold f_lambda_1_3d_pieces.
  destruct (i =? 2) eqn:E.
  - apply Z.eqb_eq in E as ->. reflexivity.
  - rewrite (zlen_bind_const _ 12) by reflexivity.
    rewrite zlen_range by lia. lia.
Qed.

Lemma zlen_f_lambda_1_3d_trim deg :
  2 ≤ deg →
  zlen (f_lambda_1_3d_trim dx dy dz x_mid y_mid z_mid deg)
  = 12 * triangular_number (deg - 2).
Proof.
  revert deg. apply Z.right_induction.
  - solve_proper.
  - reflexivity.
  - intros deg Hdeg IH.
    unfold f_lambda_1_3d_trim, determine_f_lambda_1_portions_3d in *.
    replace (Z.succ deg <? 2) with false by (symmetry; apply Z.ltb_ge; lia).
    replace (deg <? 2) with false in IH by (symmetry; apply Z.ltb_ge; lia).
    replace (Z.succ deg) with (deg + 1) by lia.
    rewrite range_snoc, bind_app, zlen_app, IH by lia.
    cbn [mbind list_bind]. rewrite app_nil_r, zlen_f_lambda_1_3d_pieces by lia.
    replace (deg + 1 - 2) with ((deg - 2) + 1) by lia.
    rewrite triangular_number_succ by lia. lia.
Qed.

Lemma zlen_trimmed_f_lambda_3d deg :
  zlen (trimmed_f_lambda_3d dx dy dz x_mid y_mid z_mid deg)
  = (if 2 <=? deg then 12 * triangular_number (deg - 2) + 6 * deg else 12).
Proof.
  unfold trimmed_f_lambda_3d. rewrite zlen_app.
  assert (zlen (f_lambda_1_3d_tilde dx dy dz x_mid y_mid z_mid deg)
          = 12 + 6 * Z.max 0 (deg - 2)) as ->.
  { unfold f_lambda_1_3d_tilde. rewrite !zlen_app, !zlen_cons, zlen_nil.
    rewrite (zlen_bind_const _ 6) by reflexivity.
    rewrite zlen_range_max. replace (deg - 1 - 1) with (deg - 2) by lia. lia. }
  destruct (2 <=? deg) eqn:Hd.
  - apply Z.leb_le in Hd. rewrite zlen_f_lambda_1_3d_trim by done. lia.
  - apply Z.leb_gt in Hd.
    unfold f_lambda_1_3d_trim, determine_f_lambda_1_portions_3d.
    replace (deg <? 2) with true by (symmetry; apply Z.ltb_lt; lia).
    cbn [mbind list_bind]. rewrite zlen_nil. lia.
Qed.

Lemma zlen_I_lambda_1_3d deg :
  zlen (I_lambda_1_3d dx dy dz x_mid y_mid z_mid deg)
  = 3 * choose_ijk_total (deg - 4).
Proof.
  unfold I_lambda_1_3d. rewrite (zlen_bind_const _ 3) by reflexivity.
  by rewrite zlen_determine_I_lambda_1_portions_3d.
Qed.

Lemma zlen_I_lambda_1_tilde_3d deg :
  zlen (I_lambda_1_tilde_3d dx dy dz x_mid y_mid z_mid deg)
  = 6 + (if 5 <? deg then 3 else 2) * Z.max 0 (deg - 4).
Proof.
  unfold I_lambda_1_tilde_3d. rewrite !zlen_app, !zlen_cons, zlen_nil.
  rewrite (zlen_bind_const _ (if 5 <? deg then 3 else 2)).
  - rewrite zlen_range_max. replace (deg - 3 - 1) with (deg - 4) by lia. lia.
  - intros j _. by destruct (5 <? deg).
Qed.

(** X5.  The number of terms of every 3D generator, for every integer
    degree: [12 * max(0, deg)] edge terms; [12 * T(deg-2) + 6 * deg] face
    terms from degree 2 on (the 12 fixed tilde terms below); three interior
    terms per triple, [3 * choose_ijk_total(deg-4)] in all; and
    [6 + 2 * (deg-4)] interior tilde terms at degrees 4 and 5,
    [6 + 3 * (deg-4)] above. *)
Theorem generators_3d_counts (deg : Z) :
  zlen (e_lambda_1_3d_trimmed dx dy dz x_mid y_mid z_mid deg)
  = 12 * Z.max 0 deg
  ∧ zlen (trimmed_f_lambda_3d dx dy dz x_mid y_mid z_mid deg)
    = (if 2 <=? deg then 12 * triangular_number (deg - 2) + 6 * deg else 12)
  ∧ zlen (I_lambda_1_3d dx dy dz x_mid y_mid z_mid deg)
    = 3 * choose_ijk_total (deg - 4)
  ∧ zlen (I_lambda_1_tilde_3d dx dy dz x_mid y_mid z_mid deg)
    = 6 + (if 5 <? deg then 3 else 2) * Z.max 0 (deg - 4).
Proof.
  split_and!;
    [ apply zlen_e_lambda_1_3d_trimmed | apply zlen_trimmed_f_lambda_3d
    | apply zlen_I_lambda_1_3d | apply zlen_I_lambda_1_tilde_3d ].
Qed.

Lemma width_generators_3d (deg : Z) :
  width 3 (e_lambda_1_3d_trimmed dx dy dz x_mid y_mid z_mid deg)
  ∧ width 3 (trimmed_f_lambda_3d dx dy dz x_mid y_mid z_mid deg)
  ∧ width 3 (I_lambda_1_3d dx dy dz x_mid y_mid z_mid deg)
  ∧ width 3 (I_lambda_1_tilde_3d dx dy dz x_mid y_mid z_mid deg).
Proof.
  split_and!.
  - apply width_bind. intros i. by repeat constructor.
  - unfold trimmed_f_lambda_3d, f_lambda_1_3d_trim, f_lambda_1_3d_tilde.
    repeat apply width_app; try by repeat constructor.
    + apply width_bind. intros i. unfold f_lambda_1_3d_pieces.
      destruct (i =? 2); [by repeat constructor|].
      apply width_bind. intros j. by repeat constructor.
    + apply width_bind. intros j. apply width_bind. intros k.
      by repeat constructor.
  - apply width_bind. intros t. by repeat constructor.
  - unfold I_lambda_1_tilde_3d.
    repeat apply width_app; try by repeat constructor.
    apply width_bind. intros j. destruct (5 <? deg); by repeat constructor.
Qed.

End counts_3d.

(** X6.  Every term that a 2D generator produces has exactly two components
    and every term that a 3D generator produces has exactly three, whatever
    the degree and the blending factors: the lists are rectangular, as the
    conversion to an array needs. *)
Theorem generated_terms_width (dx dy dz : blend) (x_mid y_mid z_mid : expr)
    (deg : Z) :
  width 2 (e_lambda_1_2d dx dy x_mid y_mid deg)
  ∧ width 2 (trimmed_f_lambda_2d dx dy x_mid y_mid deg)
  ∧ width 3 (e_lambda_1_3d_trimmed dx dy dz x_mid y_mid z_mid deg)
  ∧ width 3 (trimmed_f_lambda_3d dx dy dz x_mid y_mid z_mid deg)
  ∧ width 3 (I_lambda_1_3d dx dy dz x_mid y_mid z_mid deg)
  ∧ width 3 (I_lambda_1_tilde_3d dx dy dz x_mid y_mid z_mid deg).
Proof.
  destruct (width_generators_2d dx dy x_mid y_mid deg) as [HE HF].
  destruct (width_generators_3d dx dy dz x_mid y_mid z_mid deg)
    as (HE3 & HF3 & HI & HIt).
  by split_and!.
Qed.

(** *** Where the 3D edge terms sit *)

Lemma lookup_bind_const {A B} (f : A → list B) (n : nat) (l : list A)
    (i k : nat) (a : A) :
  (∀ a, length (f a) = n) → l !! i = Some a → (k < n)%nat →
  (l ≫= f) !! (n * i + k)%nat = f a !! k.
Proof.
  intros Hn. revert i. induction l as [|a0 l IH]; intros i Hi Hk; [done|].
  rewrite bind_cons. destruct i as [|i]; cbn in Hi.
  - injection Hi as ->. rewrite Nat.mul_0_r, Nat.add_0_l.
    apply lookup_app_l. by rewrite Hn.
  - rewrite lookup_app_r by (rewrite Hn; lia). rewrite Hn.
    replace (n * S i + k - n)%nat with (n * i + k)%nat by lia. by apply IH.
Qed.

Lemma lookup_range (d : Z) (i : nat) :
  Z.of_nat i < d → range 0 d !! i = Some (Z.of_nat i).
Proof. intros Hi. unfold range. by rewrite lookup_seqZ_lt by lia. Qed.

(** X7.  [e_lambda_1_3d_trimmed(max_deg)] is laid out by Legendre order:
    for [i < max_deg], the entries [12*i .. 12*i + 11] are the twelve terms
    of [e_lambda_1_3d_piece(i)], in the order of that function. *)
Theorem e_lambda_1_3d_trimmed_layout (dx dy dz : blend)
    (x_mid y_mid z_mid : expr) (max_deg : Z) (i k : nat) :
  Z.of_nat i < max_deg → (k < 12)%nat →
  e_lambda_1_3d_trimmed dx dy dz x_mid y_mid z_mid max_deg !! (12 * i + k)%nat
  = e_lambda_1_3d_piece dx dy dz x_mid y_mid z_mid (Z.of_nat i) !! k.
Proof.
  intros Hi Hk. unfold e_lambda_1_3d_trimmed.
  apply lookup_bind_const; [reflexivity | by apply lookup_range | done].
Qed.

Lemma e_lambda_1_3d_trimmed_layout_witness :
  e_lambda_1_3d_trimmed unit_dx unit_dy unit_dz unit_x_mid unit_y_mid
    unit_z_mid 3 !! (12 * 2 + 4)%nat
  = e_lambda_1_3d_piece unit_dx unit_dy unit_dz unit_x_mid unit_y_mid
      unit_z_mid (Z.of_nat 2) !! 4%nat.
Proof.
  apply (e_lambda_1_3d_trimmed_layout unit_dx unit_dy unit_dz unit_x_mid
           unit_y_mid unit_z_mid 3 2 4); [simpl | idtac]; lia.
Defined.

(** *** The symbols of the 2D terms *)

Lemma free_of_app v a b : free_of v a → free_of v b → free_of v (a ++ b).
Proof. apply Forall_app_2. Qed.

Lemma free_of_fmap {A} v (f : A → term) l :
  (∀ a, Forall (λ e, mentions v e = false) (f a)) → free_of v (f <$> l).
Proof. intros Hf. apply Forall_fmap, Forall_forall. intros; apply Hf. Qed.

Lemma free_of_bind {A} v (f : A → list term) l :
  (∀ a, free_of v (f a)) → free_of v (l ≫= f).
Proof.
  intros Hf. induction l as [|a l IH]; [constructor|].
  rewrite bind_cons. by apply free_of_app.
Qed.

Section z_free.
Variables (dx dy : blend) (x_mid y_mid : expr).
Hypothesis Hdx0 : mentions z (at0 dx) = false.
Hypothesis Hdx1 : mentions z (at1 dx) = false.
Hypothesis Hdy0 : mentions z (at0 dy) = false.
Hypothesis Hdy1 : mentions z (at1 dy) = false.
Hypothesis Hx : mentions z x_mid = false.
Hypothesis Hy : mentions z y_mid = false.

Local Ltac z_free :=
  repeat constructor; cbn [mentions Int leg];
  rewrite ?Hdx0, ?Hdx1, ?Hdy0, ?Hdy1, ?Hx, ?Hy; reflexivity.

Lemma generators_2d_free_of_z (deg : Z) :
  free_of z (e_lambda_1_2d dx dy x_mid y_mid deg)
  ∧ free_of z (trimmed_f_lambda_2d dx dy x_mid y_mid deg).
Proof.
  split.
  - unfold e_lambda_1_2d, e_lambda_1_2d_part_one, e_lambda_tilde_1_2d_part_two.
    repeat apply free_of_app; try (apply free_of_fmap; intros j); z_free.
  - unfold trimmed_f_lambda_2d, f_lambda_1_2d_trim, f_lambda_1_2d_tilde.
    repeat apply free_of_app.
    + apply free_of_bind. intros i. unfold f_lambda_1_2d_pieces.
      destruct (i =? 2); [z_free|]. apply free_of_bind. intros j. z_free.
    + z_free.
    + z_free.
    + apply free_of_fmap. intros k. z_free.
Qed.

End z_free.

(** ** Blending factors and vertex data *)

(** X8.  Along an axis on which the first and the last vertex differ, the
    two blending factors sum to 1 at every point; at the first vertex they
    are 1 and 0 and at the last 0 and 1; and the midpoint expression
    [2*v - (hi + lo)] takes the values [lo - hi] and [hi - lo] there. *)
Theorem blending_partition_of_unity (verts : list (list Q)) (a : nat)
    (v : var) (lo hi : list Q) (lo_a hi_a : Q) :
  corners verts lo hi → lo !! a = Some lo_a → hi !! a = Some hi_a →
  ¬ (hi_a == lo_a)%Q →
  ∃ d mid,
    blending verts a v = inr d ∧ midpoint verts a v = inr mid
    ∧ (∀ env, eval env (at0 d) + eval env (at1 d) == 1)%Q
    ∧ (∀ env, (env v == lo_a →
         eval env (at0 d) == 1 ∧ eval env (at1 d) == 0
         ∧ eval env mid == lo_a - hi_a)%Q)
    ∧ (∀ env, (env v == hi_a →
         eval env (at0 d) == 0 ∧ eval env (at1 d) == 1
         ∧ eval env mid == hi_a - lo_a)%Q).
Proof.
  intros Hc Hlo Hhi Hne.
  exists (blend_of lo_a hi_a v), (mid_of lo_a hi_a v).
  split; [by eapply blending_inr|]. split; [by eapply midpoint_inr|].
  assert (¬ (hi_a - lo_a == 0)%Q) as Hd.
  { intros Hz. apply Hne.
    assert (hi_a == (hi_a - lo_a) + lo_a)%Q as -> by ring.
    rewrite Hz. ring. }
  unfold blend_of, mid_of, at0, at1, Int. cbn [fst snd eval].
  split_and!.
  - intros env. rewrite !Qred_correct. field. done.
  - intros env Hv. rewrite !Qred_correct, Hv. split_and!; field; done.
  - intros env Hv. rewrite !Qred_correct, Hv. split_and!; field; done.
Qed.

Lemma blending_partition_of_unity_witness :
  ∃ d mid,
    blending (get_vertices (quadrilateral 0 1)) 0 x = inr d
    ∧ midpoint (get_vertices (quadrilateral 0 1)) 0 x = inr mid
    ∧ (∀ env, eval env (at0 d) + eval env (at1 d) == 1)%Q
    ∧ (∀ env, (env x == 0 →
         eval env (at0 d) == 1 ∧ eval env (at1 d) == 0
         ∧ eval env mid == 0 - 1)%Q)
    ∧ (∀ env, (env x == 1 →
         eval env (at0 d) == 0 ∧ eval env (at1 d) == 1
         ∧ eval env mid == 1 - 0)%Q).
Proof.
  apply (blending_partition_of_unity _ 0 x [0; 0]%Q [1; 1]%Q 0%Q 1%Q).
  - split; reflexivity.
  - reflexivity.
  - reflexivity.
  - discriminate.
Defined.

Lemma raw_terms_short_vertices dim degree verts :
  (∀ lo hi, corners verts lo hi → (length lo < 2 ∨ length hi < 2)%nat) →
  raw_terms dim degree verts = raise IndexError.
Proof.
  intros Hshort. unfold raw_terms.
  destruct (blending verts 0 x) as [e|dx] eqn:Hdx.
  { apply blending_exn in Hdx as ->. reflexivity. }
  rewrite bind_ret.
  destruct (blending verts 1 y) as [e|dy] eqn:Hdy.
  { apply blending_exn in Hdy as ->. reflexivity. }
  exfalso. unfold blending, index_last, index in Hdy.
  destruct (last verts) as [hv|] eqn:Hlast; run_result; [|done].
  destruct (hv !! 1%nat) eqn:Hh1; run_result; [|done].
  destruct (verts !! 0%nat) as [lv|] eqn:Hfirst; run_result; [|done].
  destruct (lv !! 1%nat) eqn:Hl1; run_result; [|done].
  apply lookup_lt_Some in Hh1, Hl1.
  destruct (Hshort lv hv); [by split|lia..].
Qed.

Section short_vertices.
Context {RefEl odim : Type} `{Countable odim}.
Variable flatten_reference_cube : RefEl → FlatCell.
Variable make_entity_closure_ids : FlatCell → entity_map → entity_map.
Variable ref_get_topology : RefEl → gmap odim (gmap Z (list Z)).
Variable compute_unflattening_map :
  gmap odim (gmap Z (list Z)) → gmap (Z * Z) (odim * Z).

Local Abbreviation Edge :=
  (TrimmedSerendipityEdge_init flatten_reference_cube make_entity_closure_ids
     ref_get_topology compute_unflattening_map).
Local Abbreviation Face :=
  (TrimmedSerendipityFace_init flatten_reference_cube make_entity_closure_ids
     ref_get_topology compute_unflattening_map).

(** X9.  With a valid degree and dimension, a vertex list that is empty, or
    whose first or last vertex has fewer than two coordinates, makes both
    constructors raise [IndexError]: only the reads of the third coordinate
    are inside the [try]. *)
Theorem short_vertices_raise_IndexError (ref_el : RefEl) (degree : Z) :
  let flat_el := flatten_reference_cube ref_el in
  1 ≤ degree →
  get_spatial_dimension flat_el = 2 ∨ get_spatial_dimension flat_el = 3 →
  (∀ lo hi, corners (get_vertices flat_el) lo hi →
            (length lo < 2 ∨ length hi < 2)%nat) →
  Edge ref_el degree = raise IndexError
  ∧ Face ref_el degree = raise IndexError.
Proof.
  intros flat_el Hdeg Hdim Hshort.
  unfold TrimmedSerendipityEdge_init, TrimmedSerendipityFace_init.
  replace (degree <? 1) with false by (symmetry; apply Z.ltb_ge; lia).
  fold flat_el. rewrite (dim_guard_false _ Hdim).
  by rewrite raw_terms_short_vertices.
Qed.

End short_vertices.

Lemma short_vertices_raise_IndexError_witness :
  FlatEdge short_vertex_cell 1 = raise IndexError
  ∧ FlatFace short_vertex_cell 1 = raise IndexError.
Proof.
  apply (short_vertices_raise_IndexError id flat_entity_closure_ids
           get_topology flat_unflattening_map short_vertex_cell 1).
  - lia.
  - left. reflexivity.
  - intros lo hi [Hlo Hhi]. cbn in Hlo. injection Hlo as <-. left. cbn. lia.
Defined.

(** ** The allocator: which indices each entity gets *)

Lemma assign_loop_blocks k n js :
  NoDup js →
  ∀ (ids : entity_map) cur inner,
    ids !! k = Some inner →
    ∃ inner',
      for_each (assign_block k n) js (ids, cur)
        = inr (<[k := inner']> ids, cur + n * zlen js)
      ∧ (∀ j, j ∉ js → inner' !! j = inner !! j)
      ∧ (∀ (i : nat) j, js !! i = Some j →
           inner' !! j
           = Some (range (cur + n * Z.of_nat i) (cur + n * (Z.of_nat i + 1)))).
Proof.
  induction 1 as [|j0 js Hj0 Hnd IH]; intros ids cur inner Hk.
  - exists inner. split_and!.
    + cbn. rewrite insert_id by done. rewrite zlen_nil. do 2 f_equal. lia.
    + done.
    + intros i j Hi. by rewrite lookup_nil in Hi.
  - cbn [for_each]. rewrite (assign_block_inr _ _ _ _ _ _ Hk), bind_ret.
    edestruct (IH (<[k := <[j0 := range cur (cur + n)]> inner]> ids) (cur + n))
      as (inner' & Hrun & Hout & Hin).
    { apply lookup_insert_eq. }
    exists inner'. split_and!.
    + rewrite Hrun, insert_insert_eq, zlen_cons. do 2 f_equal. lia.
    + intros j Hj. apply not_elem_of_cons in Hj as [Hne Hj].
      rewrite Hout by done. by rewrite lookup_insert_ne.
    + intros [|i] j Hi.
      * injection Hi as <-. rewrite Hout by done. rewrite lookup_insert_eq.
        do 2 f_equal; lia.
      * cbn in Hi. rewrite (Hin i j Hi). do 2 f_equal; lia.
Qed.

Lemma lookup_init (topo : entity_map) d :
  ((λ entities : gmap Z (list Z), (λ _, []) <$> entities) <$> topo) !! d
  = (λ entities : gmap Z (list Z), (λ _ : list Z, @nil Z) <$> entities)
      <$> topo !! d.
Proof. apply lookup_fmap. Qed.

Lemma dofs_of_init (topo : entity_map) d e :
  dofs_of ((λ entities : gmap Z (list Z), (λ _, []) <$> entities) <$> topo) d e
  = (λ _, []) <$> (topo !! d ≫= (.!! e)).
Proof.
  unfold dofs_of. rewrite lookup_init.
  destruct (topo !! d) as [inner|]; [|done]. cbn. apply lookup_fmap.
Qed.

Lemma dofs_of_insert_eq (ids : entity_map) d inner e :
  dofs_of (<[d := inner]> ids) d e = inner !! e.
Proof. unfold dofs_of. by rewrite lookup_insert_eq. Qed.

Lemma dofs_of_insert_ne (ids : entity_map) d d' inner e :
  d ≠ d' → dofs_of (<[d := inner]> ids) d' e = dofs_of ids d' e.
Proof. intros. unfold dofs_of. by rewrite lookup_insert_ne. Qed.

Lemma not_elem_of_sorted_keys {V} (m : gmap Z V) j :
  m !! j = None → j ∉ sorted_keys m.
Proof.
  intros Hj Hin. apply elem_of_sorted_keys in Hin as [v Hv]. congruence.
Qed.

(** X10.  On a 2D topology the allocator numbers the edges in ascending
    key order: the [i]-th edge gets the indices
    [degree*i .. degree*(i+1) - 1]; from degree 2 on, entity 0 of dimension
    2 gets the next [2*T(degree-2) + degree] indices; every other entity of
    the topology (the vertices, any further face) keeps the empty list, and
    nothing is added for entities that the topology does not have. *)
Theorem allocate_entity_ids_2d_numbering (degree : Z) (topo : entity_map)
    (edges : gmap Z (list Z)) :
  let face := 2 * triangular_number (degree - 2) + degree in
  let cur := degree * Z.of_nat (size edges) in
  topo !! 1 = Some edges → (2 ≤ degree → is_Some (topo !! 2)) →
  ∃ ids,
    allocate_entity_ids degree 2 topo = inr ids
    ∧ (∀ (i : nat) e, sorted_keys edges !! i = Some e →
         dofs_of ids 1 e
         = Some (range (degree * Z.of_nat i) (degree * (Z.of_nat i + 1))))
    ∧ (∀ e, edges !! e = None → dofs_of ids 1 e = None)
    ∧ (2 ≤ degree → dofs_of ids 2 0 = Some (range cur (cur + face)))
    ∧ (∀ d e, d ≠ 1 → (2 ≤ degree → (d, e) ≠ (2, 0)) →
         dofs_of ids d e = (λ _, []) <$> (topo !! d ≫= (.!! e))).
Proof.
  intros face cur Hedges Hfaces.
  set (ids0 := (λ entities : gmap Z (list Z),
                  (λ _ : list Z, @nil Z) <$> entities) <$> topo).
  assert (ids0 !! 1 = Some ((λ _ : list Z, @nil Z) <$> edges)) as H1.
  { unfold ids0. by rewrite lookup_init, Hedges. }
  destruct (assign_loop_blocks 1 degree (sorted_keys edges)
              (NoDup_sorted_keys edges) ids0 0 _ H1)
    as (inner' & Hrun & Hout & Hin).
  rewrite zlen_sorted_keys, Z.add_0_l in Hrun. fold cur in Hrun.
  unfold allocate_entity_ids. change (2 =? 2) with true. cbn match.
  rewrite (getitem_inr _ _ _ Hedges), bind_ret. fold ids0. rewrite Hrun, bind_ret.
  assert (∀ (i : nat) e, sorted_keys edges !! i = Some e →
            inner' !! e
            = Some (range (degree * Z.of_nat i) (degree * (Z.of_nat i + 1))))
    as Hin'.
  { intros i e Hi. rewrite (Hin i e Hi). do 2 f_equal; lia. }
  assert (∀ e, edges !! e = None → inner' !! e = None) as Hout'.
  { intros e He. rewrite Hout by by apply not_elem_of_sorted_keys.
    by rewrite lookup_fmap, He. }
  destruct (2 <=? degree) eqn:Hd.
  - apply Z.leb_le in Hd. destruct (Hfaces Hd) as [faces Hf].
    assert ((<[1 := inner']> ids0) !! 2
            = Some ((λ _ : list Z, @nil Z) <$> faces)) as H2.
    { rewrite lookup_insert_ne by done. unfold ids0. by rewrite lookup_init, Hf. }
    rewrite (setitem2_inr _ _ _ _ _ H2), bind_ret.
    eexists. split; [reflexivity|]. split_and!.
    + intros i e Hi. rewrite dofs_of_insert_ne, dofs_of_insert_eq by done. eauto.
    + intros e He. rewrite dofs_of_insert_ne, dofs_of_insert_eq by done. eauto.
    + intros _. rewrite dofs_of_insert_eq, lookup_insert_eq.
      unfold face. do 2 f_equal. lia.
    + intros d e Hd1 Hd2. specialize (Hd2 Hd).
      destruct (decide (d = 2)) as [-> | Hne].
      * rewrite dofs_of_insert_eq, lookup_insert_ne by congruence.
        rewrite lookup_fmap, Hf. done.
      * rewrite !dofs_of_insert_ne by done. apply dofs_of_init.
  - apply Z.leb_gt in Hd. rewrite bind_mret.
    eexists. split; [reflexivity|]. split_and!.
    + intros i e Hi. rewrite dofs_of_insert_eq. eauto.
    + intros e He. rewrite dofs_of_insert_eq. eauto.
    + lia.
    + intros d e Hd1 _. rewrite dofs_of_insert_ne by done. apply dofs_of_init.
Qed.

Lemma allocate_entity_ids_2d_numbering_witness :
  ∃ ids,
    allocate_entity_ids 3 2 quad_topology = inr ids
    ∧ (∀ (i : nat) e,
         sorted_keys (quad_topology !!! 1 : gmap Z (list Z)) !! i = Some e →
         dofs_of ids 1 e
         = Some (range (3 * Z.of_nat i) (3 * (Z.of_nat i + 1))))
    ∧ (∀ e, (quad_topology !!! 1 : gmap Z (list Z)) !! e = None →
         dofs_of ids 1 e = None)
    ∧ (2 ≤ 3 →
       dofs_of ids 2 0
       = Some (range (3 * Z.of_nat (size (quad_topology !!! 1 : gmap Z (list Z))))
                 (3 * Z.of_nat (size (quad_topology !!! 1 : gmap Z (list Z)))
                  + (2 * triangular_number (3 - 2) + 3))))
    ∧ (∀ d e, d ≠ 1 → (2 ≤ 3 → (d, e) ≠ (2, 0)) →
         dofs_of ids d e = (λ _, []) <$> (quad_topology !! d ≫= (.!! e))).
Proof.
  apply (allocate_entity_ids_2d_numbering 3 quad_topology
           (quad_topology !!! 1)).
  - reflexivity.
  - intros _. vm_compute. eauto.
Defined.

(** The dictionary that the 3D branch returns: the cleared one with the
    three assignments on top. *)
Lemma allocate_3d_shape (degree : Z) (topo : entity_map)
    (edges faces : gmap Z (list Z)) :
  let cur1 := degree * Z.of_nat (size edges) in
  let cur2 := cur1 + face_block degree * Z.of_nat (size faces) in
  let ids0 : entity_map :=
    (λ entities : gmap Z (list Z), (λ _ : list Z, @nil Z) <$> entities)
      <$> topo in
  topo !! 1 = Some edges → topo !! 2 = Some faces →
  ∃ inner1 inner2,
    allocate_entity_ids degree 3 topo
    = inr (<[3 := {[ 0 := range cur2 (cur2 + interior_block degree) ]}]>
             (<[2 := inner2]> (<[1 := inner1]> (<[3 := ∅]> ids0))))
    ∧ (∀ (i : nat) e, sorted_keys edges !! i = Some e →
         inner1 !! e
         = Some (range (degree * Z.of_nat i) (degree * (Z.of_nat i + 1))))
    ∧ (2 ≤ degree →
       ∀ (i : nat) f, sorted_keys faces !! i = Some f →
         inner2 !! f
         = Some (range (cur1 + face_block degree * Z.of_nat i)
                       (cur1 + face_block degree * (Z.of_nat i + 1))))
    ∧ (degree < 2 → inner2 = (λ _ : list Z, @nil Z) <$> faces).
Proof.
  intros cur1 cur2 ids0 Hedges Hfaces.
  assert ((<[3 := ∅]> ids0) !! 1 = Some ((λ _ : list Z, @nil Z) <$> edges))
    as H1.
  { rewrite lookup_insert_ne by done. unfold ids0. by rewrite lookup_init, Hedges. }
  destruct (assign_loop_blocks 1 degree (sorted_keys edges)
              (NoDup_sorted_keys edges) _ 0 _ H1)
    as (inner1 & Hrun1 & _ & Hin1).
  rewrite zlen_sorted_keys, Z.add_0_l in Hrun1. fold cur1 in Hrun1.
  assert (∃ inner2,
    (if 2 <=? degree then
       if degree <? 4 then
         faces ← getitem topo 2;
         for_each
           (assign_block 2 (2 * triangular_number (degree - 2) + degree))
           (sorted_keys faces) (<[1 := inner1]> (<[3 := ∅]> ids0), cur1)
       else
         faces ← getitem topo 2;
         for_each (assign_block 2 (3 * degree - 4))
           (sorted_keys faces) (<[1 := inner1]> (<[3 := ∅]> ids0), cur1)
     else mret (<[1 := inner1]> (<[3 := ∅]> ids0), cur1))
    = inr (<[2 := inner2]> (<[1 := inner1]> (<[3 := ∅]> ids0)), cur2)
    ∧ (2 ≤ degree →
       ∀ (i : nat) f, sorted_keys faces !! i = Some f →
         inner2 !! f
         = Some (range (cur1 + face_block degree * Z.of_nat i)
                       (cur1 + face_block degree * (Z.of_nat i + 1))))
    ∧ (degree < 2 → inner2 = (λ _ : list Z, @nil Z) <$> faces))
    as (inner2 & Hrun2 & Hin2 & Hlow).
  { assert ((<[1 := inner1]> (<[3 := ∅]> ids0)) !! 2
            = Some ((λ _ : list Z, @nil Z) <$> faces)) as H2.
    { rewrite !lookup_insert_ne by done. unfold ids0.
      by rewrite lookup_init, Hfaces. }
    unfold cur2, face_block.
    destruct (2 <=? degree) eqn:Hd.
    - apply Z.leb_le in Hd.
      destruct (degree <? 4);
        rewrite (getitem_inr _ _ _ Hfaces), bind_ret;
        match goal with
        | |- context [for_each (assign_block 2 ?n) _ _] =>
            destruct (assign_loop_blocks 2 n (sorted_keys faces)
                        (NoDup_sorted_keys faces) _ cur1 _ H2)
              as (inner2 & Hrun2 & _ & Hin2)
        end;
        rewrite zlen_sorted_keys in Hrun2;
        exists inner2; (split_and!; [exact Hrun2 | intros _; exact Hin2 | lia]).
    - apply Z.leb_gt in Hd. exists ((λ _ : list Z, @nil Z) <$> faces).
      split_and!; [|lia|done].
      rewrite (insert_id _ 2) by done. cbv [mret result_ret].
      do 2 f_equal. lia. }
  exists inner1, inner2. split_and!; [| |done..].
  - unfold allocate_entity_ids.
    replace (3 =? 2) with false by reflexivity. cbn match.
    rewrite (getitem_inr _ _ _ Hedges), bind_ret. fold ids0.
    rewrite Hrun1, bind_ret. rewrite Hrun2, bind_ret.
    set (ids2 := <[2 := inner2]> (<[1 := inner1]> (<[3 := ∅]> ids0))).
    assert (ids2 !! 3 = Some ∅) as H3.
    { unfold ids2. rewrite !lookup_insert_ne by done. apply lookup_insert_eq. }
    unfold interior_block.
    destruct (4 <=? degree);
      [destruct (degree =? 4); [|destruct (degree =? 5)]|];
      rewrite (setitem2_inr _ _ _ _ _ H3), insert_empty;
      do 4 f_equal; lia.
  - intros i e Hi. rewrite (Hin1 i e Hi). do 2 f_equal; lia.
Qed.

(** X11.  On a 3D topology the allocator numbers the edges in ascending key
    order with [degree] indices each, then (from degree 2 on) the faces in
    ascending key order with [2*T(degree-2) + degree] indices each below
    degree 4 and [3*degree - 4] from degree 4 on, then the interior; the
    dictionary of dimension 3 is replaced by one that holds entity 0 only;
    every other entity of the topology keeps the empty list. *)
Theorem allocate_entity_ids_3d_numbering (degree : Z) (topo : entity_map)
    (edges faces : gmap Z (list Z)) :
  let cur1 := degree * Z.of_nat (size edges) in
  let cur2 := cur1 + face_block degree * Z.of_nat (size faces) in
  topo !! 1 = Some edges → topo !! 2 = Some faces →
  ∃ ids,
    allocate_entity_ids degree 3 topo = inr ids
    ∧ (∀ (i : nat) e, sorted_keys edges !! i = Some e →
         dofs_of ids 1 e
         = Some (range (degree * Z.of_nat i) (degree * (Z.of_nat i + 1))))
    ∧ (2 ≤ degree →
       ∀ (i : nat) f, sorted_keys faces !! i = Some f →
         dofs_of ids 2 f
         = Some (range (cur1 + face_block degree * Z.of_nat i)
                       (cur1 + face_block degree * (Z.of_nat i + 1))))
    ∧ (degree < 2 → ∀ f, dofs_of ids 2 f = (λ _, []) <$> faces !! f)
    ∧ ids !! 3 = Some {[ 0 := range cur2 (cur2 + interior_block degree) ]}
    ∧ (∀ d e, d ≠ 1 → d ≠ 2 → d ≠ 3 →
         dofs_of ids d e = (λ _, []) <$> (topo !! d ≫= (.!! e))).
Proof.
  intros cur1 cur2 Hedges Hfaces.
  destruct (allocate_3d_shape degree topo edges faces Hedges Hfaces)
    as (inner1 & inner2 & Halloc & He & Hf & Hlow).
  eexists. split; [exact Halloc|]. split_and!.
  - intros i e Hi.
    rewrite !dofs_of_insert_ne, dofs_of_insert_eq by done. eauto.
  - intros Hd i f Hi. rewrite dofs_of_insert_ne, dofs_of_insert_eq by done.
    eauto.
  - intros Hd f. rewrite dofs_of_insert_ne, dofs_of_insert_eq by done.
    rewrite (Hlow Hd). apply lookup_fmap.
  - apply lookup_insert_eq.
  - intros d e Hd1 Hd2 Hd3. rewrite !dofs_of_insert_ne by done.
    apply dofs_of_init.
Qed.

Lemma allocate_entity_ids_3d_numbering_witness :
  ∃ ids,
    allocate_entity_ids 4 3 hex_topology = inr ids
    ∧ (∀ (i : nat) e,
         sorted_keys (hex_topology !!! 1 : gmap Z (list Z)) !! i = Some e →
         dofs_of ids 1 e
         = Some (range (4 * Z.of_nat i) (4 * (Z.of_nat i + 1))))
    ∧ (2 ≤ 4 →
       ∀ (i : nat) f,
         sorted_keys (hex_topology !!! 2 : gmap Z (list Z)) !! i = Some f →
         dofs_of ids 2 f
         = Some (range (4 * Z.of_nat (size (hex_topology !!! 1 : gmap Z (list Z)))
                        + face_block 4 * Z.of_nat i)
                       (4 * Z.of_nat (size (hex_topology !!! 1 : gmap Z (list Z)))
                        + face_block 4 * (Z.of_nat i + 1))))
    ∧ (4 < 2 → ∀ f, dofs_of ids 2 f
                    = (λ _, []) <$> (hex_topology !!! 2 : gmap Z (list Z)) !! f)
    ∧ ids !! 3
      = Some {[ 0 :=
          range (4 * Z.of_nat (size (hex_topology !!! 1 : gmap Z (list Z)))
                 + face_block 4
                   * Z.of_nat (size (hex_topology !!! 2 : gmap Z (list Z))))
                (4 * Z.of_nat (size (hex_topology !!! 1 : gmap Z (list Z)))
                 + face_block 4
                   * Z.of_nat (size (hex_topology !!! 2 : gmap Z (list Z)))
                 + interior_block 4) ]}
    ∧ (∀ d e, d ≠ 1 → d ≠ 2 → d ≠ 3 →
         dofs_of ids d e = (λ _, []) <$> (hex_topology !! d ≫= (.!! e))).
Proof.
  apply (allocate_entity_ids_3d_numbering 4 hex_topology
           (hex_topology !!! 1) (hex_topology !!! 2)); reflexivity.
Defined.

(** X12.  A topology without a dictionary of edges makes the allocator
    raise [KeyError], whatever the degree and the dimension; so does, from
    degree 2 on, a topology without a dictionary of faces. *)
Theorem allocate_entity_ids_missing_dimension (degree dim : Z)
    (topo : entity_map) :
  topo !! 1 = None ∨ (2 ≤ degree ∧ topo !! 2 = None) →
  allocate_entity_ids degree dim topo = raise KeyError.
Proof.
  intros Hmiss. unfold allocate_entity_ids.
  set (ids0 := (λ entities : gmap Z (list Z),
                  (λ _ : list Z, @nil Z) <$> entities) <$> topo).
  destruct (topo !! 1) as [edges|] eqn:Hedges; cycle 1.
  { rewrite (getitem_inl _ _ Hedges). by destruct (dim =? 2). }
  destruct Hmiss as [|[Hd Hfaces]]; [done|].
  rewrite (getitem_inr _ _ _ Hedges), (getitem_inl _ _ Hfaces), !bind_ret.
  replace (2 <=? degree) with true by (symmetry; by apply Z.leb_le).
  destruct (dim =? 2).
  - assert (ids0 !! 1 = Some ((λ _ : list Z, @nil Z) <$> edges)) as H1.
    { unfold ids0. by rewrite lookup_init, Hedges. }
    destruct (assign_loop_blocks 1 degree (sorted_keys edges)
                (NoDup_sorted_keys edges) ids0 0 _ H1) as (inner1 & -> & _).
    rewrite bind_ret. unfold setitem2.
    rewrite getitem_inl; [done|].
    rewrite lookup_insert_ne by done. unfold ids0.
    by rewrite lookup_init, Hfaces.
  - assert ((<[3 := ∅]> ids0) !! 1 = Some ((λ _ : list Z, @nil Z) <$> edges))
      as H1.
    { rewrite lookup_insert_ne by done. unfold ids0.
      by rewrite lookup_init, Hedges. }
    destruct (assign_loop_blocks 1 degree (sorted_keys edges)
                (NoDup_sorted_keys edges) _ 0 _ H1) as (inner1 & -> & _).
    rewrite bind_ret. by destruct (degree <? 4).
Qed.

Lemma allocate_entity_ids_missing_dimension_witness :
  allocate_entity_ids 2 2 {[ 0 := ∅; 1 := {[ 0 := [0; 1] ]} ]} = raise KeyError.
Proof.
  apply allocate_entity_ids_missing_dimension.
  right. split; [lia | reflexivity].
Defined.

Lemma allocate_3d_covers degree (topo : entity_map) edges faces ids :
  topo !! 1 = Some edges → topo !! 2 = Some faces →
  (∀ cells e, topo !! 3 = Some cells → is_Some (cells !! e) → e = 0) →
  allocate_entity_ids degree 3 topo = inr ids →
  covers topo ids.
Proof.
  intros Hedges Hfaces Hcells Halloc.
  destruct (allocate_3d_shape degree topo edges faces Hedges Hfaces)
    as (inner1 & inner2 & Halloc' & He & Hf & Hlow).
  rewrite Halloc in Halloc'. injection Halloc' as ->.
  intros d entities Hd e vs Hvs.
  destruct (decide (d = 1)) as [-> | H1].
  { assert (entities = edges) as -> by congruence.
    assert (e ∈ sorted_keys edges) as Hin by (apply elem_of_sorted_keys; eauto).
    apply list_elem_of_lookup in Hin as [i Hi].
    rewrite !dofs_of_insert_ne, dofs_of_insert_eq by done.
    rewrite (He i e Hi). eauto. }
  destruct (decide (d = 2)) as [-> | H2].
  { assert (entities = faces) as -> by congruence.
    rewrite dofs_of_insert_ne, dofs_of_insert_eq by done.
    destruct (decide (2 ≤ degree)) as [Hdeg | Hdeg].
    - assert (e ∈ sorted_keys faces) as Hin
        by (apply elem_of_sorted_keys; eauto).
      apply list_elem_of_lookup in Hin as [i Hi]. rewrite (Hf Hdeg i e Hi).
      eauto.
    - rewrite Hlow by lia. rewrite lookup_fmap, Hvs. cbn. eauto. }
  destruct (decide (d = 3)) as [-> | H3].
  { assert (e = 0) as -> by (eapply Hcells; eauto).
    rewrite dofs_of_insert_eq, lookup_singleton_eq. eauto. }
  rewrite !dofs_of_insert_ne by done. rewrite dofs_of_init, Hd. cbn.
  rewrite Hvs. cbn. eauto.
Qed.

(** ** The base constructor: remapping and attributes *)

Lemma for_each_prefix_invariant {A S} (body : A → S → result S)
    (I : list A → S → Prop) (l : list A) (s0 : S) :
  I [] s0 →
  (∀ pre a suf s, l = pre ++ a :: suf → I pre s →
     ∃ s', body a s = inr s' ∧ I (pre ++ [a]) s') →
  ∃ s', for_each body l s0 = inr s' ∧ I l s'.
Proof.
  intros H0 Hstep.
  assert (∀ suf pre s, l = pre ++ suf → I pre s →
            ∃ s', for_each body suf s = inr s' ∧ I l s') as Hgen.
  { induction suf as [|a suf IH]; intros pre s Hl Hs.
    - rewrite app_nil_r in Hl. subst pre. by exists s.
    - destruct (Hstep pre a suf s Hl Hs) as (s1 & Hrun & Hs1).
      cbn [for_each]. rewrite Hrun, bind_ret.
      apply (IH (pre ++ [a])); [|done]. by rewrite <-app_assoc. }
  by apply (Hgen l []).
Qed.

Section lookup2.
Context `{Countable K} {V : Type}.

Lemma lookup2_insert_eq (m : gmap K (gmap Z V)) k e v inner :
  (<[k := <[e := v]> inner]> m) !! k ≫= (.!! e) = Some v.
Proof. rewrite lookup_insert_eq. cbn. apply lookup_insert_eq. Qed.

Lemma lookup2_insert_ne (m : gmap K (gmap Z V)) k e v inner k' e' :
  m !! k = Some inner → (k', e') ≠ (k, e) →
  (<[k := <[e := v]> inner]> m) !! k' ≫= (.!! e') = m !! k' ≫= (.!! e').
Proof.
  intros Hk Hne. destruct (decide (k' = k)) as [-> | Hk'].
  - rewrite lookup_insert_eq, Hk. cbn. apply lookup_insert_ne. congruence.
  - by rewrite lookup_insert_ne.
Qed.

End lookup2.

Section unflattening.
Context {RefEl odim : Type} `{Countable odim}.
Variable flatten_reference_cube : RefEl → FlatCell.
Variable make_entity_closure_ids : FlatCell → entity_map → entity_map.
Variable ref_get_topology : RefEl → gmap odim (gmap Z (list Z)).
Variable compute_unflattening_map :
  gmap odim (gmap Z (list Z)) → gmap (Z * Z) (odim * Z).

Local Abbreviation Elt := (@Element RefEl odim _ _).
Local Abbreviation Init :=
  (TrimmedSerendipity_init flatten_reference_cube make_entity_closure_ids
     ref_get_topology compute_unflattening_map).

Lemma remapped_ext (topology : gmap odim (gmap Z (list Z))) um ids closure
    (P Q : Z * Z → Prop) st :
  (∀ p, P p ↔ Q p) →
  remapped topology um ids closure P st → remapped topology um ids closure Q st.
Proof.
  intros HPQ (Hdom & Hin & Hout). split_and!; [done| |].
  - intros p ud ue Hp. apply Hin. by apply HPQ.
  - intros ud ue Hq. apply Hout. intros p Hp. apply Hq. by apply HPQ.
Qed.

Lemma unflatten_step_remapped (topology : gmap odim (gmap Z (list Z)))
    (flat_topology : entity_map) um ids closure (P : Z * Z → Prop) st d e :
  covers flat_topology ids → covers flat_topology closure →
  unflattening_ready topology flat_topology um →
  (∀ p q t, flat_entity flat_topology p → flat_entity flat_topology q →
            um !! p = Some t → um !! q = Some t → p = q) →
  (∀ p, P p → flat_entity flat_topology p) →
  flat_entity flat_topology (d, e) → ¬ P (d, e) →
  remapped topology um ids closure P st →
  ∃ st', unflatten_step um ids closure d e st = inr st'
         ∧ remapped topology um ids closure (λ p, P p ∨ p = (d, e)) st'.
Proof.
  intros Hids Hclosure Hready Hinj HP Hflat HnP (Hdom & Hin & Hout).
  destruct st as [v1 v2]. cbn [fst snd] in *.
  destruct Hflat as [vs Hvs]. unfold dofs_of in Hvs. cbn [fst snd] in Hvs.
  destruct (flat_topology !! d) as [entities|] eqn:Hent; [|discriminate].
  cbn in Hvs.
  destruct (Hready d entities Hent e vs Hvs) as [t Ht].
  destruct (um !! (d, e)) as [[ud ue]|] eqn:Hu; [|discriminate]. cbn in Ht.
  destruct (Hids d entities Hent e vs Hvs) as [l Hl].
  destruct (Hclosure d entities Hent e vs Hvs) as [c Hc].
  pose proof Hl as Hl'. pose proof Hc as Hc'. unfold dofs_of in Hl', Hc'.
  destruct (ids !! d) as [ids_dim|] eqn:Hi; [|discriminate].
  destruct (closure !! d) as [cl_dim|] eqn:Hcl; [|discriminate].
  cbn in Hl', Hc'.
  destruct (Hdom ud) as [Hd1 Hd2].
  destruct (proj2 Hd1 ltac:(eauto)) as [i1 Hi1].
  destruct (proj2 Hd2 ltac:(eauto)) as [i2 Hi2].
  unfold unflatten_step.
  rewrite (getitem_inr _ _ _ Hu), bind_ret. cbn beta iota.
  rewrite (getitem_inr _ _ _ Hi), bind_ret, (getitem_inr _ _ _ Hl'), bind_ret.
  unfold setitem2.
  rewrite (getitem_inr _ _ _ Hi1), bind_ret, bind_mret,
    (getitem_inr _ _ _ Hcl), bind_ret, (getitem_inr _ _ _ Hc'), bind_ret,
    (getitem_inr _ _ _ Hi2), bind_ret, bind_mret.
  eexists. split; [reflexivity|]. split_and!; cbn [fst snd].
  - intros ud'. destruct (Hdom ud') as [Hd1' Hd2'].
    destruct (decide (ud' = ud)) as [-> | Hne].
    + rewrite !lookup_insert_eq. split; split; eauto.
    + by rewrite !lookup_insert_ne.
  - intros p ud' ue' [Hp | ->] Hu'.
    + assert ((ud', ue') ≠ (ud, ue)) as Hne.
      { intros Heq. rewrite Heq in Hu'.
        assert (p = (d, e)) as ->; [|done].
        apply (Hinj p (d, e) (ud, ue)); [by apply HP| |done..].
        exists vs. unfold dofs_of. cbn [fst snd]. by rewrite Hent. }
      rewrite !lookup2_insert_ne by done. by apply Hin.
    + rewrite Hu in Hu'. injection Hu' as <- <-.
      rewrite !lookup2_insert_eq. cbn [fst snd]. by rewrite Hl, Hc.
  - intros ud' ue' Hnone.
    assert ((ud', ue') ≠ (ud, ue)) as Hne.
    { intros [= -> ->]. apply (Hnone (d, e)); [by right | done]. }
    rewrite !lookup2_insert_ne by done.
    apply Hout. intros p Hp. apply Hnone. by left.
Qed.

(** X13.  The remapping loop of the base constructor (lines 115-129): when
    the unflattening table is injective on the entities of the flattened
    topology, the constructor returns an element whose [entity_dofs()] and
    [entity_closure_dofs()] have exactly the dimensions of the original
    topology, hold under the unflattened key of every flat entity the list
    that the allocator (respectively the closure helper) gave that entity,
    and hold no other entry. *)
Theorem entity_dofs_unflattened self_basis (ref_el : RefEl) (degree : Z)
    (mapping : string) (ids : entity_map) :
  let flat_el := flatten_reference_cube ref_el in
  let flat_topology := get_topology flat_el in
  let topology := ref_get_topology ref_el in
  let unflattening_map := compute_unflattening_map topology in
  let closure := make_entity_closure_ids flat_el ids in
  1 ≤ degree →
  get_spatial_dimension flat_el = 2 ∨ get_spatial_dimension flat_el = 3 →
  allocate_entity_ids degree (get_spatial_dimension flat_el) flat_topology
    = inr ids →
  covers flat_topology ids → covers flat_topology closure →
  unflattening_ready topology flat_topology unflattening_map →
  (∀ p q t, flat_entity flat_topology p → flat_entity flat_topology q →
            unflattening_map !! p = Some t → unflattening_map !! q = Some t →
            p = q) →
  ∃ self : Elt,
    Init self_basis ref_el degree mapping = inr self
    ∧ (∀ ud, is_Some (entity_dofs self !! ud) ↔ is_Some (topology !! ud))
    ∧ (∀ ud, is_Some (entity_closure_dofs self !! ud)
             ↔ is_Some (topology !! ud))
    ∧ (∀ d e ud ue,
         flat_entity flat_topology (d, e) →
         unflattening_map !! (d, e) = Some (ud, ue) →
         entity_dofs self !! ud ≫= (.!! ue) = dofs_of ids d e
         ∧ entity_closure_dofs self !! ud ≫= (.!! ue) = dofs_of closure d e)
    ∧ (∀ ud ue,
         (∀ p, flat_entity flat_topology p →
               unflattening_map !! p ≠ Some (ud, ue)) →
         entity_dofs self !! ud ≫= (.!! ue) = None
         ∧ entity_closure_dofs self !! ud ≫= (.!! ue) = None).
Proof.
  intros flat_el flat_topology topology um closure
    Hdeg Hdim Halloc Hids Hclosure Hready Hinj.
  unfold TrimmedSerendipity_init.
  fold flat_el. fold flat_topology. fold topology. fold um.
  replace (degree <? 1) with false by (symmetry; apply Z.ltb_ge; lia).
  rewrite (dim_guard_false _ Hdim), Halloc, bind_ret. fold closure. cbn zeta.
  set (Inv := λ (dims : list Z) st,
         remapped topology um ids closure
           (λ p, p.1 ∈ dims ∧ flat_entity flat_topology p) st).
  match goal with |- context [for_each ?body ?l ?s0] =>
    assert (∃ st, for_each body l s0 = inr st ∧ Inv l st)
      as ([u1 u2] & Hrun & Hfinal);
      [apply for_each_prefix_invariant|] end.
  - (* before the loop *)
    split_and!; cbn [fst snd].
    + intros ud. rewrite !lookup_fmap. split; apply fmap_is_Some.
    + intros p ud ue [Hp _]. by apply elem_of_nil in Hp.
    + intros ud ue _. rewrite !lookup_fmap.
      destruct (topology !! ud); cbn; [|done]. by rewrite lookup_empty.
  - (* one dimension *)
    intros pre d suf st Hl Hst.
    assert (d ∈ sorted_keys flat_topology) as Hd_in.
    { rewrite Hl. apply elem_of_app. right. left. }
    assert (d ∉ pre) as Hd_pre.
    { pose proof (NoDup_sorted_keys flat_topology) as Hnd. rewrite Hl in Hnd.
      apply NoDup_app in Hnd as (_ & Hnd & _). intros Hin.
      apply (Hnd d Hin). left. }
    apply elem_of_sorted_keys in Hd_in as [entities Hent].
    rewrite (getitem_inr _ _ _ Hent), bind_ret.
    set (Inner := λ (es : list Z) st,
           remapped topology um ids closure
             (λ p, (p.1 ∈ pre ∧ flat_entity flat_topology p)
                   ∨ (p.1 = d ∧ p.2 ∈ es)) st).
    assert (∃ st', for_each (unflatten_step um ids closure d)
                     (sorted_keys entities) st = inr st'
                   ∧ Inner (sorted_keys entities) st')
      as (st' & Hrun' & Hst'); [apply for_each_prefix_invariant|].
    + eapply remapped_ext; [|exact Hst]. intros p. split; [by left|].
      intros [Hp | [_ Hp]]; [done|]. by apply elem_of_nil in Hp.
    + intros pre_e e suf_e st1 Hle Hst1.
      assert (e ∈ sorted_keys entities) as He_in.
      { rewrite Hle. apply elem_of_app. right. left. }
      assert (e ∉ pre_e) as He_pre.
      { pose proof (NoDup_sorted_keys entities) as Hnd. rewrite Hle in Hnd.
        apply NoDup_app in Hnd as (_ & Hnd & _). intros Hin.
        apply (Hnd e Hin). left. }
      apply elem_of_sorted_keys in He_in as He.
      assert (∀ e', e' ∈ sorted_keys entities →
                flat_entity flat_topology (d, e')) as Hflat_d.
      { intros e' He'. apply elem_of_sorted_keys in He'.
        unfold flat_entity, dofs_of. cbn [fst snd]. by rewrite Hent. }
      edestruct (unflatten_step_remapped topology flat_topology um ids closure
                   (λ p, (p.1 ∈ pre ∧ flat_entity flat_topology p)
                         ∨ (p.1 = d ∧ p.2 ∈ pre_e))
                   st1 d e Hids Hclosure Hready Hinj)
        as (st2 & Hstep & Hst2); [| | |exact Hst1|].
      * intros [d' e'] [[_ Hp] | [Hp1 Hp2]]; [done|]. cbn in Hp1, Hp2.
        subst d'. apply Hflat_d. rewrite Hle. apply elem_of_app. by left.
      * apply Hflat_d. by apply elem_of_sorted_keys.
      * intros [[Hp _] | [_ Hp]]; cbn in Hp; done.
      * exists st2. split; [done|].
        eapply remapped_ext; [|exact Hst2]. intros [d' e']. cbn [fst snd].
        rewrite elem_of_app, list_elem_of_singleton. split.
        -- intros [[Hp | [Hp1 Hp2]] | [= -> ->]]; eauto.
        -- intros [Hp | [-> [Hp | ->]]]; eauto.
    + exists st'. split; [done|].
      eapply remapped_ext; [|exact Hst']. intros [d' e']. cbn [fst snd].
      rewrite elem_of_app, list_elem_of_singleton. split.
      * intros [[Hp Hf] | [-> Hp]]; [by eauto|]. split; [by right|].
        apply elem_of_sorted_keys in Hp.
        unfold flat_entity, dofs_of. cbn [fst snd]. by rewrite Hent.
      * intros [[Hp | ->] Hf]; [by left|]. right. split; [done|].
        apply elem_of_sorted_keys. unfold flat_entity, dofs_of in Hf.
        cbn [fst snd] in Hf. by rewrite Hent in Hf.
  - rewrite Hrun, bind_ret. cbn beta iota. eexists. split; [reflexivity|].
    destruct Hfinal as (Hdom & Hin & Hout). cbn [fst snd] in *.
    assert (∀ p, flat_entity flat_topology p →
              p.1 ∈ sorted_keys flat_topology) as Hkeys.
    { intros [d e] [vs Hvs]. apply elem_of_sorted_keys.
      unfold dofs_of in Hvs. cbn [fst snd] in *.
      destruct (flat_topology !! d); [eauto | discriminate]. }
    unfold entity_dofs, entity_closure_dofs. cbn.
    split_and!.
    + intros ud. apply Hdom.
    + intros ud. apply Hdom.
    + intros d e ud ue Hf Hu. apply (Hin (d, e)); [|done].
      split; [by apply (Hkeys (d, e)) | done].
    + intros ud ue Hnone. apply Hout. intros p [_ Hp]. by apply Hnone.
Qed.

End unflattening.

Lemma flat_unflattening_map_lookup (topo : entity_map) p t :
  flat_unflattening_map topo !! p = Some t → t = p.
Proof.
  unfold flat_unflattening_map. intros Hp.
  apply elem_of_list_to_map_2 in Hp.
  apply list_elem_of_bind in Hp as ([d entities] & Hp & _).
  apply list_elem_of_fmap in Hp as (e & Hp & _). congruence.
Qed.

Lemma entity_dofs_unflattened_witness :
  ∃ ids (self : FlatElement),
    allocate_entity_ids 2 2 quad_topology = inr ids
    ∧ TrimmedSerendipity_init id flat_entity_closure_ids get_topology
        flat_unflattening_map ∅ (quadrilateral 0 1) 2 "covariant piola"
      = inr self
    ∧ (∀ ud, is_Some (entity_dofs self !! ud) ↔ is_Some (quad_topology !! ud))
    ∧ (∀ ud, is_Some (entity_closure_dofs self !! ud)
             ↔ is_Some (quad_topology !! ud))
    ∧ (∀ d e ud ue,
         flat_entity quad_topology (d, e) →
         flat_unflattening_map quad_topology !! (d, e) = Some (ud, ue) →
         entity_dofs self !! ud ≫= (.!! ue) = dofs_of ids d e
         ∧ entity_closure_dofs self !! ud ≫= (.!! ue)
           = dofs_of (flat_entity_closure_ids (quadrilateral 0 1) ids) d e)
    ∧ (∀ ud ue,
         (∀ p, flat_entity quad_topology p →
               flat_unflattening_map quad_topology !! p ≠ Some (ud, ue)) →
         entity_dofs self !! ud ≫= (.!! ue) = None
         ∧ entity_closure_dofs self !! ud ≫= (.!! ue) = None).
Proof.
  destruct (allocate_2d 2 quad_topology (quad_topology !!! 1))
    as (ids & Halloc & Hcov & _); [lia | reflexivity | by eexists |].
  exists ids.
  destruct (entity_dofs_unflattened id flat_entity_closure_ids get_topology
              flat_unflattening_map ∅ (quadrilateral 0 1) 2
              "covariant piola" ids) as (self & Hself);
    [lia | by left | exact Halloc | exact Hcov
    | apply flat_entity_closure_covers | exact quad_unflattening_ready | |].
  - intros p q t _ _ Hp Hq.
    apply flat_unflattening_map_lookup in Hp, Hq. congruence.
  - exists self. split; [exact Halloc | exact Hself].
Defined.

Section attributes.
Context {RefEl odim : Type} `{Countable odim}.
Variable flatten_reference_cube : RefEl → FlatCell.
Variable make_entity_closure_ids : FlatCell → entity_map → entity_map.
Variable ref_get_topology : RefEl → gmap odim (gmap Z (list Z)).
Variable compute_unflattening_map :
  gmap odim (gmap Z (list Z)) → gmap (Z * Z) (odim * Z).

Local Abbreviation Elt := (@Element RefEl odim _ _).
Local Abbreviation Init :=
  (TrimmedSerendipity_init flatten_reference_cube make_entity_closure_ids
     ref_get_topology compute_unflattening_map).
Local Abbreviation Edge :=
  (TrimmedSerendipityEdge_init flatten_reference_cube make_entity_closure_ids
     ref_get_topology compute_unflattening_map).
Local Abbreviation Face :=
  (TrimmedSerendipityFace_init flatten_reference_cube make_entity_closure_ids
     ref_get_topology compute_unflattening_map).
Local Abbreviation dim_of ref_el :=
  (get_spatial_dimension (flatten_reference_cube ref_el)).

Lemma dim_guard_inv (d : Z) :
  negb (d =? 2) && negb (d =? 3) = false → d = 2 ∨ d = 3.
Proof.
  intros Hg. apply andb_false_iff in Hg as [Hg | Hg];
    apply negb_false_iff, Z.eqb_eq in Hg; auto.
Qed.

(** What a returning base constructor has stored. *)
Lemma Init_inr self_basis (ref_el : RefEl) (degree : Z) (mapping : string)
    (self : Elt) :
  Init self_basis ref_el degree mapping = inr self →
  ∃ ids u c,
    1 ≤ degree ∧ (dim_of ref_el = 2 ∨ dim_of ref_el = 3)
    ∧ allocate_entity_ids degree (dim_of ref_el)
        (get_topology (flatten_reference_cube ref_el)) = inr ids
    ∧ self = {| ref_el := ref_el; dual := None; order := degree;
                formdegree := 1; mapping := mapping;
                entity_ids := u; entity_closure_ids := c;
                _degree := degree;
                flat_el := flatten_reference_cube ref_el;
                basis := self_basis |}
    ∧ ∀ self_basis' mapping',
        Init self_basis' ref_el degree mapping'
        = inr {| ref_el := ref_el; dual := None; order := degree;
                 formdegree := 1; mapping := mapping';
                 entity_ids := u; entity_closure_ids := c;
                 _degree := degree;
                 flat_el := flatten_reference_cube ref_el;
                 basis := self_basis' |}.
Proof.
  unfold TrimmedSerendipity_init.
  destruct (degree <? 1) eqn:Hdeg; [discriminate|]. apply Z.ltb_ge in Hdeg.
  destruct (negb _ && negb _) eqn:Hdim; [discriminate|].
  apply dim_guard_inv in Hdim.
  destruct (allocate_entity_ids _ _ _) as [e|ids] eqn:Halloc; [discriminate|].
  rewrite bind_ret. cbn zeta.
  match goal with |- context [for_each ?body ?l ?s0] =>
    destruct (for_each body l s0) as [e|[u c]] eqn:Hloop end; [discriminate|].
  rewrite bind_ret. cbn beta iota. intros [= <-].
  exists ids, u, c. split_and!; try done.
  intros self_basis' mapping'. rewrite ?bind_ret. cbn zeta.
  rewrite ?Hloop, ?bind_ret. reflexivity.
Qed.

End attributes.

Section constructed.
Context {RefEl odim : Type} `{Countable odim}.
Variable flatten_reference_cube : RefEl → FlatCell.
Variable make_entity_closure_ids : FlatCell → entity_map → entity_map.
Variable ref_get_topology : RefEl → gmap odim (gmap Z (list Z)).
Variable compute_unflattening_map :
  gmap odim (gmap Z (list Z)) → gmap (Z * Z) (odim * Z).

Local Abbreviation Elt := (@Element RefEl odim _ _).
Local Abbreviation Init :=
  (TrimmedSerendipity_init flatten_reference_cube make_entity_closure_ids
     ref_get_topology compute_unflattening_map).
Local Abbreviation Edge :=
  (TrimmedSerendipityEdge_init flatten_reference_cube make_entity_closure_ids
     ref_get_topology compute_unflattening_map).
Local Abbreviation Face :=
  (TrimmedSerendipityFace_init flatten_reference_cube make_entity_closure_ids
     ref_get_topology compute_unflattening_map).
Local Abbreviation dim_of ref_el :=
  (get_spatial_dimension (flatten_reference_cube ref_el)).

(** X14.  Called directly, the base constructor rejects a degree below 1
    and a flattened dimension other than 2 and 3 with its own messages,
    the degree being checked first. *)
Theorem base_constructor_guards self_basis (ref_el : RefEl) (degree : Z)
    (mapping : string) :
  invalid_configuration degree (dim_of ref_el) →
  Init self_basis ref_el degree mapping =
    raise (Exception
      (if degree <? 1
       then "Trimmed serendipity elements only valid for k >= 1"
       else "Trimmed serendipity elements only valid for dimensions 2 and 3")).
Proof.
  intros Hbad. unfold TrimmedSerendipity_init.
  destruct (degree <? 1) eqn:Hdeg; [done|].
  destruct Hbad as [Hlt | [H2 H3]]; [apply Z.ltb_ge in Hdeg; lia|].
  by rewrite (dim_guard_true _ H2 H3).
Qed.

Lemma Edge_inr (ref_el : RefEl) (degree : Z) (self : Elt) :
  Edge ref_el degree = inr self →
  ∃ b, Init {[ (0, 0) := b ]} ref_el degree "covariant piola" = inr self.
Proof.
  unfold TrimmedSerendipityEdge_init.
  destruct (degree <? 1); [discriminate|].
  destruct (negb _ && negb _); [discriminate|].
  intros Hrun. apply bind_inr in Hrun as ([[EL FL] IL] & _ & Hrun).
  apply bind_inr in Hrun as (b & _ & Hrun). eauto.
Qed.

Lemma Face_inr (ref_el : RefEl) (degree : Z) (self : Elt) :
  Face ref_el degree = inr self →
  ∃ b, Init {[ (0, 0) := b ]} ref_el degree "contravariant piola" = inr self.
Proof.
  unfold TrimmedSerendipityFace_init.
  destruct (degree <? 1); [discriminate|].
  destruct (negb _ && negb _); [discriminate|].
  intros Hrun. apply bind_inr in Hrun as ([[EL FL] IL] & _ & Hrun).
  apply bind_inr in Hrun as (IL' & _ & Hrun).
  apply bind_inr in Hrun as (b & _ & Hrun). eauto.
Qed.

(** X15.  Whatever the Edge or the Face constructor returns is an element
    of a valid configuration: the degree is at least 1 and the flattened
    dimension is 2 or 3 (3 for a Face element); [degree()] and [order] are
    the degree given, [formdegree] is 1 for both kinds, there is no dual
    set, the cell and its flattening are stored, the cache holds the
    order-0 array alone, and the mapping is covariant Piola for Edge and
    contravariant Piola for Face. *)
Theorem constructed_element_attributes (cell : RefEl) (deg : Z)
    (self : Elt) :
  Edge cell deg = inr self ∨ Face cell deg = inr self →
  1 ≤ deg
  ∧ (dim_of cell = 2 ∨ dim_of cell = 3)
  ∧ degree self = deg ∧ order self = deg
  ∧ formdegree self = 1 ∧ dual self = None
  ∧ ref_el self = cell
  ∧ flat_el self = flatten_reference_cube cell
  ∧ (∃ b, basis self = {[ (0, 0) := b ]})
  ∧ (Edge cell deg = inr self → mapping self = "covariant piola"%string)
  ∧ (Face cell deg = inr self →
     mapping self = "contravariant piola"%string ∧ dim_of cell = 3).
Proof.
  intros Hself.
  assert (∃ b m, Init {[ (0, 0) := b ]} cell deg m = inr self
                 ∧ (Edge cell deg = inr self → m = "covariant piola"%string)
                 ∧ (Face cell deg = inr self →
                    m = "contravariant piola"%string))
    as (b & m & Hinit & HmE & HmF).
  { destruct Hself as [HE | HF].
    - destruct (Edge_inr _ _ _ HE) as [b Hb].
      exists b, "covariant piola"%string. split; [done|].
      split; [done|]. intros HF. destruct (Face_inr _ _ _ HF) as [b' Hb'].
      destruct (Init_inr _ _ _ _ _ _ _ _ _ Hb)
        as (? & ? & ? & _ & _ & _ & -> & _).
      destruct (Init_inr _ _ _ _ _ _ _ _ _ Hb')
        as (? & ? & ? & _ & _ & _ & Heq & _).
      by injection Heq.
    - destruct (Face_inr _ _ _ HF) as [b Hb].
      exists b, "contravariant piola"%string. split; [done|].
      split; [|done]. intros HE. destruct (Edge_inr _ _ _ HE) as [b' Hb'].
      destruct (Init_inr _ _ _ _ _ _ _ _ _ Hb)
        as (? & ? & ? & _ & _ & _ & -> & _).
      destruct (Init_inr _ _ _ _ _ _ _ _ _ Hb')
        as (? & ? & ? & _ & _ & _ & Heq & _).
      by injection Heq. }
  destruct (Init_inr _ _ _ _ _ _ _ _ _ Hinit)
    as (ids & u & c & Hdeg & Hdim & _ & -> & _).
  split_and!; try done.
  - by eexists.
  - intros HF. split; [by apply HmF|].
    destruct Hdim as [Hdim | Hdim]; [|done].
    destruct (Face_2d_never_returns flatten_reference_cube
                make_entity_closure_ids ref_get_topology
                compute_unflattening_map cell deg Hdim) as [e He].
    rewrite He in HF. discriminate.
Qed.

End constructed.

Lemma constructed_element_attributes_witness :
  ∃ self : FlatElement,
    FlatEdge (quadrilateral 0 1) 2 = inr self
    ∧ 1 ≤ 2
    ∧ (get_spatial_dimension (quadrilateral 0 1) = 2
       ∨ get_spatial_dimension (quadrilateral 0 1) = 3)
    ∧ degree self = 2 ∧ order self = 2
    ∧ formdegree self = 1 ∧ dual self = None
    ∧ ref_el self = quadrilateral 0 1
    ∧ flat_el self = quadrilateral 0 1
    ∧ (∃ b, basis self = {[ (0, 0) := b ]})
    ∧ (FlatEdge (quadrilateral 0 1) 2 = inr self →
       mapping self = "covariant piola"%string)
    ∧ (FlatFace (quadrilateral 0 1) 2 = inr self →
       mapping self = "contravariant piola"%string
       ∧ get_spatial_dimension (quadrilateral 0 1) = 3).
Proof.
  eexists. split; [vm_compute; reflexivity|].
  apply (constructed_element_attributes id flat_entity_closure_ids
           get_topology flat_unflattening_map (quadrilateral 0 1) 2).
  left. vm_compute. reflexivity.
Defined.

Lemma base_constructor_guards_witness :
  TrimmedSerendipity_init id flat_entity_closure_ids get_topology
    flat_unflattening_map ∅ (interval 0 1) 1 "covariant piola"
  = raise (Exception
             "Trimmed serendipity elements only valid for dimensions 2 and 3").
Proof.
  apply (base_constructor_guards id flat_entity_closure_ids get_topology
           flat_unflattening_map ∅ (interval 0 1) 1 "covariant piola").
  right. split; discriminate.
Defined.

(** ** The constructors on a 3D cell *)

Lemma try_z_3d verts lo hi lz hz :
  corners verts lo hi → lo !! 2%nat = Some lz → hi !! 2%nat = Some hz →
  try_z verts = inr (Some (blend_of lz hz z, mid_of lz hz z)).
Proof.
  intros Hc Hl Hh. unfold try_z.
  rewrite (blending_inr _ _ _ _ _ _ _ Hc Hl Hh), bind_ret.
  rewrite (midpoint_inr _ _ _ _ _ _ _ Hc Hl Hh), bind_ret. reflexivity.
Qed.

Lemma raw_terms_3d degree verts lo hi lx ly lz hx hy hz :
  corners verts lo hi →
  lo !! 0%nat = Some lx → lo !! 1%nat = Some ly → lo !! 2%nat = Some lz →
  hi !! 0%nat = Some hx → hi !! 1%nat = Some hy → hi !! 2%nat = Some hz →
  let dx := blend_of lx hx x in
  let dy := blend_of ly hy y in
  let dz := blend_of lz hz z in
  let x_mid := mid_of lx hx x in
  let y_mid := mid_of ly hy y in
  let z_mid := mid_of lz hz z in
  raw_terms 3 degree verts =
    inr (e_lambda_1_3d_trimmed dx dy dz x_mid y_mid z_mid degree,
         if 2 <=? degree
         then trimmed_f_lambda_3d dx dy dz x_mid y_mid z_mid degree else [],
         Some (if 4 <=? degree
               then I_lambda_1_3d dx dy dz x_mid y_mid z_mid degree
                    ++ I_lambda_1_tilde_3d dx dy dz x_mid y_mid z_mid degree
               else [])).
Proof.
  intros Hc Hlx Hly Hlz Hhx Hhy Hhz. cbn zeta. unfold raw_terms.
  rewrite (blending_inr _ _ _ _ _ _ _ Hc Hlx Hhx),
    (blending_inr _ _ _ _ _ _ _ Hc Hly Hhy),
    (midpoint_inr _ _ _ _ _ _ _ Hc Hlx Hhx),
    (midpoint_inr _ _ _ _ _ _ _ Hc Hly Hhy).
  rewrite !bind_ret.
  rewrite (try_z_3d _ _ _ _ _ Hc Hlz Hhz), bind_ret.
  cbn. destruct (2 <=? degree), (4 <=? degree); reflexivity.
Qed.

(** The comprehension [[[-a[1], a[0]] for a in bdmcf_list]]. *)
Lemma rotate_terms (l : list term) :
  Forall (λ t : term, (2 ≤ length t)%nat) l →
  mapM (λ a : term, a1 ← index a 1; a0 ← index a 0; mret [- a1; a0]%E) l
  = inr ((λ a : term, [- default (Int 0) (a !! 1%nat);
                       default (Int 0) (a !! 0%nat)]%E) <$> l).
Proof.
  induction 1 as [|t l Ht _ IH]; [reflexivity|].
  cbn [mapM fmap list_fmap]. rewrite IH.
  destruct t as [|a0 [|a1 t]]; cbn in Ht; [lia..|]. reflexivity.
Qed.

Section on_3d_cells.
Context {RefEl odim : Type} `{Countable odim}.
Variable flatten_reference_cube : RefEl → FlatCell.
Variable make_entity_closure_ids : FlatCell → entity_map → entity_map.
Variable ref_get_topology : RefEl → gmap odim (gmap Z (list Z)).
Variable compute_unflattening_map :
  gmap odim (gmap Z (list Z)) → gmap (Z * Z) (odim * Z).

Local Abbreviation Elt := (@Element RefEl odim _ _).
Local Abbreviation Init :=
  (TrimmedSerendipity_init flatten_reference_cube make_entity_closure_ids
     ref_get_topology compute_unflattening_map).
Local Abbreviation Edge :=
  (TrimmedSerendipityEdge_init flatten_reference_cube make_entity_closure_ids
     ref_get_topology compute_unflattening_map).
Local Abbreviation Face :=
  (TrimmedSerendipityFace_init flatten_reference_cube make_entity_closure_ids
     ref_get_topology compute_unflattening_map).

Local Abbreviation on_cell :=
  (cell_3d flatten_reference_cube make_entity_closure_ids ref_get_topology
     compute_unflattening_map).

Lemma constructors_3d (ref_el : RefEl) (degree : Z) lx ly lz hx hy hz
    edges faces :
  let flat_el := flatten_reference_cube ref_el in
  let dx := blend_of lx hx x in
  let dy := blend_of ly hy y in
  let dz := blend_of lz hz z in
  let x_mid := mid_of lx hx x in
  let y_mid := mid_of ly hy y in
  let z_mid := mid_of lz hz z in
  let b :=
    e_lambda_1_3d_trimmed dx dy dz x_mid y_mid z_mid degree
    ++ (if 2 <=? degree
        then trimmed_f_lambda_3d dx dy dz x_mid y_mid z_mid degree else [])
    ++ (if 4 <=? degree
        then I_lambda_1_3d dx dy dz x_mid y_mid z_mid degree
             ++ I_lambda_1_tilde_3d dx dy dz x_mid y_mid z_mid degree
        else []) in
  1 ≤ degree →
  on_cell ref_el [lx; ly; lz] [hx; hy; hz] edges faces →
  ∃ ids u c,
    allocate_entity_ids degree 3 (get_topology flat_el) = inr ids
    ∧ Edge ref_el degree
      = inr {| ref_el := ref_el; dual := None; order := degree;
               formdegree := 1; mapping := "covariant piola";
               entity_ids := u; entity_closure_ids := c; _degree := degree;
               flat_el := flat_el; basis := {[ (0, 0) := b ]} |}
    ∧ Face ref_el degree
      = inr {| ref_el := ref_el; dual := None; order := degree;
               formdegree := 1; mapping := "contravariant piola";
               entity_ids := u; entity_closure_ids := c; _degree := degree;
               flat_el := flat_el;
               basis :=
                 {[ (0, 0) :=
                      (λ a : term, [- default (Int 0) (a !! 1%nat);
                                    default (Int 0) (a !! 0%nat)]%E) <$> b ]} |}
    ∧ width 3 b.
Proof.
  intros flat_el dx dy dz x_mid y_mid z_mid b Hdeg
    (Hdim & Hc & _ & _ & Hedges & Hfaces & Hcells & Hclosure & Hready).
  subst flat_el.
  destruct (allocate_3d degree
              (get_topology (flatten_reference_cube ref_el)) edges faces)
    as (ids & Halloc & _); [lia | done | done |].
  pose proof (allocate_3d_covers _ _ _ _ _ Hedges Hfaces Hcells Halloc)
    as Hcov.
  destruct (TrimmedSerendipity_init_returns flatten_reference_cube
              make_entity_closure_ids ref_get_topology
              compute_unflattening_map ∅ ref_el degree "" ids)
    as (self0 & Hinit & _); [lia | by right | by rewrite Hdim | done
                            | by apply Hclosure | done |].
  destruct (Init_inr _ _ _ _ _ _ _ _ _ Hinit)
    as (ids' & u & c & _ & _ & _ & _ & Hany).
  assert (width 3 b) as Hw.
  { unfold b.
    destruct (width_generators_3d dx dy dz x_mid y_mid z_mid degree)
      as (HE & HF & HI & HIt).
    repeat apply width_app; [done| |].
    - destruct (2 <=? degree); [done | constructor].
    - destruct (4 <=? degree); [by apply width_app | constructor]. }
  exists ids, u, c. split; [done|]. split_and!; [| |done].
  - unfold TrimmedSerendipityEdge_init.
    replace (degree <? 1) with false by (symmetry; apply Z.ltb_ge; lia).
    rewrite Hdim. cbn [Z.eqb negb andb Pos.eqb].
    rewrite (raw_terms_3d degree _ _ _ lx ly lz hx hy hz Hc) by done.
    rewrite bind_ret. cbn beta iota. unfold load_local.
    rewrite bind_mret, bind_mret. rewrite <-app_assoc. apply Hany.
  - unfold TrimmedSerendipityFace_init.
    replace (degree <? 1) with false by (symmetry; apply Z.ltb_ge; lia).
    rewrite Hdim. cbn [Z.eqb negb andb Pos.eqb].
    rewrite (raw_terms_3d degree _ _ _ lx ly lz hx hy hz Hc) by done.
    rewrite bind_ret. cbn beta iota. unfold load_local. rewrite bind_mret.
    cbn zeta. fold dx dy dz x_mid y_mid z_mid. fold b.
    rewrite rotate_terms, bind_ret.
    + apply Hany.
    + eapply Forall_impl; [exact Hw|]. cbn. intros t ->. lia.
Qed.

(** X16.  On a 3D cell the Edge constructor returns for every degree
    [d >= 1]; the order-0 array is the list of edge terms, followed from
    degree 2 on by the face terms and from degree 4 on by the interior
    terms and their tilde terms; its entries number
    [12d + (12 T(d-2) + 6d) + (3 choose_ijk_total(d-4) + 6 + k (d-4))],
    the second and third summands present from degree 2 and 4 on, with
    [k = 2] up to degree 5 and 3 above; every entry has three components
    although [value_shape()] is [(2,)]; and [space_dimension()] is the
    integer part of three halves of the number of entries. *)
Theorem Edge_3d_basis (ref_el : RefEl) (degree : Z) lx ly lz hx hy hz
    edges faces :
  let dx := blend_of lx hx x in
  let dy := blend_of ly hy y in
  let dz := blend_of lz hz z in
  let x_mid := mid_of lx hx x in
  let y_mid := mid_of ly hy y in
  let z_mid := mid_of lz hz z in
  1 ≤ degree →
  on_cell ref_el [lx; ly; lz] [hx; hy; hz] edges faces →
  ∃ (self : Elt) b,
    Edge ref_el degree = inr self
    ∧ basis self = {[ (0, 0) := b ]}
    ∧ b = e_lambda_1_3d_trimmed dx dy dz x_mid y_mid z_mid degree
          ++ (if 2 <=? degree
              then trimmed_f_lambda_3d dx dy dz x_mid y_mid z_mid degree
              else [])
          ++ (if 4 <=? degree
              then I_lambda_1_3d dx dy dz x_mid y_mid z_mid degree
                   ++ I_lambda_1_tilde_3d dx dy dz x_mid y_mid z_mid degree
              else [])
    ∧ zlen b
      = 12 * degree
        + (if 2 <=? degree
           then 12 * triangular_number (degree - 2) + 6 * degree else 0)
        + (if 4 <=? degree
           then 3 * choose_ijk_total (degree - 4) + 6
                + (if 5 <? degree then 3 else 2) * (degree - 4)
           else 0)
    ∧ width 3 b
    ∧ value_shape self = [2]
    ∧ space_dimension self = inr (Z.quot (3 * zlen b) 2).
Proof.
  intros dx dy dz x_mid y_mid z_mid Hdeg Hcell.
  destruct (constructors_3d ref_el degree lx ly lz hx hy hz edges faces
              Hdeg Hcell) as (ids & u & c & _ & HE & _ & Hw).
  fold dx dy dz x_mid y_mid z_mid in HE, Hw.
  eexists _, _. split; [exact HE|]. split; [reflexivity|].
  split; [reflexivity|]. split_and!; [|exact Hw|reflexivity|].
  - rewrite !zlen_app.
    rewrite zlen_e_lambda_1_3d_trimmed.
    pose proof (zlen_trimmed_f_lambda_3d dx dy dz x_mid y_mid z_mid degree)
      as HF.
    pose proof (zlen_I_lambda_1_3d dx dy dz x_mid y_mid z_mid degree) as HI.
    pose proof (zlen_I_lambda_1_tilde_3d dx dy dz x_mid y_mid z_mid degree)
      as HIt.
    destruct (2 <=? degree) eqn:H2; destruct (4 <=? degree) eqn:H4;
      rewrite ?zlen_app, ?HF, ?HI, ?HIt, ?H2, ?zlen_nil;
      [apply Z.leb_le in H2 | apply Z.leb_le in H2
      | apply Z.leb_gt in H2 | apply Z.leb_gt in H2];
      [apply Z.leb_le in H4 | apply Z.leb_gt in H4
      | apply Z.leb_le in H4 | apply Z.leb_gt in H4];
      change (zlen (@nil term)) with 0; destruct (5 <? degree); lia.
  - unfold space_dimension. cbn [basis].
    rewrite (getitem_inr _ _ _ (lookup_singleton_eq _ _)), bind_ret.
    by rewrite (len_Array_width 3 _ Hw).
Qed.

(** X17.  On a 3D cell the Face constructor returns for every degree
    [d >= 1], and its order-0 array is that of the Edge element entry by
    entry with [(a0, a1, a2)] replaced by [(-a1, a0)]: the third component
    is dropped.  The two elements have the same entity-DOF and
    entity-closure-DOF maps, and [space_dimension()] of the Face element is
    the number of entries. *)
Theorem Face_3d_rotates_Edge (ref_el : RefEl) (degree : Z) lx ly lz hx hy hz
    edges faces :
  1 ≤ degree →
  on_cell ref_el [lx; ly; lz] [hx; hy; hz] edges faces →
  ∃ (edge face : Elt) b bf,
    Edge ref_el degree = inr edge ∧ Face ref_el degree = inr face
    ∧ basis edge = {[ (0, 0) := b ]} ∧ basis face = {[ (0, 0) := bf ]}
    ∧ length bf = length b
    ∧ (∀ (i : nat) t, b !! i = Some t →
         ∃ a0 a1 a2, t = [a0; a1; a2] ∧ bf !! i = Some [- a1; a0]%E)
    ∧ mapping edge = "covariant piola"%string
    ∧ mapping face = "contravariant piola"%string
    ∧ entity_dofs face = entity_dofs edge
    ∧ entity_closure_dofs face = entity_closure_dofs edge
    ∧ space_dimension face = inr (zlen b).
Proof.
  intros Hdeg Hcell.
  destruct (constructors_3d ref_el degree lx ly lz hx hy hz edges faces
              Hdeg Hcell) as (ids & u & c & _ & HE & HF & Hw).
  eexists _, _, _, _. split; [exact HE|]. split; [exact HF|].
  split; [reflexivity|]. split; [reflexivity|].
  split_and!; try reflexivity.
  - apply length_fmap.
  - intros i t Hi. rewrite list_lookup_fmap, Hi.
    pose proof (proj1 (Forall_lookup _ _) Hw i t Hi) as Ht.
    destruct t as [|a0 [|a1 [|a2 [|? ?]]]]; cbn in Ht; try lia.
    by exists a0, a1, a2.
  - unfold space_dimension. cbn [basis].
    rewrite (getitem_inr _ _ _ (lookup_singleton_eq _ _)), bind_ret.
    rewrite (len_Array_width 2).
    + rewrite zlen_fmap. cbv [mret result_ret]. f_equal.
      rewrite Z.mul_comm. apply Z.quot_mul. lia.
    + apply Forall_fmap, Forall_forall. by intros.
Qed.

(** X18.  On a 3D cell with 12 edges and 6 faces, at the degrees 1, 2 and
    3, the generators produce exactly as many terms as the allocator hands
    out indices: the allocated indices are those of [[0, N)], each once,
    where [N = 12d + 6 (2 T(d-2) + d)] (the second summand from degree 2
    on) is both the number of basis entries and [space_dimension()] of the
    Face element. *)
Theorem Face_3d_partition_low_degree (ref_el : RefEl) (degree : Z)
    lx ly lz hx hy hz edges faces :
  1 ≤ degree ≤ 3 →
  on_cell ref_el [lx; ly; lz] [hx; hy; hz] edges faces →
  size edges = 12%nat → size faces = 6%nat →
  ∃ (edge face : Elt) ids b N,
    Edge ref_el degree = inr edge ∧ Face ref_el degree = inr face
    ∧ allocate_entity_ids degree 3
        (get_topology (flatten_reference_cube ref_el)) = inr ids
    ∧ all_dofs ids ≡ₚ range 0 N
    ∧ N = 12 * degree
          + (if 2 <=? degree
             then 6 * (2 * triangular_number (degree - 2) + degree) else 0)
    ∧ space_dimension face = inr N
    ∧ basis edge = {[ (0, 0) := b ]} ∧ zlen b = N.
Proof.
  intros Hdeg Hcell HsE HsF.
  destruct (constructors_3d ref_el degree lx ly lz hx hy hz edges faces
              ltac:(lia) Hcell) as (ids & u & c & Halloc & HE & HF & Hw).
  destruct Hcell as (_ & _ & _ & _ & Hedges & Hfaces & _).
  destruct (allocate_3d degree _ edges faces ltac:(lia) Hedges Hfaces)
    as (ids' & Halloc' & _ & Hperm).
  rewrite Halloc in Halloc'. injection Halloc' as <-.
  set (N := 12 * degree
            + (if 2 <=? degree
               then 6 * (2 * triangular_number (degree - 2) + degree) else 0)).
  match type of HE with _ = inr ?e => match e with
    context [ {[ (0, 0) := ?b0 ]} ] => set (b := b0) in * end end.
  assert (zlen b = N) as Hb.
  { unfold b, N. rewrite !zlen_app.
    rewrite zlen_e_lambda_1_3d_trimmed.
    match goal with |- context [trimmed_f_lambda_3d ?dx ?dy ?dz ?xm ?ym ?zm _] =>
      pose proof (zlen_trimmed_f_lambda_3d dx dy dz xm ym zm degree) as HFl
    end.
    replace (4 <=? degree) with false by (symmetry; apply Z.leb_gt; lia).
    change (zlen (@nil term)) with 0.
    destruct (2 <=? degree); rewrite ?HFl, ?Z.add_0_r; lia. }
  eexists _, _, ids, b, N. split; [exact HE|]. split; [exact HF|].
  split; [done|]. split_and!; try done.
  - rewrite Hperm. unfold N, interior_block, face_block.
    rewrite HsE, HsF.
    replace (4 <=? degree) with false by (symmetry; apply Z.leb_gt; lia).
    replace (degree <? 4) with true by (symmetry; apply Z.ltb_lt; lia).
    destruct (2 <=? degree);
      match goal with |- range 0 ?a ≡ₚ range 0 ?b =>
        replace a with b by lia end; done.
  - unfold space_dimension. cbn [basis].
    rewrite (getitem_inr _ _ _ (lookup_singleton_eq _ _)), bind_ret.
    rewrite (len_Array_width 2).
    + rewrite zlen_fmap, Hb. cbv [mret result_ret]. f_equal.
      rewrite Z.mul_comm. apply Z.quot_mul. lia.
    + apply Forall_fmap, Forall_forall. by intros.
Qed.

End on_3d_cells.

Lemma hexahedron_cell_3d (lo hi : Q) :
  cell_3d id flat_entity_closure_ids get_topology flat_unflattening_map
    (hexahedron lo hi) [lo; lo; lo] [hi; hi; hi]
    (hex_topology !!! 1) (hex_topology !!! 2).
Proof.
  split_and!; try reflexivity.
  - split; reflexivity.
  - intros cells e Hcells He.
    assert (hex_topology !! 3 = Some {[ 0 := [0; 1; 2; 3; 4; 5; 6; 7] ]})
      as Hthree by reflexivity.
    cbn in Hcells. rewrite Hthree in Hcells. injection Hcells as <-.
    destruct He as [v Hv]. by apply lookup_singleton_Some in Hv as [? _].
  - intros ids _. apply flat_entity_closure_covers.
  - exact hex_unflattening_ready.
Defined.

Lemma Edge_3d_basis_witness :
  ∃ (self : FlatElement) b,
    FlatEdge (hexahedron 0 1) 4 = inr self
    ∧ basis self = {[ (0, 0) := b ]}
    ∧ b = e_lambda_1_3d_trimmed unit_dx unit_dy unit_dz
            unit_x_mid unit_y_mid unit_z_mid 4
          ++ (if 2 <=? 4
              then trimmed_f_lambda_3d unit_dx unit_dy unit_dz
                     unit_x_mid unit_y_mid unit_z_mid 4
              else [])
          ++ (if 4 <=? 4
              then I_lambda_1_3d unit_dx unit_dy unit_dz
                     unit_x_mid unit_y_mid unit_z_mid 4
                   ++ I_lambda_1_tilde_3d unit_dx unit_dy unit_dz
                        unit_x_mid unit_y_mid unit_z_mid 4
              else [])
    ∧ zlen b
      = 12 * 4
        + (if 2 <=? 4 then 12 * triangular_number (4 - 2) + 6 * 4 else 0)
        + (if 4 <=? 4
           then 3 * choose_ijk_total (4 - 4) + 6
                + (if 5 <? 4 then 3 else 2) * (4 - 4)
           else 0)
    ∧ width 3 b
    ∧ value_shape self = [2]
    ∧ space_dimension self = inr (Z.quot (3 * zlen b) 2).
Proof.
  apply (Edge_3d_basis id flat_entity_closure_ids get_topology
           flat_unflattening_map (hexahedron 0 1) 4 0%Q 0%Q 0%Q 1%Q 1%Q 1%Q
           (hex_topology !!! 1) (hex_topology !!! 2)).
  - lia.
  - apply hexahedron_cell_3d.
Defined.

Lemma Face_3d_rotates_Edge_witness :
  ∃ (edge face : FlatElement) b bf,
    FlatEdge (hexahedron 0 1) 2 = inr edge
    ∧ FlatFace (hexahedron 0 1) 2 = inr face
    ∧ basis edge = {[ (0, 0) := b ]} ∧ basis face = {[ (0, 0) := bf ]}
    ∧ length bf = length b
    ∧ (∀ (i : nat) t, b !! i = Some t →
         ∃ a0 a1 a2, t = [a0; a1; a2] ∧ bf !! i = Some [- a1; a0]%E)
    ∧ mapping edge = "covariant piola"%string
    ∧ mapping face = "contravariant piola"%string
    ∧ entity_dofs face = entity_dofs edge
    ∧ entity_closure_dofs face = entity_closure_dofs edge
    ∧ space_dimension face = inr (zlen b).
Proof.
  apply (Face_3d_rotates_Edge id flat_entity_closure_ids get_topology
           flat_unflattening_map (hexahedron 0 1) 2 0%Q 0%Q 0%Q 1%Q 1%Q 1%Q
           (hex_topology !!! 1) (hex_topology !!! 2)).
  - lia.
  - apply hexahedron_cell_3d.
Defined.

Lemma Face_3d_partition_low_degree_witness :
  ∃ (edge face : FlatElement) ids b N,
    FlatEdge (hexahedron 0 1) 3 = inr edge
    ∧ FlatFace (hexahedron 0 1) 3 = inr face
    ∧ allocate_entity_ids 3 3 hex_topology = inr ids
    ∧ all_dofs ids ≡ₚ range 0 N
    ∧ N = 12 * 3
          + (if 2 <=? 3 then 6 * (2 * triangular_number (3 - 2) + 3) else 0)
    ∧ space_dimension face = inr N
    ∧ basis edge = {[ (0, 0) := b ]} ∧ zlen b = N.
Proof.
  apply (Face_3d_partition_low_degree id flat_entity_closure_ids get_topology
           flat_unflattening_map (hexahedron 0 1) 3 0%Q 0%Q 0%Q 1%Q 1%Q 1%Q
           (hex_topology !!! 1) (hex_topology !!! 2)).
  - lia.
  - apply hexahedron_cell_3d.
  - reflexivity.
  - reflexivity.
Defined.

(** ** The symbols of a 2D Edge element *)

Section edge_2d_symbols.
Context {RefEl odim : Type} `{Countable odim}.
Variable flatten_reference_cube : RefEl → FlatCell.
Variable make_entity_closure_ids : FlatCell → entity_map → entity_map.
Variable ref_get_topology : RefEl → gmap odim (gmap Z (list Z)).
Variable compute_unflattening_map :
  gmap odim (gmap Z (list Z)) → gmap (Z * Z) (odim * Z).

Local Abbreviation Elt := (@Element RefEl odim _ _).
Local Abbreviation Edge :=
  (TrimmedSerendipityEdge_init flatten_reference_cube make_entity_closure_ids
     ref_get_topology compute_unflattening_map).

(** X19.  On a 2D cell, for every degree [d >= 1], no component of any
    entry of the Edge element's order-0 array mentions the symbol [z], and
    every entry has two components: substituting [x] and [y], as [tabulate]
    does, leaves no symbol behind. *)
Theorem Edge_2d_free_of_z (ref_el : RefEl) (degree : Z) lx ly hx hy edges :
  let flat_el := flatten_reference_cube ref_el in
  let topology := ref_get_topology ref_el in
  1 ≤ degree →
  get_spatial_dimension flat_el = 2 →
  corners (get_vertices flat_el) [lx; ly] [hx; hy] →
  get_topology flat_el !! 1 = Some edges →
  is_Some (get_topology flat_el !! 2) →
  (∀ ids, covers (get_topology flat_el) ids →
          covers (get_topology flat_el) (make_entity_closure_ids flat_el ids)) →
  unflattening_ready topology (get_topology flat_el)
    (compute_unflattening_map topology) →
  ∃ (self : Elt) b,
    Edge ref_el degree = inr self
    ∧ basis self = {[ (0, 0) := b ]}
    ∧ width 2 b
    ∧ free_of z b.
Proof.
  intros flat_el topology Hdeg Hdim Hc Hedges Hface Hclosure Hready.
  destruct (Edge_2d_returns flatten_reference_cube make_entity_closure_ids
              ref_get_topology compute_unflattening_map ref_el degree
              lx ly hx hy [lx; ly] [hx; hy] edges)
    as (self & ids & HE & _ & Hb & _); try done.
  exists self. eexists. split; [exact HE|]. split; [exact Hb|].
  destruct (generators_2d_free_of_z (blend_of lx hx x) (blend_of ly hy y)
              (mid_of lx hx x) (mid_of ly hy y)
              eq_refl eq_refl eq_refl eq_refl eq_refl eq_refl degree)
    as [HfE HfF].
  split.
  - apply width_app; [apply width_e_lambda_1_2d_part_one|].
    destruct (2 <=? degree); [apply width_trimmed_f_lambda_2d | constructor].
  - apply free_of_app.
    + unfold e_lambda_1_2d in HfE. by apply Forall_app in HfE as [? _].
    + destruct (2 <=? degree); [done | constructor].
Qed.

End edge_2d_symbols.

Lemma Edge_2d_free_of_z_witness :
  ∃ (self : FlatElement) b,
    FlatEdge (quadrilateral 0 1) 3 = inr self
    ∧ basis self = {[ (0, 0) := b ]}
    ∧ width 2 b
    ∧ free_of z b.
Proof.
  apply (Edge_2d_free_of_z id flat_entity_closure_ids get_topology
           flat_unflattening_map (quadrilateral 0 1) 3 0%Q 0%Q 1%Q 1%Q
           (quad_topology !!! 1)).
  - lia.
  - reflexivity.
  - split; reflexivity.
  - reflexivity.
  - vm_compute. eauto.
  - intros ids _. apply flat_entity_closure_covers.
  - exact quad_unflattening_ready.
Defined.

(** ** The entity-DOF lists of a 2D Edge element *)

Section edge_2d_partition.
Context {RefEl odim : Type} `{Countable odim}.
Variable flatten_reference_cube : RefEl → FlatCell.
Variable make_entity_closure_ids : FlatCell → entity_map → entity_map.
Variable ref_get_topology : RefEl → gmap odim (gmap Z (list Z)).
Variable compute_unflattening_map :
  gmap odim (gmap Z (list Z)) → gmap (Z * Z) (odim * Z).

Local Abbreviation Elt := (@Element RefEl odim _ _).
Local Abbreviation Edge :=
  (TrimmedSerendipityEdge_init flatten_reference_cube make_entity_closure_ids
     ref_get_topology compute_unflattening_map).

(** X20.  On a 2D cell with four edges, for every degree [d >= 1], the
    lists that the allocator hands to the entities of an Edge element
    partition [[0, space_dimension())]: no index occurs twice, and an
    integer occurs in some list exactly when it lies in that range. *)
Theorem Edge_2d_partition (ref_el : RefEl) (degree : Z) lo hi edges :
  let flat_el := flatten_reference_cube ref_el in
  let topology := ref_get_topology ref_el in
  1 ≤ degree →
  get_spatial_dimension flat_el = 2 →
  corners (get_vertices flat_el) lo hi →
  (2 ≤ length lo)%nat → (2 ≤ length hi)%nat →
  get_topology flat_el !! 1 = Some edges → size edges = 4%nat →
  is_Some (get_topology flat_el !! 2) →
  (∀ ids, covers (get_topology flat_el) ids →
          covers (get_topology flat_el) (make_entity_closure_ids flat_el ids)) →
  unflattening_ready topology (get_topology flat_el)
    (compute_unflattening_map topology) →
  ∃ (self : Elt) ids N,
    Edge ref_el degree = inr self
    ∧ allocate_entity_ids degree 2 (get_topology flat_el) = inr ids
    ∧ space_dimension self = inr N
    ∧ NoDup (all_dofs ids)
    ∧ ∀ i, i ∈ all_dofs ids ↔ 0 ≤ i < N.
Proof.
  intros flat_el topology Hdeg Hdim Hc Hlo Hhi Hedges Hsize Hface Hclosure
    Hready.
  destruct (entity_dofs_partition_2d_edge flatten_reference_cube
              make_entity_closure_ids ref_get_topology
              compute_unflattening_map ref_el degree lo hi edges)
    as (self & ids & N & HE & Halloc & Hdim_N & Hperm); try done.
  exists self, ids, N. split_and!; try done.
  - rewrite Hperm. apply NoDup_seqZ.
  - intros i. rewrite Hperm. apply elem_of_range.
Qed.

End edge_2d_partition.

Lemma Edge_2d_partition_witness :
  ∃ (self : FlatElement) ids N,
    FlatEdge (quadrilateral 0 1) 3 = inr self
    ∧ allocate_entity_ids 3 2 quad_topology = inr ids
    ∧ space_dimension self = inr N
    ∧ NoDup (all_dofs ids)
    ∧ ∀ i, i ∈ all_dofs ids ↔ 0 ≤ i < N.
Proof.
  apply (Edge_2d_partition id flat_entity_closure_ids get_topology
           flat_unflattening_map (quadrilateral 0 1) 3
           [0%Q; 0%Q] [1%Q; 1%Q] (quad_topology !!! 1)).
  - lia.
  - reflexivity.
  - split; reflexivity.
  - simpl; lia.
  - simpl; lia.
  - reflexivity.
  - reflexivity.
  - vm_compute. eauto.
  - intros ids _. apply flat_entity_closure_covers.
  - exact quad_unflattening_ready.
Defined.

(** ** Tabulation: keys, cached derivatives, malformed points *)

Section tabulate_more.
Context {num sval : Type}.
Variable zero : num.
Variable evalf : expr → list (var * num) → sval.
Variable to_float : sval → result num.

Local Abbreviation cache := (gmap (Z * Z) (list term)).
Local Abbreviation tables := (gmap (Z * Z) (tensor num)).
Local Abbreviation differentiator := (expr → list (var * Z) → expr).
Local Abbreviation pass diff := (tabulate_pass zero diff evalf to_float).

Lemma cached_derivative_miss (diff : differentiator) (alpha : Z * Z)
    (basis : cache) (b0 : list term) :
  basis !! alpha = None → basis !! (0, 0) = Some b0 →
  cached_derivative diff alpha basis
  = (inr (diff_Array diff b0 [(x, alpha.1); (y, alpha.2)]),
     <[alpha := diff_Array diff b0 [(x, alpha.1); (y, alpha.2)]]> basis).
Proof.
  intros Ha H0. unfold cached_derivative.
  rewrite (getitem_inl _ _ Ha), (getitem_inr _ _ _ H0). reflexivity.
Qed.

(** The keys of the result and of the cache after a pass that returns. *)
Lemma tabulate_pass_keys (diff : differentiator) (points : list (list num))
    (alphas : list (Z * Z)) (phivals phivals' : tables) (basis basis' : cache) :
  pass diff points alphas phivals basis = (inr phivals', basis') →
  (∀ a, is_Some (phivals' !! a) ↔ is_Some (phivals !! a) ∨ a ∈ alphas)
  ∧ (∀ a, is_Some (basis' !! a) ↔ is_Some (basis !! a) ∨ a ∈ alphas).
Proof.
  revert phivals basis.
  induction alphas as [|alpha alphas IH]; intros phivals basis Hrun.
  - rewrite tabulate_pass_nil in Hrun. injection Hrun as <- <-.
    split; intros a; rewrite elem_of_nil; tauto.
  - rewrite tabulate_pass_cons in Hrun.
    destruct (basis !! alpha) as [polys|] eqn:Ha.
    + rewrite (cached_derivative_hit _ _ _ _ Ha) in Hrun.
      destruct (table zero evalf to_float polys points) as [e|T];
        [discriminate|].
      destruct (IH _ _ Hrun) as [Hphi Hbasis]. split; intros a.
      * rewrite Hphi, elem_of_cons.
        destruct (decide (a = alpha)) as [-> | Hne].
        -- rewrite lookup_insert_eq. split; eauto.
        -- rewrite lookup_insert_ne by done. tauto.
      * rewrite Hbasis, elem_of_cons. split; [tauto|].
        intros [? | [-> | ?]]; eauto.
    + destruct (basis !! (0, 0)) as [b0|] eqn:H0.
      * rewrite (cached_derivative_miss _ _ _ _ Ha H0) in Hrun.
        destruct (table zero evalf to_float _ points) as [e|T];
          [discriminate|].
        destruct (IH _ _ Hrun) as [Hphi Hbasis]. split; intros a.
        -- rewrite Hphi, elem_of_cons.
           destruct (decide (a = alpha)) as [-> | Hne].
           ++ rewrite lookup_insert_eq. split; eauto.
           ++ rewrite lookup_insert_ne by done. tauto.
        -- rewrite Hbasis, elem_of_cons.
           destruct (decide (a = alpha)) as [-> | Hne].
           ++ rewrite lookup_insert_eq. split; eauto.
           ++ rewrite lookup_insert_ne by done. tauto.
      * unfold cached_derivative in Hrun.
        rewrite (getitem_inl _ _ Ha), (getitem_inl _ _ H0) in Hrun.
        discriminate.
Qed.

(** Whatever a pass adds to the cache is a derivative of the order-0
    array. *)
Lemma tabulate_pass_derivatives (diff : differentiator)
    (points : list (list num)) (alphas : list (Z * Z)) (phivals : tables)
    (basis basis' : cache) (r : result tables) :
  pass diff points alphas phivals basis = (r, basis') →
  ∀ a p, basis !! a = None → basis' !! a = Some p →
    a ∈ alphas
    ∧ ∃ b0, basis !! (0, 0) = Some b0
            ∧ p = diff_Array diff b0 [(x, a.1); (y, a.2)].
Proof.
  revert phivals basis.
  induction alphas as [|alpha alphas IH]; intros phivals basis Hrun a p Hnew Hp.
  - rewrite tabulate_pass_nil in Hrun. injection Hrun as <- <-. congruence.
  - rewrite tabulate_pass_cons in Hrun.
    destruct (basis !! alpha) as [polys|] eqn:Ha.
    + rewrite (cached_derivative_hit _ _ _ _ Ha) in Hrun.
      destruct (table zero evalf to_float polys points) as [e|T].
      * injection Hrun as <- <-. congruence.
      * destruct (IH _ _ Hrun a p Hnew Hp) as [Hin Hb]. split; [by right|done].
    + destruct (basis !! (0, 0)) as [b0|] eqn:H0.
      * rewrite (cached_derivative_miss _ _ _ _ Ha H0) in Hrun.
        assert (alpha ≠ (0, 0)) as Hne0 by congruence.
        destruct (decide (a = alpha)) as [-> | Hne].
        -- split; [by left|]. exists b0. split; [done|].
           assert (<[alpha := diff_Array diff b0 [(x, alpha.1); (y, alpha.2)]]>
                     basis ⊆ basis') as Hsub.
           { destruct (table zero evalf to_float _ points) as [e|T].
             - by injection Hrun as <- <-.
             - by destruct (tabulate_pass_replay _ _ _ _ _ _ _ _ _ _ Hrun). }
           pose proof (lookup_weaken _ _ alpha _ (lookup_insert_eq _ _ _) Hsub).
           congruence.
        -- destruct (table zero evalf to_float _ points) as [e|T].
           ++ injection Hrun as <- <-.
              rewrite lookup_insert_ne in Hp by done. congruence.
           ++ destruct (IH _ _ Hrun a p) as [Hin (b0' & Hb0' & ->)];
                [by rewrite lookup_insert_ne | done |].
              rewrite lookup_insert_ne in Hb0' by done.
              split; [by right|]. exists b0. split; [done|]. congruence.
      * unfold cached_derivative in Hrun.
        rewrite (getitem_inl _ _ Ha), (getitem_inl _ _ H0) in Hrun.
        injection Hrun as <- <-. congruence.
Qed.

Lemma column_0_returns (polynomials : list term) :
  Forall (λ row : term, row ≠ []) polynomials →
  ∃ col, column 0 polynomials = inr col.
Proof.
  unfold column. induction 1 as [|row rows Hrow _ [col IH]]; [by eexists|].
  destruct row as [|f row]; [done|]. cbn [mapM].
  change (index (f :: row) 0) with (@inr exn _ f).
  rewrite bind_ret, IH, bind_ret. by eexists.
Qed.

Lemma make_subs_short (point : list num) :
  (length point < 2)%nat → make_subs point = raise IndexError.
Proof.
  intros Hp. unfold make_subs, enumerate. cbn. unfold index.
  destruct point as [|p0 [|p1 point]]; cbn in *; [done|done|lia].
Qed.

(** The first point is read before anything is evaluated at it. *)
Lemma table_short_point (polynomials : list term) (p : list num)
    (points : list (list num)) :
  Forall (λ row : term, row ≠ []) polynomials →
  (length p < 2)%nat →
  table zero evalf to_float polynomials (p :: points) = raise IndexError.
Proof.
  intros Hrows Hp. unfold table.
  destruct (column_0_returns _ Hrows) as [col ->]. rewrite bind_ret.
  cbn [length seq for_each].
  change (index (p :: points) 0) with (@inr exn _ p).
  rewrite bind_ret, (make_subs_short _ Hp). reflexivity.
Qed.

Context {RefEl odim edim : Type} `{Countable odim}.
Variable mis : Z → Z → list (Z * Z).
Variable get_dimension : RefEl → edim.
Variable get_entity_transform : RefEl → edim → Z → list num → list num.

Local Abbreviation Elt := (@Element RefEl odim _ _).
Local Abbreviation tab diff :=
  (tabulate zero diff evalf to_float mis get_dimension get_entity_transform).
Local Abbreviation frame :=
  (transformed_points get_dimension get_entity_transform).

Lemma elem_of_requested (order : Z) (a : Z * Z) :
  a ∈ range 0 (order + 1) ≫= mis 2 ↔ ∃ o, 0 ≤ o ≤ order ∧ a ∈ mis 2 o.
Proof.
  rewrite list_elem_of_bind. split.
  - intros (o & Ha & Ho). apply elem_of_range in Ho. exists o. split; [lia|done].
  - intros (o & Ho & Ha). exists o. split; [done|]. apply elem_of_range. lia.
Qed.

Lemma set_basis_id (self : Elt) : set_basis self (basis self) = self.
Proof. by destruct self. Qed.

(** X21.  With a negative order the loops of [tabulate] do not run: the
    result is the empty dictionary and the element, cache included, is
    unchanged, whatever the points. *)
Theorem tabulate_negative_order (diff : differentiator) (self : Elt)
    (order : Z) (points : list (list num)) (entity : option (edim * Z)) :
  order < 0 → tab diff self order points entity = (inr ∅, self).
Proof.
  intros Hneg. rewrite tabulate_pass_eq. cbn zeta.
  rewrite range_nil by lia. cbn [mbind list_bind].
  rewrite tabulate_pass_nil. cbn [fst snd]. by rewrite set_basis_id.
Qed.

(** X22.  When [tabulate] returns, the result has a table exactly for the
    multi-indices of [mis(2, o)], [0 <= o <= order], and the cache
    afterwards holds exactly its former keys and those multi-indices: every
    derivative that was asked for is stored. *)
Theorem tabulate_keys (diff : differentiator) (self : Elt) (order : Z)
    (points : list (list num)) (entity : option (edim * Z))
    (phi : tables) :
  let call := tab diff self order points entity in
  fst call = inr phi →
  (∀ alpha, is_Some (phi !! alpha)
            ↔ ∃ o, 0 ≤ o ≤ order ∧ alpha ∈ mis 2 o)
  ∧ (∀ alpha, is_Some (basis (snd call) !! alpha)
              ↔ is_Some (basis self !! alpha)
                ∨ ∃ o, 0 ≤ o ≤ order ∧ alpha ∈ mis 2 o).
Proof.
  cbn zeta. rewrite tabulate_pass_eq. cbn zeta. cbn [fst snd basis set_basis].
  destruct (pass diff (frame self points entity)
              (range 0 (order + 1) ≫= mis 2) ∅ (basis self))
    as [r basis'] eqn:Hrun.
  cbn [fst snd]. intros ->.
  destruct (tabulate_pass_keys _ _ _ _ _ _ _ Hrun) as [Hphi Hbasis].
  split; intros alpha.
  - rewrite Hphi, lookup_empty, elem_of_requested.
    split; [intros [[? [=]] | ?]; done | by right].
  - by rewrite Hbasis, elem_of_requested.
Qed.

(** X23.  Whether or not the call returns, every array that [tabulate]
    adds to the cache belongs to a requested multi-index [alpha] and is the
    order-0 array differentiated entry by entry, [alpha[0]] times in [x] and
    [alpha[1]] times in [y] (never in [z], and never starting from a lower
    cached derivative); the order-0 array itself stays in place. *)
Theorem tabulate_caches_derivatives_of_order_0 (diff : differentiator)
    (self : Elt) (order : Z) (points : list (list num))
    (entity : option (edim * Z)) (alpha : Z * Z) (polynomials : list term) :
  let call := tab diff self order points entity in
  basis self !! alpha = None →
  basis (snd call) !! alpha = Some polynomials →
  (∃ o, 0 ≤ o ≤ order ∧ alpha ∈ mis 2 o)
  ∧ ∃ b0, basis self !! (0, 0) = Some b0
          ∧ basis (snd call) !! (0, 0) = Some b0
          ∧ polynomials
            = (λ row : term,
                 (λ f, diff f [(x, alpha.1); (y, alpha.2)]) <$> row) <$> b0.
Proof.
  cbn zeta. rewrite tabulate_pass_eq. cbn zeta. cbn [fst snd basis set_basis].
  destruct (pass diff (frame self points entity)
              (range 0 (order + 1) ≫= mis 2) ∅ (basis self))
    as [r basis'] eqn:Hrun.
  cbn [fst snd]. intros Hnew Hp.
  destruct (tabulate_pass_derivatives _ _ _ _ _ _ _ Hrun _ _ Hnew Hp)
    as [Hin (b0 & Hb0 & ->)].
  split; [by apply elem_of_requested|]. exists b0. split_and!; [done| |done].
  destruct (tabulate_pass_replay _ _ _ _ _ _ _ _ _ _ Hrun) as [Hsub _].
  by eapply lookup_weaken.
Qed.

(** X24.  On an element whose cache holds the order-0 array alone, with
    entries that are not empty, a call with [order >= 0] whose first point
    (in the frame of the entity) has fewer than two coordinates raises
    [IndexError]: the substitution reads coordinates 0 and 1 of the point
    before anything is evaluated. *)
Theorem tabulate_short_point (diff : differentiator) (self : Elt)
    (order : Z) (points : list (list num)) (entity : option (edim * Z))
    (b0 : list term) (alpha : Z * Z) (rest : list (Z * Z))
    (p : list num) (pts : list (list num)) :
  0 ≤ order →
  mis 2 0 = alpha :: rest →
  basis self = {[ (0, 0) := b0 ]} →
  Forall (λ row : term, row ≠ []) b0 →
  frame self points entity = p :: pts → (length p < 2)%nat →
  fst (tab diff self order points entity) = inl IndexError.
Proof.
  intros Horder Hmis Hbasis Hrows Hframe Hp.
  rewrite tabulate_pass_eq. cbn zeta. cbn [fst].
  rewrite range_cons by lia. rewrite bind_cons, Hmis, Hframe, Hbasis.
  cbn [app]. rewrite tabulate_pass_cons.
  destruct (decide (alpha = (0, 0))) as [-> | Hne].
  - rewrite (cached_derivative_hit _ _ _ b0) by apply lookup_singleton_eq.
    by rewrite table_short_point.
  - rewrite (cached_derivative_miss _ _ _ b0);
      [|by apply lookup_singleton_ne|apply lookup_singleton_eq].
    rewrite table_short_point; [done| |done].
    unfold diff_Array. apply Forall_fmap. eapply Forall_impl; [exact Hrows|].
    intros [|f row] Hrow; [done|]. discriminate.
Qed.

End tabulate_more.

Lemma tabulate_negative_order_witness :
  ∃ self : FlatElement,
    FlatEdge (quadrilateral 0 1) 1 = inr self
    ∧ Engine.tabulate self (-1) [[0%Q; 0%Q]] None = (inr ∅, self).
Proof.
  eexists. split; [vm_compute; reflexivity|].
  apply (tabulate_negative_order 0%Q Engine.evalf Engine.to_float Engine.mis
           get_spatial_dimension (λ _ _ _ p, p) Engine.diff). lia.
Defined.

Lemma tabulate_keys_witness :
  ∃ (self : FlatElement) phi,
    FlatEdge (quadrilateral 0 1) 1 = inr self
    ∧ (let call := Engine.tabulate self 1 [[0%Q; 0%Q]] None in
       fst call = inr phi
       ∧ (∀ alpha, is_Some (phi !! alpha)
                   ↔ ∃ o, 0 ≤ o ≤ 1 ∧ alpha ∈ Engine.mis 2 o)
       ∧ (∀ alpha, is_Some (basis (snd call) !! alpha)
                   ↔ is_Some (basis self !! alpha)
                     ∨ ∃ o, 0 ≤ o ≤ 1 ∧ alpha ∈ Engine.mis 2 o)).
Proof.
  eexists _, _. split; [vm_compute; reflexivity|].
  cbn zeta. split; [vm_compute; reflexivity|].
  apply (tabulate_keys 0%Q Engine.evalf Engine.to_float Engine.mis
           get_spatial_dimension (λ _ _ _ p, p) Engine.diff).
  vm_compute. reflexivity.
Defined.

Lemma tabulate_caches_derivatives_of_order_0_witness :
  ∃ (self : FlatElement) polynomials,
    FlatEdge (quadrilateral 0 1) 1 = inr self
    ∧ (let call := Engine.tabulate self 1 [[0%Q; 0%Q]] None in
       basis self !! (1, 0) = None
       ∧ basis (snd call) !! (1, 0) = Some polynomials
       ∧ (∃ o, 0 ≤ o ≤ 1 ∧ (1, 0) ∈ Engine.mis 2 o)
       ∧ ∃ b0, basis self !! (0, 0) = Some b0
               ∧ basis (snd call) !! (0, 0) = Some b0
               ∧ polynomials
                 = (λ row : term,
                      (λ f, Engine.diff f [(x, 1); (y, 0)]) <$> row) <$> b0).
Proof.
  eexists _, _. split; [vm_compute; reflexivity|].
  cbn zeta. split; [vm_compute; reflexivity|].
  split; [vm_compute; reflexivity|].
  apply (tabulate_caches_derivatives_of_order_0 0%Q Engine.evalf
           Engine.to_float Engine.mis get_spatial_dimension (λ _ _ _ p, p)
           Engine.diff _ 1 [[0%Q; 0%Q]] None (1, 0));
    vm_compute; reflexivity.
Defined.

Lemma tabulate_short_point_witness :
  ∃ self : FlatElement,
    FlatEdge (quadrilateral 0 1) 1 = inr self
    ∧ fst (Engine.tabulate self 0 [[0%Q]] None) = inl IndexError.
Proof.
  eexists. split; [vm_compute; reflexivity|].
  eapply (tabulate_short_point 0%Q Engine.evalf Engine.to_float Engine.mis
            get_spatial_dimension (λ _ _ _ p, p) Engine.diff _ 0 [[0%Q]] None
            _ (0, 0) [] [0%Q] []).
  - lia.
  - reflexivity.
  - vm_compute. reflexivity.
  - repeat constructor; discriminate.
  - reflexivity.
  - simpl. lia.
Defined.
